(** * TTS Narrator and Dialogue Tool: the content-to-audio pipeline

    A shallow embedding of the section tree, the per-node and document-level
    generation handlers, the staleness check, the export packaging and the
    file-name builder of the application ([App.tsx], [SectionEditor.tsx],
    [TableOfContents.tsx], [geminiService.ts], [types.ts]), followed by the
    properties established about them.

    Conventions.  A JavaScript string is the list of its UTF-16 code units.
    React state is a record; a state setter is a function on that record.
    An [async] handler is split where it awaits: the part that runs when the
    handler is called, and the part that runs when the awaited promise
    settles.  External collaborators (the generative backend, the audio
    codec, the archive library, the clock, the UUID source) are parameters. *)

From Stdlib Require Import List NArith Arith Bool String Ascii Lia DecimalString.
From Stdlib Require DecimalNat.
Import ListNotations.

(* ================================================================== *)
(** * Part I.  Definitions                                             *)
(* ================================================================== *)

(** ** JavaScript strings *)

Definition jsstring := list N.

(** A literal of the source, as code units. *)
Definition lit (s : string) : jsstring :=
  map N_of_ascii (list_ascii_of_string s).

(** [`${n}`] for a non-negative integer. *)
Definition decimal (n : nat) : jsstring :=
  lit (NilEmpty.string_of_uint (Nat.to_uint n)).

Arguments lit : simpl never.
Arguments decimal : simpl never.

Definition hyphen : N := 45%N.
Definition quote : N := 34%N.
Definition newline : N := 10%N.

(** Truthiness of a string: [!!s]. *)
Definition truthy (s : jsstring) : bool :=
  match s with [] => false | _ :: _ => true end.

Fixpoint str_eqb (a b : jsstring) : bool :=
  match a, b with
  | [], [] => true
  | x :: a', y :: b' => N.eqb x y && str_eqb a' b'
  | _, _ => false
  end.

(** The characters matched by [\s] and removed by [trim()]: WhiteSpace and
    LineTerminator of ECMAScript. *)
Definition is_ws (c : N) : bool :=
  ((9 <=? c) && (c <=? 13) || (c =? 32) || (c =? 160) || (c =? 5760)
   || (8192 <=? c) && (c <=? 8202) || (c =? 8232) || (c =? 8233)
   || (c =? 8239) || (c =? 8287) || (c =? 12288) || (c =? 65279))%N.

Fixpoint trimStart (s : jsstring) : jsstring :=
  match s with
  | [] => []
  | c :: r => if is_ws c then trimStart r else s
  end.

Fixpoint trimEnd (s : jsstring) : jsstring :=
  match s with
  | [] => []
  | c :: r =>
      match trimEnd r with
      | [] => if is_ws c then [] else [c]
      | r' => c :: r'
      end
  end.

Definition trim (s : jsstring) : jsstring := trimEnd (trimStart s).

(** [s.substring(a, b)]: both indices are clamped to the length and swapped
    when out of order. *)
Definition substring (s : jsstring) (a b : nat) : jsstring :=
  let a' := Nat.min a (List.length s) in
  let b' := Nat.min b (List.length s) in
  let from := Nat.min a' b' in
  let to := Nat.max a' b' in
  firstn (to - from) (skipn from s).

(** [arr.join(sep)]. *)
Definition join (sep : jsstring) (l : list jsstring) : jsstring :=
  match l with
  | [] => []
  | x :: xs => x ++ flat_map (fun w => sep ++ w) xs
  end.

(** [s.replace(/\s+/g, '-')]: every maximal run of whitespace becomes one
    hyphen; [in_run] tells that the scan is inside a run already replaced. *)
Fixpoint replace_ws_runs (in_run : bool) (s : jsstring) : jsstring :=
  match s with
  | [] => []
  | c :: r =>
      if is_ws c
      then (if in_run then replace_ws_runs true r
            else hyphen :: replace_ws_runs true r)
      else c :: replace_ws_runs false r
  end.

(** The class [[a-zA-Z0-9-_]] (the last two are literal). *)
Definition in_class (c : N) : bool :=
  ((97 <=? c) && (c <=? 122) || (65 <=? c) && (c <=? 90)
   || (48 <=? c) && (c <=? 57) || (c =? 45) || (c =? 95))%N.

(** [s.replace(/[^a-zA-Z0-9-_]/g, '')]: every match is replaced by the empty
    string. *)
Definition replace_outside_class (s : jsstring) : jsstring :=
  flat_map (fun c => if in_class c then [c] else []) s.

(** ** File names ([generateFileName] of the table of contents and
    [formatFileName] of the application are the same function) *)

(** [p && p.trim()], as a condition. *)
Definition part_kept (p : option jsstring) : bool :=
  match p with
  | None => false
  | Some s => truthy s && truthy (trim s)
  end.

(** [p!]. *)
Definition non_null (p : option jsstring) : jsstring :=
  match p with Some s => s | None => [] end.

Definition generateFileName (parts : list (option jsstring)) : jsstring :=
  join [hyphen]
    (map (fun p => replace_outside_class
                     (replace_ws_runs false (trim (non_null p))))
         (filter part_kept parts)).

Definition formatFileName (parts : list (option jsstring)) : jsstring :=
  join [hyphen]
    (map (fun p => replace_outside_class
                     (replace_ws_runs false (trim (non_null p))))
         (filter part_kept parts)).

(** *** The sanitizer as the specification words it

    Drop blank or empty parts, trim each, collapse internal whitespace runs
    to one hyphen, strip every character outside the class, join with
    hyphens.  Collapsing is worded through the words of the part: the pieces
    between whitespace, none of them empty, put back together with one
    hyphen between neighbours. *)

Definition blank (s : jsstring) : bool := forallb is_ws s.

Fixpoint fields (s : jsstring) : list jsstring :=
  match s with
  | [] => [[]]
  | c :: r =>
      if is_ws c then [] :: fields r
      else match fields r with
           | w :: ws => (c :: w) :: ws
           | [] => [[c]]
           end
  end.

Definition words (s : jsstring) : list jsstring := filter truthy (fields s).

Definition spec_collapse (s : jsstring) : jsstring := join [hyphen] (words s).

Definition spec_strip (s : jsstring) : jsstring := filter in_class s.

Fixpoint spec_present (parts : list (option jsstring)) : list jsstring :=
  match parts with
  | [] => []
  | None :: r => spec_present r
  | Some s :: r => if blank s then spec_present r else s :: spec_present r
  end.

Definition spec_sanitize (parts : list (option jsstring)) : jsstring :=
  join [hyphen]
    (map (fun s => spec_strip (spec_collapse (trim s))) (spec_present parts)).

(** ** [types.ts] *)

Inductive VoiceName := Kore | Puck | Charon | Fenrir | Aoede.

(** The string value of an enum member. *)
Definition voice_string (v : VoiceName) : jsstring :=
  match v with
  | Kore => lit "Kore"
  | Puck => lit "Puck"
  | Charon => lit "Charon"
  | Fenrir => lit "Fenrir"
  | Aoede => lit "Aoede"
  end.

Record Character := mkCharacter {
  character_id : jsstring;
  character_name : jsstring;
  character_voice : VoiceName
}.

Record ScriptLine := mkScriptLine {
  line_id : jsstring;
  characterId : jsstring;
  line_text : jsstring
}.

(** The application also uses ['TRANSCRIPTION'], which the declared union
    leaves out. *)
Inductive AppMode := NARRATION | DIALOGUE | CLONING | TRANSCRIPTION.

(** [blob] is the WAV container as bytes; [duration] is carried as an
    opaque number, nothing here computes with it. *)
Record GeneratedAudio := mkAudio {
  blob : list N;
  url : jsstring;
  duration : N
}.

Inductive Status := Idle | Generating | Success | Error.

Module Subsection.
Record t := mk {
  id : jsstring;
  name : jsstring;
  text : jsstring;
  voice : VoiceName;
  audio : option GeneratedAudio;
  status : Status;
  error : option jsstring
}.
End Subsection.

Module Snippet.
Record t := mk {
  id : jsstring;
  name : jsstring;
  text : jsstring;
  voice : VoiceName;
  audio : option GeneratedAudio;
  status : Status;
  error : option jsstring;
  subsections : list Subsection.t
}.
End Snippet.

(** ** Promises and the backend ([geminiService.ts])

    A rejected promise carries an [Error] with its [message].  An
    asynchronous computation is recorded with the requests it sent to the
    backend, in order, and the way it settled. *)

Record JsError := mkError { message : jsstring }.

Inductive Settled (A : Type) :=
| Fulfilled (a : A)
| Rejected (e : JsError).
Arguments Fulfilled {A} a.
Arguments Rejected {A} e.

Inductive RequestPart :=
| TextPart (text : jsstring)
| InlineDataPart (mimeType data : jsstring).

Inductive SpeechConfig :=
| PrebuiltVoice (voiceName : VoiceName)
| MultiSpeaker (speakerVoiceConfigs : list (jsstring * VoiceName)).

Record Request := mkRequest {
  model : jsstring;
  contents : list RequestPart;
  audioRequested : bool;
  speechConfig : option SpeechConfig
}.

(** What the handlers read of a response: [parts] is
    [candidates?.[0]?.content?.parts], [response_text] is [response.text];
    of a part, [inlineData?.data]. *)
Record Response := mkResponse {
  parts : option (list (option jsstring));
  response_text : option jsstring
}.

Record Async (A : Type) := mkAsync {
  calls : list Request;
  settled : Settled A
}.
Arguments mkAsync {A} calls settled.
Arguments calls {A} a.
Arguments settled {A} a.

Definition ret {A} (a : A) : Async A := mkAsync [] (Fulfilled a).

Definition throw {A} (e : JsError) : Async A := mkAsync [] (Rejected e).

Definition bind {A B} (m : Async A) (k : A -> Async B) : Async B :=
  match settled m with
  | Fulfilled a => mkAsync (calls m ++ calls (k a)) (settled (k a))
  | Rejected e => mkAsync (calls m) (Rejected e)
  end.

Definition try_catch {A} (m : Async A) (handler : JsError -> Async A) : Async A :=
  match settled m with
  | Fulfilled a => m
  | Rejected e => mkAsync (calls m ++ calls (handler e)) (settled (handler e))
  end.

Notation "x <- m ;; k" := (bind m (fun x => k))
  (at level 61, m at next level, right associativity).

(** [!s] on a possibly missing string. *)
Definition falsy (o : option jsstring) : bool :=
  match o with
  | Some s => negb (truthy s)
  | None => true
  end.

Section Backend.

(** [ai.models.generateContent]: how the backend settles a request. *)
Variable backend : Request -> Settled Response.

Definition generateContent (r : Request) : Async Response :=
  mkAsync [r] (backend r).

Definition tts_model : jsstring := lit "gemini-2.5-flash-preview-tts".

Definition generateSingleVoice (text : jsstring) (voice : VoiceName)
  : Async jsstring :=
  try_catch
    (response <- generateContent
       (mkRequest tts_model [TextPart text] true (Some (PrebuiltVoice voice))) ;;
     let base64Audio :=
       match parts response with
       | Some (Some d :: _) => Some d
       | _ => None
       end in
     if falsy base64Audio
     then throw (mkError (lit "No audio data returned from Gemini API"))
     else ret (non_null base64Audio))
    (fun error => throw error).

Definition promptText (script : list ScriptLine) (characters : list Character)
  : jsstring :=
  join [newline]
    (map (fun line =>
            let char := find (fun c => str_eqb (character_id c) (characterId line))
                             characters in
            match char with
            | Some c => character_name c
            | None => lit "Unknown"
            end ++ lit ": " ++ line_text line)
         script).

Definition generateDialogue (script : list ScriptLine)
  (characters : list Character) : Async jsstring :=
  try_catch
    (response <- generateContent
       (mkRequest tts_model [TextPart (promptText script characters)] true
          (Some (MultiSpeaker
                   (map (fun c => (character_name c, character_voice c))
                        characters)))) ;;
     let base64Audio :=
       match parts response with
       | Some (Some d :: _) => Some d
       | _ => None
       end in
     if falsy base64Audio
     then throw (mkError (lit "No audio data returned from Gemini API"))
     else ret (non_null base64Audio))
    (fun error => throw error).

(** The loop over the parts of the native response: the first part with
    non-empty inline data wins. *)
Fixpoint first_inline_data (ps : list (option jsstring)) : jsstring :=
  match ps with
  | [] => []
  | part :: rest =>
      if falsy part then first_inline_data rest else non_null part
  end.

Definition mimic_prompt (text : jsstring) : jsstring :=
  lit "Please speak the following text. Try to mimic the voice, tone, and speaking style of the speaker in the provided audio file as closely as possible."
  ++ [newline; newline] ++ lit "Text: " ++ [quote] ++ text ++ [quote].

(** Attempt 1 of [generateClonedSpeech]: the body of its outer [try]. *)
Definition native_cloning (text referenceAudio mimeType : jsstring)
  : Async jsstring :=
  response <- generateContent
    (mkRequest (lit "gemini-2.0-flash-exp")
       [InlineDataPart mimeType referenceAudio; TextPart (mimic_prompt text)]
       true None) ;;
  let base64Audio :=
    match parts response with
    | Some ps => first_inline_data ps
    | None => []
    end in
  if negb (truthy base64Audio)
  then throw (mkError (lit "Model returned no audio data."))
  else ret base64Audio.

Definition generateClonedSpeech (text referenceAudio mimeType : jsstring)
  : Async jsstring :=
  try_catch (native_cloning text referenceAudio mimeType)
    (fun error =>
       try_catch (generateSingleVoice text Aoede)
         (fun fallbackError =>
            throw (mkError
              (lit "Voice Generation failed. Native error: " ++ message error
               ++ lit ". Fallback error: " ++ message fallbackError)))).

Definition transcribeAudio (base64Audio mimeType : jsstring) : Async jsstring :=
  try_catch
    (response <- generateContent
       (mkRequest (lit "gemini-2.5-flash")
          [InlineDataPart mimeType base64Audio;
           TextPart (lit "Transcribe the speech in this audio file into text. Return only the transcription, no other text.")]
          false None) ;;
     if falsy (response_text response)
     then throw (mkError (lit "No transcription generated."))
     else ret (non_null (response_text response)))
    (fun error => throw error).

End Backend.

(** ** The section editor ([SectionEditor.tsx])

    The text area shows [section.text]; the selection offsets are those of
    the text area; [uuid] is the value of [crypto.randomUUID()].  A handler
    yields the snippet it passes to [onUpdate], or nothing when it returns
    before the call. *)

Definition with_subsections (section : Snippet.t) (subs : list Subsection.t)
  : Snippet.t :=
  Snippet.mk (Snippet.id section) (Snippet.name section) (Snippet.text section)
    (Snippet.voice section) (Snippet.audio section) (Snippet.status section)
    (Snippet.error section) subs.

Definition handleExtractSubsection (section : Snippet.t) (start end_ : nat)
  (uuid : jsstring) : option Snippet.t :=
  if Nat.eqb start end_ then None
  else
    let selectedText := substring (Snippet.text section) start end_ in
    if negb (truthy (trim selectedText)) then None
    else
      let newSubsection :=
        Subsection.mk uuid
          (lit "Part " ++ decimal (List.length (Snippet.subsections section) + 1))
          selectedText (Snippet.voice section) None Idle None in
      Some (with_subsections section
              (Snippet.subsections section ++ [newSubsection])).

(** The [Partial<Subsection>] objects the editor passes. *)
Inductive SubsectionUpdate :=
| UpdateName (name : jsstring)
| UpdateVoice (voice : VoiceName)
| UpdateText (text : jsstring).

Definition merge_subsection (sub : Subsection.t) (updates : SubsectionUpdate)
  : Subsection.t :=
  match updates with
  | UpdateName n =>
      Subsection.mk (Subsection.id sub) n (Subsection.text sub)
        (Subsection.voice sub) (Subsection.audio sub) (Subsection.status sub)
        (Subsection.error sub)
  | UpdateVoice v =>
      Subsection.mk (Subsection.id sub) (Subsection.name sub) (Subsection.text sub)
        v (Subsection.audio sub) (Subsection.status sub) (Subsection.error sub)
  | UpdateText t =>
      Subsection.mk (Subsection.id sub) (Subsection.name sub) t
        (Subsection.voice sub) (Subsection.audio sub) (Subsection.status sub)
        (Subsection.error sub)
  end.

Definition updateSubsection (section : Snippet.t) (subId : jsstring)
  (updates : SubsectionUpdate) : Snippet.t :=
  with_subsections section
    (map (fun sub => if str_eqb (Subsection.id sub) subId
                     then merge_subsection sub updates else sub)
         (Snippet.subsections section)).

Definition deleteSubsection (section : Snippet.t) (subId : jsstring) : Snippet.t :=
  with_subsections section
    (filter (fun sub => negb (str_eqb (Subsection.id sub) subId))
            (Snippet.subsections section)).

(** The three inline [onChange] handlers of the section header and text. *)
Definition with_name (section : Snippet.t) (n : jsstring) : Snippet.t :=
  Snippet.mk (Snippet.id section) n (Snippet.text section)
    (Snippet.voice section) (Snippet.audio section) (Snippet.status section)
    (Snippet.error section) (Snippet.subsections section).

Definition with_voice (section : Snippet.t) (v : VoiceName) : Snippet.t :=
  Snippet.mk (Snippet.id section) (Snippet.name section) (Snippet.text section)
    v (Snippet.audio section) (Snippet.status section)
    (Snippet.error section) (Snippet.subsections section).

Definition with_text (section : Snippet.t) (t : jsstring) : Snippet.t :=
  Snippet.mk (Snippet.id section) (Snippet.name section) t
    (Snippet.voice section) (Snippet.audio section) (Snippet.status section)
    (Snippet.error section) (Snippet.subsections section).

(** ** The application state ([App.tsx]) *)

Record FileData := mkFileData {
  file_name : jsstring;
  file_data : jsstring;
  file_mimeType : jsstring
}.

(** The value of [getContentHash()].  [JSON.stringify] of an object with
    fixed keys is one-to-one on the values of those keys and never the
    empty string, so the serialised text is represented by what it
    serialises; [HashEmpty] is the string ['']. *)
Inductive ContentHash :=
| HashEmpty
| HashNarration (text : jsstring) (voice : VoiceName)
| HashDialogue (script : list ScriptLine) (characters : list Character)
| HashCloning (text : jsstring) (ref : option jsstring).

Definition ContentHash_eq_dec (a b : ContentHash) : {a = b} + {a <> b}.
Proof. repeat decide equality. Defined.

Definition AppMode_eq_dec (a b : AppMode) : {a = b} + {a <> b}.
Proof. decide equality. Defined.

Record App := mkApp {
  mode : AppMode;
  loading : bool;
  error : option jsstring;
  generatedAudio : option GeneratedAudio;
  lastGeneratedHash : ContentHash;
  appName : jsstring;
  featureName : jsstring;
  narrationText : jsstring;
  narrationVoice : VoiceName;
  snippets : list Snippet.t;
  characters : list Character;
  script : list ScriptLine;
  cloningText : jsstring;
  cloningReference : option FileData;
  transcriptionFile : option FileData;
  transcriptionResult : jsstring
}.

Definition setMode (v : AppMode) (a : App) : App :=
  mkApp v (loading a) (error a) (generatedAudio a) (lastGeneratedHash a)
    (appName a) (featureName a) (narrationText a) (narrationVoice a)
    (snippets a) (characters a) (script a) (cloningText a)
    (cloningReference a) (transcriptionFile a) (transcriptionResult a).

Definition setLoading (v : bool) (a : App) : App :=
  mkApp (mode a) v (error a) (generatedAudio a) (lastGeneratedHash a)
    (appName a) (featureName a) (narrationText a) (narrationVoice a)
    (snippets a) (characters a) (script a) (cloningText a)
    (cloningReference a) (transcriptionFile a) (transcriptionResult a).

Definition setError (v : option jsstring) (a : App) : App :=
  mkApp (mode a) (loading a) v (generatedAudio a) (lastGeneratedHash a)
    (appName a) (featureName a) (narrationText a) (narrationVoice a)
    (snippets a) (characters a) (script a) (cloningText a)
    (cloningReference a) (transcriptionFile a) (transcriptionResult a).

Definition setGeneratedAudio (v : option GeneratedAudio) (a : App) : App :=
  mkApp (mode a) (loading a) (error a) v (lastGeneratedHash a)
    (appName a) (featureName a) (narrationText a) (narrationVoice a)
    (snippets a) (characters a) (script a) (cloningText a)
    (cloningReference a) (transcriptionFile a) (transcriptionResult a).

Definition setLastGeneratedHash (v : ContentHash) (a : App) : App :=
  mkApp (mode a) (loading a) (error a) (generatedAudio a) v
    (appName a) (featureName a) (narrationText a) (narrationVoice a)
    (snippets a) (characters a) (script a) (cloningText a)
    (cloningReference a) (transcriptionFile a) (transcriptionResult a).

Definition setNarrationText (v : jsstring) (a : App) : App :=
  mkApp (mode a) (loading a) (error a) (generatedAudio a) (lastGeneratedHash a)
    (appName a) (featureName a) v (narrationVoice a)
    (snippets a) (characters a) (script a) (cloningText a)
    (cloningReference a) (transcriptionFile a) (transcriptionResult a).

Definition setNarrationVoice (v : VoiceName) (a : App) : App :=
  mkApp (mode a) (loading a) (error a) (generatedAudio a) (lastGeneratedHash a)
    (appName a) (featureName a) (narrationText a) v
    (snippets a) (characters a) (script a) (cloningText a)
    (cloningReference a) (transcriptionFile a) (transcriptionResult a).

Definition setSnippets (v : list Snippet.t) (a : App) : App :=
  mkApp (mode a) (loading a) (error a) (generatedAudio a) (lastGeneratedHash a)
    (appName a) (featureName a) (narrationText a) (narrationVoice a)
    v (characters a) (script a) (cloningText a)
    (cloningReference a) (transcriptionFile a) (transcriptionResult a).

Definition setCharacters (v : list Character) (a : App) : App :=
  mkApp (mode a) (loading a) (error a) (generatedAudio a) (lastGeneratedHash a)
    (appName a) (featureName a) (narrationText a) (narrationVoice a)
    (snippets a) v (script a) (cloningText a)
    (cloningReference a) (transcriptionFile a) (transcriptionResult a).

Definition setScript (v : list ScriptLine) (a : App) : App :=
  mkApp (mode a) (loading a) (error a) (generatedAudio a) (lastGeneratedHash a)
    (appName a) (featureName a) (narrationText a) (narrationVoice a)
    (snippets a) (characters a) v (cloningText a)
    (cloningReference a) (transcriptionFile a) (transcriptionResult a).

Definition setCloningText (v : jsstring) (a : App) : App :=
  mkApp (mode a) (loading a) (error a) (generatedAudio a) (lastGeneratedHash a)
    (appName a) (featureName a) (narrationText a) (narrationVoice a)
    (snippets a) (characters a) (script a) v
    (cloningReference a) (transcriptionFile a) (transcriptionResult a).

Definition setCloningReference (v : option FileData) (a : App) : App :=
  mkApp (mode a) (loading a) (error a) (generatedAudio a) (lastGeneratedHash a)
    (appName a) (featureName a) (narrationText a) (narrationVoice a)
    (snippets a) (characters a) (script a) (cloningText a)
    v (transcriptionFile a) (transcriptionResult a).

Definition setTranscriptionResult (v : jsstring) (a : App) : App :=
  mkApp (mode a) (loading a) (error a) (generatedAudio a) (lastGeneratedHash a)
    (appName a) (featureName a) (narrationText a) (narrationVoice a)
    (snippets a) (characters a) (script a) (cloningText a)
    (cloningReference a) (transcriptionFile a) v.

(** The state of the first render. *)
Definition initial_app : App :=
  mkApp NARRATION false None None HashEmpty
    (lit "MyApp") (lit "Tutorial")
    (lit "Enter text here to generate speech...") Kore
    []
    [mkCharacter (lit "1") (lit "Speaker 1") Kore;
     mkCharacter (lit "2") (lit "Speaker 2") Puck]
    [mkScriptLine (lit "s1") (lit "1")
       (lit "Hello! I am the first speaker using the Kore voice.");
     mkScriptLine (lit "s2") (lit "2")
       (lit "And I am the second speaker, using Puck. We can talk to each other!")]
    (lit "Enter text to be spoken by the cloned voice...")
    None None [].

(** *** Staleness *)

Definition getContentHash (a : App) : ContentHash :=
  match mode a with
  | NARRATION => HashNarration (narrationText a) (narrationVoice a)
  | DIALOGUE => HashDialogue (script a) (characters a)
  | CLONING =>
      HashCloning (cloningText a) (option_map file_name (cloningReference a))
  | TRANSCRIPTION => HashEmpty
  end.

Definition isStale (a : App) : bool :=
  match generatedAudio a with Some _ => true | None => false end
  && (if ContentHash_eq_dec (getContentHash a) (lastGeneratedHash a)
      then false else true)
  && (if AppMode_eq_dec (mode a) TRANSCRIPTION then false else true).

(** The [onClick] of each of the four mode buttons. *)
Definition switchMode (m : AppMode) (a : App) : App :=
  setLastGeneratedHash HashEmpty
    (setError None (setGeneratedAudio None (setMode m a))).

(** *** Section management *)

Definition addSnippetFromSelection (start end_ : nat) (uuid : jsstring) (a : App)
  : App :=
  if Nat.eqb start end_ then a
  else
    let selectedText := substring (narrationText a) start end_ in
    if negb (truthy (trim selectedText)) then a
    else
      let newSnippet :=
        Snippet.mk uuid
          (lit "Section " ++ decimal (List.length (snippets a) + 1))
          selectedText (narrationVoice a) None Idle None [] in
      setSnippets (snippets a ++ [newSnippet]) a.

Definition removeSnippet (id : jsstring) (a : App) : App :=
  setSnippets (filter (fun s => negb (str_eqb (Snippet.id s) id)) (snippets a)) a.

Definition updateSnippet (updatedSnippet : Snippet.t) (a : App) : App :=
  setSnippets
    (map (fun s => if str_eqb (Snippet.id s) (Snippet.id updatedSnippet)
                   then updatedSnippet else s)
         (snippets a)) a.

(** *** Generation *)

Inductive DocumentResult :=
| AudioResult (audio : GeneratedAudio)
| TranscriptResult (text : jsstring).

(** The three functional updates of [generateSnippet] on one snippet. *)
Definition snippet_generating (s : Snippet.t) : Snippet.t :=
  Snippet.mk (Snippet.id s) (Snippet.name s) (Snippet.text s) (Snippet.voice s)
    (Snippet.audio s) Generating None (Snippet.subsections s).

Definition snippet_success (audio : GeneratedAudio) (s : Snippet.t) : Snippet.t :=
  Snippet.mk (Snippet.id s) (Snippet.name s) (Snippet.text s) (Snippet.voice s)
    (Some audio) Success (Snippet.error s) (Snippet.subsections s).

Definition snippet_error (err : JsError) (s : Snippet.t) : Snippet.t :=
  Snippet.mk (Snippet.id s) (Snippet.name s) (Snippet.text s) (Snippet.voice s)
    (Snippet.audio s) Error (Some (message err)) (Snippet.subsections s).

(** And those of [generateSubsection] on one subsection. *)
Definition subsection_generating (s : Subsection.t) : Subsection.t :=
  Subsection.mk (Subsection.id s) (Subsection.name s) (Subsection.text s)
    (Subsection.voice s) (Subsection.audio s) Generating None.

Definition subsection_success (audio : GeneratedAudio) (s : Subsection.t)
  : Subsection.t :=
  Subsection.mk (Subsection.id s) (Subsection.name s) (Subsection.text s)
    (Subsection.voice s) (Some audio) Success (Subsection.error s).

Definition subsection_error (err : JsError) (s : Subsection.t) : Subsection.t :=
  Subsection.mk (Subsection.id s) (Subsection.name s) (Subsection.text s)
    (Subsection.voice s) (Subsection.audio s) Error (Some (message err)).

(** [prev.map(s => s.id === id ? f(s) : s)]. *)
Definition map_snippet (id : jsstring) (f : Snippet.t -> Snippet.t)
  (prev : list Snippet.t) : list Snippet.t :=
  map (fun s => if str_eqb (Snippet.id s) id then f s else s) prev.

(** The nested [map] of [generateSubsection]. *)
Definition map_subsection (sectionId subsectionId : jsstring)
  (f : Subsection.t -> Subsection.t) (prev : list Snippet.t) : list Snippet.t :=
  map_snippet sectionId
    (fun s => with_subsections s
                (map (fun sub => if str_eqb (Subsection.id sub) subsectionId
                                 then f sub else sub)
                     (Snippet.subsections s)))
    prev.

(** [generateSnippet] up to its [await]: nothing when the snippet is not
    found, else the state after the first update and the arguments passed
    to [processGeneration]. *)
Definition generateSnippet_begin (id : jsstring) (a : App)
  : option (App * (jsstring * VoiceName)) :=
  match find (fun s => str_eqb (Snippet.id s) id) (snippets a) with
  | None => None
  | Some snippet =>
      Some (setSnippets (map_snippet id snippet_generating (snippets a)) a,
            (Snippet.text snippet, Snippet.voice snippet))
  end.

(** [generateSnippet] from the moment [processGeneration] settles. *)
Definition generateSnippet_settle (id : jsstring) (r : Settled GeneratedAudio)
  (a : App) : App :=
  match r with
  | Fulfilled audio =>
      setSnippets (map_snippet id (snippet_success audio) (snippets a)) a
  | Rejected err =>
      setSnippets (map_snippet id (snippet_error err) (snippets a)) a
  end.

Definition generateSubsection_begin (sectionId subsectionId : jsstring) (a : App)
  : option (App * (jsstring * VoiceName)) :=
  match find (fun s => str_eqb (Snippet.id s) sectionId) (snippets a) with
  | None => None
  | Some snippet =>
      match find (fun sub => str_eqb (Subsection.id sub) subsectionId)
                 (Snippet.subsections snippet) with
      | None => None
      | Some sub =>
          Some (setSnippets
                  (map_subsection sectionId subsectionId subsection_generating
                     (snippets a)) a,
                (Subsection.text sub, Subsection.voice sub))
      end
  end.

Definition generateSubsection_settle (sectionId subsectionId : jsstring)
  (r : Settled GeneratedAudio) (a : App) : App :=
  match r with
  | Fulfilled audio =>
      setSnippets
        (map_subsection sectionId subsectionId (subsection_success audio)
           (snippets a)) a
  | Rejected err =>
      setSnippets
        (map_subsection sectionId subsectionId (subsection_error err)
           (snippets a)) a
  end.

(** [err.message || "An error occurred during generation."]. *)
Definition message_or_default (err : JsError) : jsstring :=
  if truthy (message err) then message err
  else lit "An error occurred during generation.".

(** [handleGenerate] before its [try]. *)
Definition handleGenerate_begin (a : App) : App :=
  setGeneratedAudio None (setError None (setLoading true a)).

(** [handleGenerate] from the moment its [try] block completes or throws;
    [currentContentHash] is the value the handler closed over. *)
Definition handleGenerate_settle (currentContentHash : ContentHash)
  (r : Settled DocumentResult) (a : App) : App :=
  match r with
  | Fulfilled (TranscriptResult text) =>
      setLoading false (setLoading false (setTranscriptionResult text a))
  | Fulfilled (AudioResult audio) =>
      setLoading false
        (setLastGeneratedHash currentContentHash
           (setGeneratedAudio (Some audio) a))
  | Rejected err =>
      setLoading false (setError (Some (message_or_default err)) a)
  end.

Section Handlers.

Variable backend : Request -> Settled Response.

(** The codec: resuming the audio context, [decodeAudioData],
    [bufferToWavBlob] and [URL.createObjectURL], from the payload to the
    [GeneratedAudio] object or to the error one of them throws. *)
Variable codec : jsstring -> Settled GeneratedAudio.

Definition decode (base64Audio : jsstring) : Async GeneratedAudio :=
  mkAsync [] (codec base64Audio).

Definition processGeneration (text : jsstring) (voice : VoiceName)
  : Async GeneratedAudio :=
  base64Audio <- generateSingleVoice backend text voice ;;
  decode base64Audio.

(** The [try] block of [handleGenerate], on the state the handler closed
    over. *)
Definition handleGenerate_try (a : App) : Async DocumentResult :=
  match mode a with
  | NARRATION =>
      if negb (truthy (trim (narrationText a)))
      then throw (mkError (lit "Please enter some text."))
      else
        base64Audio <- generateSingleVoice backend (narrationText a)
                         (narrationVoice a) ;;
        audio <- decode base64Audio ;;
        ret (AudioResult audio)
  | DIALOGUE =>
      if Nat.eqb (List.length (script a)) 0
      then throw (mkError (lit "Script cannot be empty."))
      else
        base64Audio <- generateDialogue backend (script a) (characters a) ;;
        audio <- decode base64Audio ;;
        ret (AudioResult audio)
  | CLONING =>
      if negb (truthy (trim (cloningText a)))
      then throw (mkError (lit "Please enter text for the cloned voice."))
      else
        match cloningReference a with
        | None => throw (mkError (lit "Please upload a reference audio file."))
        | Some reference =>
            base64Audio <- generateClonedSpeech backend (cloningText a)
                             (file_data reference) (file_mimeType reference) ;;
            audio <- decode base64Audio ;;
            ret (AudioResult audio)
        end
  | TRANSCRIPTION =>
      match transcriptionFile a with
      | None => throw (mkError (lit "Please upload an audio file to transcribe."))
      | Some file =>
          text <- transcribeAudio backend (file_data file) (file_mimeType file) ;;
          ret (TranscriptResult text)
      end
  end.

(** [handleGenerate] run to completion with no other handler in between. *)
Definition handleGenerate (a : App) : App :=
  handleGenerate_settle (getContentHash a) (settled (handleGenerate_try a))
    (handleGenerate_begin a).

(** [generateSnippet] run to completion with no other handler in between;
    with the state, the requests it sent. *)
Definition generateSnippet (id : jsstring) (a : App) : App * list Request :=
  match generateSnippet_begin id a with
  | None => (a, [])
  | Some (a', (text, voice)) =>
      let p := processGeneration text voice in
      (generateSnippet_settle id (settled p) a', calls p)
  end.

Definition generateSubsection (sectionId subsectionId : jsstring) (a : App)
  : App * list Request :=
  match generateSubsection_begin sectionId subsectionId a with
  | None => (a, [])
  | Some (a', (text, voice)) =>
      let p := processGeneration text voice in
      (generateSubsection_settle sectionId subsectionId (settled p) a', calls p)
  end.

End Handlers.

(** *** Interleavings

    Handlers run one at a time; an [async] handler gives way at its
    [await].  A world is the application state with the generation calls
    that have been issued and have not settled yet.  An event is one handler
    run up to its next [await], or the settling of one call in flight with
    the result of its [processGeneration]. *)

Inductive Target :=
| SectionTarget (id : jsstring)
| SubsectionTarget (sectionId subsectionId : jsstring).

Definition Target_eq_dec (a b : Target) : {a = b} + {a <> b}.
Proof. repeat decide equality. Defined.

Record Job := mkJob {
  target : Target;
  job_text : jsstring;
  job_voice : VoiceName
}.

Record World := mkWorld {
  app : App;
  inflight : list Job
}.

(** What the author does in the editor of one section. *)
Inductive EditorAction :=
| EditName (name : jsstring)
| EditVoice (voice : VoiceName)
| EditText (text : jsstring)
| ExtractSubsection (start end_ : nat) (uuid : jsstring)
| UpdateSubsection (subId : jsstring) (updates : SubsectionUpdate)
| DeleteSubsection (subId : jsstring)
| DeleteSection.

Inductive Event :=
| TypeNarrationText (text : jsstring)
| SelectNarrationVoice (voice : VoiceName)
| AddSnippet (start end_ : nat) (uuid : jsstring)
| ClearAll
| Editor (index : nat) (action : EditorAction)
| GenerateSection (id : jsstring)
| GenerateSubsection (sectionId subsectionId : jsstring)
| Settle (k : nat) (r : Settled GeneratedAudio).

(** The editor rendered for [section], acting on the application. *)
Definition editor_step (section : Snippet.t) (action : EditorAction) (a : App)
  : App :=
  match action with
  | EditName n => updateSnippet (with_name section n) a
  | EditVoice v => updateSnippet (with_voice section v) a
  | EditText t => updateSnippet (with_text section t) a
  | ExtractSubsection start end_ uuid =>
      match handleExtractSubsection section start end_ uuid with
      | Some updated => updateSnippet updated a
      | None => a
      end
  | UpdateSubsection subId updates =>
      updateSnippet (updateSubsection section subId updates) a
  | DeleteSubsection subId => updateSnippet (deleteSubsection section subId) a
  | DeleteSection => removeSnippet (Snippet.id section) a
  end.

Fixpoint remove_nth {A} (k : nat) (l : list A) : list A :=
  match l, k with
  | [], _ => []
  | _ :: r, O => r
  | x :: r, S k' => x :: remove_nth k' r
  end.

Definition settle_job (j : Job) (r : Settled GeneratedAudio) (a : App) : App :=
  match target j with
  | SectionTarget id => generateSnippet_settle id r a
  | SubsectionTarget sectionId subsectionId =>
      generateSubsection_settle sectionId subsectionId r a
  end.

Definition step (w : World) (e : Event) : World :=
  match e with
  | TypeNarrationText t => mkWorld (setNarrationText t (app w)) (inflight w)
  | SelectNarrationVoice v => mkWorld (setNarrationVoice v (app w)) (inflight w)
  | AddSnippet start end_ uuid =>
      mkWorld (addSnippetFromSelection start end_ uuid (app w)) (inflight w)
  | ClearAll => mkWorld (setSnippets [] (app w)) (inflight w)
  | Editor index action =>
      match nth_error (snippets (app w)) index with
      | Some section => mkWorld (editor_step section action (app w)) (inflight w)
      | None => w
      end
  | GenerateSection id =>
      match generateSnippet_begin id (app w) with
      | Some (a', (text, voice)) =>
          mkWorld a' (inflight w ++ [mkJob (SectionTarget id) text voice])
      | None => w
      end
  | GenerateSubsection sectionId subsectionId =>
      match generateSubsection_begin sectionId subsectionId (app w) with
      | Some (a', (text, voice)) =>
          mkWorld a'
            (inflight w ++ [mkJob (SubsectionTarget sectionId subsectionId) text voice])
      | None => w
      end
  | Settle k r =>
      match nth_error (inflight w) k with
      | Some j => mkWorld (settle_job j r (app w)) (remove_nth k (inflight w))
      | None => w
      end
  end.

Definition run (w : World) (events : list Event) : World :=
  fold_left step events w.

Definition initial_world : World := mkWorld initial_app [].

(** An event that issues a call on a node while another call on the same
    node is in flight. *)
Definition overlaps (w : World) (e : Event) : bool :=
  match e with
  | GenerateSection id =>
      existsb (fun j => if Target_eq_dec (target j) (SectionTarget id)
                        then true else false) (inflight w)
  | GenerateSubsection sectionId subsectionId =>
      existsb (fun j => if Target_eq_dec (target j)
                             (SubsectionTarget sectionId subsectionId)
                        then true else false) (inflight w)
  | _ => false
  end.

(** A run in which no call is issued on a node that has one in flight. *)
Fixpoint no_overlap (w : World) (events : list Event) : bool :=
  match events with
  | [] => true
  | e :: rest => negb (overlaps w e) && no_overlap (step w e) rest
  end.

(** ** The export ([TableOfContents.tsx]) *)

Inductive ZipEntry :=
| AudioEntry (blob : list N)
| TextEntry (content : jsstring).

(** [folder.file(name, data)]: a member of that name is replaced. *)
Fixpoint zip_file (name : jsstring) (data : ZipEntry)
  (files : list (jsstring * ZipEntry)) : list (jsstring * ZipEntry) :=
  match files with
  | [] => [(name, data)]
  | (n, d) :: rest =>
      if str_eqb n name then (n, data) :: rest
      else (n, d) :: zip_file name data rest
  end.

Record Zip := mkZip {
  folder : jsstring;
  files : list (jsstring * ZipEntry)
}.

Definition section_line (i : nat) (snippet : Snippet.t) : jsstring :=
  decimal (i + 1) ++ lit ". " ++ Snippet.name snippet ++ lit " ("
  ++ voice_string (Snippet.voice snippet) ++ lit ")" ++ [newline].

Definition subsection_line (i j : nat) (sub : Subsection.t) : jsstring :=
  lit "   " ++ decimal (i + 1) ++ lit "." ++ decimal (j + 1) ++ lit ". "
  ++ Subsection.name sub ++ lit " (" ++ voice_string (Subsection.voice sub)
  ++ lit ")" ++ [newline].

Section Packaging.

Variables appName_ featureName_ : jsstring.

(** The inner loop, from index [j]; the state is the markdown text and
    the members of the folder. *)
Fixpoint subsections_loop (snippet : Snippet.t) (i j : nat)
  (subs : list Subsection.t) (st : jsstring * list (jsstring * ZipEntry))
  : jsstring * list (jsstring * ZipEntry) :=
  match subs with
  | [] => st
  | sub :: rest =>
      let markdownContent := fst st ++ subsection_line i j sub in
      let members :=
        match Subsection.audio sub with
        | Some audio =>
            zip_file
              (generateFileName [Some appName_; Some featureName_;
                                 Some (Snippet.name snippet);
                                 Some (Subsection.name sub)] ++ lit ".wav")
              (AudioEntry (blob audio)) (snd st)
        | None => snd st
        end in
      subsections_loop snippet i (S j) rest (markdownContent, members)
  end.

(** The outer loop, from index [i]. *)
Fixpoint snippets_loop (i : nat) (l : list Snippet.t)
  (st : jsstring * list (jsstring * ZipEntry))
  : jsstring * list (jsstring * ZipEntry) :=
  match l with
  | [] => st
  | snippet :: rest =>
      let markdownContent := fst st ++ section_line i snippet in
      let members :=
        match Snippet.audio snippet with
        | Some audio =>
            zip_file
              (generateFileName [Some appName_; Some featureName_;
                                 Some (Snippet.name snippet)] ++ lit ".wav")
              (AudioEntry (blob audio)) (snd st)
        | None => snd st
        end in
      let st' := subsections_loop snippet i 0 (Snippet.subsections snippet)
                   (markdownContent, members) in
      snippets_loop (S i) rest (fst st' ++ [newline], snd st')
  end.

(** The archive as it stands when [generateAsync] is called; [now] is
    [new Date().toLocaleString()]. *)
Definition build_zip (now : jsstring) (l : list Snippet.t) : Zip :=
  let folderName := generateFileName [Some appName_; Some featureName_] in
  let header :=
    lit "# " ++ appName_ ++ lit " - " ++ featureName_ ++ [newline; newline]
    ++ lit "Generated: " ++ now ++ [newline; newline] ++ lit "## Structure"
    ++ [newline; newline] in
  let st := snippets_loop 0 l (header, []) in
  mkZip folderName (zip_file (lit "structure.md") (TextEntry (fst st)) (snd st)).

Inductive DownloadOutcome :=
| NothingToExport
| Downloaded (download : jsstring) (content : list N)
| ZipFailed (e : JsError).

(** [handleDownloadAll]; [generateAsync] is the archive library.
    [zip.folder(name)] yields the folder for every string, so the guard on
    [rootFolder] never throws. *)
Definition handleDownloadAll (generateAsync : Zip -> Settled (list N))
  (now : jsstring) (l : list Snippet.t) : DownloadOutcome :=
  if Nat.eqb (List.length l) 0 then NothingToExport
  else
    let zip := build_zip now l in
    match generateAsync zip with
    | Fulfilled content => Downloaded (folder zip ++ lit ".zip") content
    | Rejected e => ZipFailed e
    end.

End Packaging.

(** The members of an archive that hold audio. *)
Definition audio_members (z : Zip) : list (jsstring * ZipEntry) :=
  filter (fun m => match snd m with AudioEntry _ => true | TextEntry _ => false end)
         (files z).

(** The manifest of an archive. *)
Definition manifest (z : Zip) : option jsstring :=
  match find (fun m => str_eqb (fst m) (lit "structure.md")) (files z) with
  | Some (_, TextEntry content) => Some content
  | _ => None
  end.

(** [line] occurs in [text]. *)
Definition occurs (line text : jsstring) : Prop :=
  exists before after, text = before ++ line ++ after.

(** ** Edits of the inputs a fingerprint reads *)

Inductive InputEdit :=
| NarrationTextEdit (text : jsstring)
| NarrationVoiceEdit (voice : VoiceName)
| ScriptEdit (script : list ScriptLine)
| CharactersEdit (characters : list Character)
| CloningTextEdit (text : jsstring)
| CloningReferenceEdit (reference : option FileData).

Definition apply_edit (e : InputEdit) (a : App) : App :=
  match e with
  | NarrationTextEdit t => setNarrationText t a
  | NarrationVoiceEdit v => setNarrationVoice v a
  | ScriptEdit s => setScript s a
  | CharactersEdit c => setCharacters c a
  | CloningTextEdit t => setCloningText t a
  | CloningReferenceEdit r => setCloningReference r a
  end.

(** The edit gives a new value to a field the fingerprint of the active
    mode is computed from. *)
Definition changes_tracked_field (e : InputEdit) (a : App) : Prop :=
  match e, mode a with
  | NarrationTextEdit t, NARRATION => t <> narrationText a
  | NarrationVoiceEdit v, NARRATION => v <> narrationVoice a
  | ScriptEdit s, DIALOGUE => s <> script a
  | CharactersEdit c, DIALOGUE => c <> characters a
  | CloningTextEdit t, CLONING => t <> cloningText a
  | CloningReferenceEdit r, CLONING =>
      option_map file_name r <> option_map file_name (cloningReference a)
  | _, _ => False
  end.

(** ** The text the export loops append *)

Fixpoint subsections_outline (i j : nat) (subs : list Subsection.t) : jsstring :=
  match subs with
  | [] => []
  | sub :: rest => subsection_line i j sub ++ subsections_outline i (S j) rest
  end.

Fixpoint snippets_outline (i : nat) (l : list Snippet.t) : jsstring :=
  match l with
  | [] => []
  | s :: rest =>
      section_line i s ++ subsections_outline i 0 (Snippet.subsections s)
      ++ [newline] ++ snippets_outline (S i) rest
  end.

(** ** The manifest as the specification words it *)

(** The elements of a list with their positions, counted from 0. *)
Definition numbered {A} (l : list A) : list (nat * A) :=
  combine (seq 0 (List.length l)) l.

(** The outline line of a section, "<n>. <name> (<voice>)". *)
Definition spec_section_line (n : nat) (name voice : jsstring) : jsstring :=
  decimal n ++ lit ". " ++ name ++ lit " (" ++ voice ++ lit ")".

(** The indented line of a subsection, "   <n>.<m>. <name> (<voice>)". *)
Definition spec_subsection_line (n m : nat) (name voice : jsstring) : jsstring :=
  lit "   " ++ decimal n ++ lit "." ++ decimal m ++ lit ". " ++ name
  ++ lit " (" ++ voice ++ lit ")".

(** One outline line per section, in order and numbered from 1, each
    followed by one indented line per subsection, numbered from 1 within
    the section, and then by a blank line. *)
Definition spec_outline (l : list Snippet.t) : jsstring :=
  flat_map
    (fun p =>
       spec_section_line (fst p + 1) (Snippet.name (snd p))
         (voice_string (Snippet.voice (snd p)))
       ++ [newline]
       ++ flat_map
            (fun q =>
               spec_subsection_line (fst p + 1) (fst q + 1)
                 (Subsection.name (snd q))
                 (voice_string (Subsection.voice (snd q)))
               ++ [newline])
            (numbered (Snippet.subsections (snd p)))
       ++ [newline])
    (numbered l).

(** ** Sample collaborators and data *)

Definition sample_audio : GeneratedAudio :=
  mkAudio [82; 73; 70; 70]%N (lit "blob:1") 3%N.

Definition other_audio : GeneratedAudio :=
  mkAudio [82; 73; 70; 70; 0]%N (lit "blob:2") 5%N.

Definition refusing_backend : Request -> Settled Response :=
  fun _ => Rejected (mkError (lit "quota exceeded")).

Definition serving_backend : Request -> Settled Response :=
  fun _ => Fulfilled (mkResponse (Some [Some (lit "UklGRg==")]) (Some (lit "hello"))).

(** A backend that refuses the native audio model and serves the rest. *)
Definition tts_only_backend : Request -> Settled Response :=
  fun r => if str_eqb (model r) tts_model then serving_backend r
           else Rejected (mkError (lit "model not available")).

Definition serving_codec : jsstring -> Settled GeneratedAudio :=
  fun _ => Fulfilled sample_audio.

(** The author extracts a section from the master text and then replaces
    its text by three spaces in the section's editor. *)
Definition blanking_run : list Event :=
  [AddSnippet 0 5 (lit "n1"); Editor 0 (EditText (lit "   "))].

Definition blanked_app : App := app (run initial_world blanking_run).

Definition intro_snippet : Snippet.t :=
  Snippet.mk (lit "n1") (lit "Intro") (lit "Hello there, world") Puck None Idle None [].

Definition app_with (l : list Snippet.t) : App := setSnippets l initial_app.

(** A document that holds the artifact of an earlier generation. *)
Definition narrated_app : App :=
  setLastGeneratedHash (getContentHash initial_app)
    (setGeneratedAudio (Some sample_audio) initial_app).

(** ** What is said of nodes *)

(** The snippet shows the result [r] of a generation call. *)
Definition reflects (r : Settled GeneratedAudio) (s : Snippet.t) : Prop :=
  match r with
  | Fulfilled audio =>
      Snippet.status s = Success /\ Snippet.audio s = Some audio
  | Rejected err =>
      Snippet.status s = Error /\ Snippet.error s = Some (message err)
  end.

(** Every section satisfies [N] and every subsection of a section with
    identifier [i] satisfies [M i]. *)
Definition tree_all (N : Snippet.t -> Prop) (M : jsstring -> Subsection.t -> Prop)
  (l : list Snippet.t) : Prop :=
  Forall (fun s => N s /\ Forall (M (Snippet.id s)) (Snippet.subsections s)) l.



(** A successful node has no error message. *)
Definition tree_clean (l : list Snippet.t) : Prop :=
  tree_all
    (fun s => Snippet.status s = Success -> Snippet.error s = None)
    (fun _ sub => Subsection.status sub = Success -> Subsection.error sub = None)
    l.


(** With calls in flight on the targets [ts]: a successful node has no
    error message, and neither has a node with a call in flight. *)
Definition section_quiet (ts : list Target) (s : Snippet.t) : Prop :=
  (Snippet.status s = Success -> Snippet.error s = None) /\
  (In (SectionTarget (Snippet.id s)) ts -> Snippet.error s = None).

Definition subsection_quiet (ts : list Target) (sectionId : jsstring)
  (sub : Subsection.t) : Prop :=
  (Subsection.status sub = Success -> Subsection.error sub = None) /\
  (In (SubsectionTarget sectionId (Subsection.id sub)) ts ->
   Subsection.error sub = None).

Definition world_quiet (w : World) : Prop :=
  NoDup (map target (inflight w)) /\
  tree_all (section_quiet (map target (inflight w)))
    (subsection_quiet (map target (inflight w))) (snippets (app w)).

(** The events of the author, which issue and settle no call. *)
Definition is_edit (e : Event) : bool :=
  match e with
  | GenerateSection _ | GenerateSubsection _ _ | Settle _ _ => false
  | _ => true
  end.

(** Two overlapping calls on one section: a failure, then a success. *)
Definition overlapping_run : list Event :=
  [AddSnippet 0 5 (lit "n1");
   GenerateSection (lit "n1");
   GenerateSection (lit "n1");
   Settle 0 (Rejected (mkError (lit "quota exceeded")));
   Settle 0 (Fulfilled sample_audio)].

(** A failed call on a section, then a second call issued after the first
    has settled. *)
Definition retry_run : list Event :=
  [AddSnippet 0 5 (lit "n1");
   GenerateSection (lit "n1");
   Settle 0 (Rejected (mkError (lit "quota exceeded")));
   GenerateSection (lit "n1");
   Settle 0 (Fulfilled sample_audio)].

(** ** Further string operations *)

(** [s.endsWith(suffix)]. *)
Definition endsWith (s suffix : jsstring) : bool :=
  Nat.leb (List.length suffix) (List.length s)
  && str_eqb (skipn (List.length s - List.length suffix) s) suffix.

(** [s.padStart(n, pad)] for a one-character [pad]. *)
Definition padStart (n : nat) (pad : N) (s : jsstring) : jsstring :=
  repeat pad (n - List.length s) ++ s.

(** ** The audio player ([AudioPlayer.tsx]) *)

(** The name offered for a download; [now] is [Date.now()]. *)
Definition downloadName (fileName : option jsstring) (now : nat) : jsstring :=
  if negb (falsy fileName)
  then (if endsWith (non_null fileName) (lit ".wav")
        then non_null fileName
        else non_null fileName ++ lit ".wav")
  else lit "gemini-speech-" ++ decimal now ++ lit ".wav".

(** ** The recording clock ([formatTime] of the application; [seconds] is
    the counter of whole seconds) *)

Definition formatTime (seconds : nat) : jsstring :=
  let mins := seconds / 60 in
  let secs := seconds mod 60 in
  decimal mins ++ lit ":" ++ padStart 2 48%N (decimal secs).

(** ** What the author wrote, apart from what generation produced *)

Definition subsection_content (sub : Subsection.t)
  : jsstring * jsstring * jsstring * VoiceName :=
  (Subsection.id sub, Subsection.name sub, Subsection.text sub, Subsection.voice sub).

Definition snippet_content (s : Snippet.t)
  : jsstring * jsstring * jsstring * VoiceName
    * list (jsstring * jsstring * jsstring * VoiceName) :=
  (Snippet.id s, Snippet.name s, Snippet.text s, Snippet.voice s,
   map subsection_content (Snippet.subsections s)).

Definition tree_content (l : list Snippet.t) := map snippet_content l.

(** An event that reaches the master text or the master voice. *)
Definition is_master_edit (e : Event) : bool :=
  match e with
  | TypeNarrationText _ | SelectNarrationVoice _ => true
  | _ => false
  end.

(** ** The inputs a document generation needs *)

(** The active mode lacks what its generation needs: the narration text
    is blank, the script has no line, the text to clone is blank or no
    reference is loaded, no file to transcribe is loaded. *)
Definition inputs_missing (a : App) : bool :=
  match mode a with
  | NARRATION => blank (narrationText a)
  | DIALOGUE => match script a with [] => true | _ :: _ => false end
  | CLONING =>
      blank (cloningText a)
      || match cloningReference a with None => true | Some _ => false end
  | TRANSCRIPTION =>
      match transcriptionFile a with None => true | Some _ => false end
  end.

(** ** Members of the export *)

(** The member names the export loops compute. *)
Definition section_file (appName_ featureName_ : jsstring) (s : Snippet.t)
  : jsstring :=
  generateFileName [Some appName_; Some featureName_; Some (Snippet.name s)]
  ++ lit ".wav".

Definition subsection_file (appName_ featureName_ : jsstring) (s : Snippet.t)
  (sub : Subsection.t) : jsstring :=
  generateFileName [Some appName_; Some featureName_; Some (Snippet.name s);
                    Some (Subsection.name sub)]
  ++ lit ".wav".

(** An audio member whose name ends in ".wav". *)
Definition wav_member (m : jsstring * ZipEntry) : Prop :=
  endsWith (fst m) (lit ".wav") = true /\ exists b, snd m = AudioEntry b.

(** The number of nodes that hold audio. *)
Definition subsections_with_audio (subs : list Subsection.t) : nat :=
  List.length (filter (fun sub => match Subsection.audio sub with
                                  | Some _ => true | None => false end) subs).

Fixpoint nodes_with_audio (l : list Snippet.t) : nat :=
  match l with
  | [] => 0
  | s :: rest =>
      (match Snippet.audio s with Some _ => 1 | None => 0 end)
      + subsections_with_audio (Snippet.subsections s)
      + nodes_with_audio rest
  end.

(** ** The dialogue editors ([App.tsx]) *)

Definition updateCharacterName (id name : jsstring) (a : App) : App :=
  setCharacters
    (map (fun c => if str_eqb (character_id c) id
                   then mkCharacter (character_id c) name (character_voice c)
                   else c)
         (characters a)) a.

Definition updateCharacterVoice (id : jsstring) (voice : VoiceName) (a : App) : App :=
  setCharacters
    (map (fun c => if str_eqb (character_id c) id
                   then mkCharacter (character_id c) (character_name c) voice
                   else c)
         (characters a)) a.

(** [arr.findIndex(f)]; nothing stands for -1. *)
Fixpoint findIndex {A} (f : A -> bool) (l : list A) : option nat :=
  match l with
  | [] => None
  | x :: r => if f x then Some 0 else option_map S (findIndex f r)
  end.

(** [addScriptLine]; nothing when the handler throws, which it does when
    it reads [characters[0].id] of an empty cast. *)
Definition addScriptLine (uuid : jsstring) (a : App) : option App :=
  let lastCharId :=
    if Nat.ltb 0 (List.length (script a))
    then option_map characterId
           (nth_error (script a) (List.length (script a) - 1))
    else option_map character_id (nth_error (characters a) 0) in
  match lastCharId with
  | None => None
  | Some lastCharId =>
      let nextCharId :=
        if Nat.ltb 1 (List.length (characters a))
        then
          let currentIndex :=
            findIndex (fun c => str_eqb (character_id c) lastCharId) (characters a) in
          let nextIndex :=
            match currentIndex with
            | Some i => (i + 1) mod List.length (characters a)
            | None => 0
            end in
          option_map character_id (nth_error (characters a) nextIndex)
        else Some lastCharId in
      match nextCharId with
      | None => None
      | Some nextCharId =>
          Some (setScript (script a ++ [mkScriptLine uuid nextCharId []]) a)
      end
  end.

Definition removeScriptLine (id : jsstring) (a : App) : App :=
  setScript (filter (fun l => negb (str_eqb (line_id l) id)) (script a)) a.

(** The two fields [updateScriptLine] is called with. *)
Inductive ScriptField := CharacterIdField | TextField.

Definition updateScriptLine (id : jsstring) (field : ScriptField) (value : jsstring)
  (a : App) : App :=
  setScript
    (map (fun l => if str_eqb (line_id l) id
                   then match field with
                        | CharacterIdField => mkScriptLine (line_id l) value (line_text l)
                        | TextField => mkScriptLine (line_id l) (characterId l) value
                        end
                   else l)
         (script a)) a.


(** The delete button of a cast member, which is rendered while the cast
    has more than one member. *)
Definition removeSpeaker (id : jsstring) (a : App) : App :=
  if Nat.ltb 1 (List.length (characters a))
  then setCharacters
         (filter (fun c => negb (str_eqb (character_id c) id)) (characters a)) a
  else a.

(** One line of the prompt of [generateDialogue]. *)
Definition prompt_line (characters : list Character) (line : ScriptLine) : jsstring :=
  match find (fun c => str_eqb (character_id c) (characterId line)) characters with
  | Some c => character_name c
  | None => lit "Unknown"
  end ++ lit ": " ++ line_text line.

(** ** What generation produced, apart from what the author wrote *)

Definition subsection_result (sub : Subsection.t)
  : Status * option GeneratedAudio * option jsstring :=
  (Subsection.status sub, Subsection.audio sub, Subsection.error sub).

Definition snippet_result (s : Snippet.t)
  : Status * option GeneratedAudio * option jsstring
    * list (Status * option GeneratedAudio * option jsstring) :=
  (Snippet.status s, Snippet.audio s, Snippet.error s,
   map subsection_result (Snippet.subsections s)).

Definition tree_results (l : list Snippet.t) := map snippet_result l.

(** The editor actions that rewrite a name, a voice or a text. *)
Definition is_field_edit (action : EditorAction) : bool :=
  match action with
  | EditName _ | EditVoice _ | EditText _ | UpdateSubsection _ _ => true
  | _ => false
  end.

(** ** Runs through the rendered buttons

    The generate button of a section or subsection is disabled, and the
    small player of the table of contents shows a spinner instead of its
    button, while the node's status is ['generating']; identifiers come
    from [crypto.randomUUID()]. *)

Definition is_generating (st : Status) : bool :=
  match st with Generating => true | _ => false end.

(** The button the event stands for is there to be clicked. *)
Definition clickable (w : World) (e : Event) : bool :=
  match e with
  | GenerateSection id =>
      existsb (fun s => str_eqb (Snippet.id s) id
                        && negb (is_generating (Snippet.status s)))
              (snippets (app w))
  | GenerateSubsection sectionId subsectionId =>
      existsb (fun s =>
                 str_eqb (Snippet.id s) sectionId
                 && existsb (fun sub =>
                               str_eqb (Subsection.id sub) subsectionId
                               && negb (is_generating (Subsection.status sub)))
                            (Snippet.subsections s))
              (snippets (app w))
  | _ => true
  end.

(** The identifier drawn for a new node is not the one of a node that a
    call in flight is waiting to write to. *)
Definition fresh_uuid (w : World) (e : Event) : bool :=
  match e with
  | AddSnippet _ _ uuid =>
      negb (existsb (fun j => if Target_eq_dec (target j) (SectionTarget uuid)
                              then true else false) (inflight w))
  | Editor index (ExtractSubsection _ _ uuid) =>
      match nth_error (snippets (app w)) index with
      | Some section =>
          negb (existsb (fun j => if Target_eq_dec (target j)
                                       (SubsectionTarget (Snippet.id section) uuid)
                                  then true else false) (inflight w))
      | None => true
      end
  | _ => true
  end.

Fixpoint ui_run (w : World) (events : list Event) : bool :=
  match events with
  | [] => true
  | e :: rest => clickable w e && fresh_uuid w e && ui_run (step w e) rest
  end.

(** A node with a call in flight shows as generating. *)
Definition section_busy (ts : list Target) (s : Snippet.t) : Prop :=
  In (SectionTarget (Snippet.id s)) ts -> Snippet.status s = Generating.

Definition subsection_busy (ts : list Target) (sectionId : jsstring)
  (sub : Subsection.t) : Prop :=
  In (SubsectionTarget sectionId (Subsection.id sub)) ts ->
  Subsection.status sub = Generating.

Definition world_busy (w : World) : Prop :=
  NoDup (map target (inflight w)) /\
  tree_all (section_busy (map target (inflight w)))
    (subsection_busy (map target (inflight w))) (snippets (app w)).

(* ================================================================== *)
(** * Part II.  Properties                                             *)
(* ================================================================== *)

(** ** Strings *)

Lemma trimEnd_nil_blank (s : jsstring) : trimEnd s = [] <-> blank s = true.
Proof.
  induction s as [|c r IH]; simpl; [tauto|].
  destruct (trimEnd r) as [|x r'] eqn:E.
  - destruct (is_ws c); simpl.
    + rewrite <- IH. tauto.
    + split; discriminate.
  - split; [discriminate|].
    rewrite andb_true_iff. intros [_ H]. apply IH in H. discriminate.
Qed.

Lemma trimStart_nil_blank (s : jsstring) : trimStart s = [] <-> blank s = true.
Proof.
  induction s as [|c r IH]; simpl; [tauto|].
  destruct (is_ws c); simpl; [exact IH|].
  split; discriminate.
Qed.

Lemma trimStart_blank (s : jsstring) : blank (trimStart s) = blank s.
Proof.
  induction s as [|c r IH]; simpl; [reflexivity|].
  destruct (is_ws c) eqn:E; simpl; [exact IH|].
  rewrite E. reflexivity.
Qed.

Lemma trim_nil_blank (s : jsstring) : trim s = [] <-> blank s = true.
Proof.
  unfold trim. rewrite trimEnd_nil_blank, trimStart_blank. tauto.
Qed.

Lemma truthy_false (s : jsstring) : truthy s = false <-> s = [].
Proof. destruct s; simpl; split; congruence. Qed.

Lemma part_kept_not_blank (s : jsstring) :
  part_kept (Some s) = negb (blank s).
Proof.
  simpl. destruct (blank s) eqn:B.
  - apply trim_nil_blank in B. rewrite B. simpl. apply andb_false_r.
  - destruct s as [|c r]; [discriminate B|]. simpl.
    destruct (truthy (trim (c :: r))) eqn:T; [reflexivity|].
    apply truthy_false, trim_nil_blank in T. congruence.
Qed.

(** ** The file-name builder *)

Lemma fields_cons (s : jsstring) : exists w ws, fields s = w :: ws.
Proof.
  induction s as [|c r [w [ws E]]]; simpl; [eauto|].
  destruct (is_ws c); [eauto|]. rewrite E. eauto.
Qed.

Lemma words_ws (c : N) (r : jsstring) :
  is_ws c = true -> words (c :: r) = words r.
Proof. intros H. unfold words. simpl. rewrite H. reflexivity. Qed.

Lemma words_trimStart (s : jsstring) : words (trimStart s) = words s.
Proof.
  induction s as [|c r IH]; [reflexivity|]. simpl trimStart.
  destruct (is_ws c) eqn:E; [|reflexivity].
  rewrite words_ws by exact E. exact IH.
Qed.

Lemma words_all_truthy (s : jsstring) : Forall (fun w => w <> []) (words s).
Proof.
  unfold words. apply Forall_forall. intros w H.
  apply filter_In in H. destruct H as [_ H]. destruct w; [discriminate|congruence].
Qed.

Lemma words_nil_blank (s : jsstring) : words s = [] <-> blank s = true.
Proof.
  induction s as [|c r IH]; [simpl; tauto|].
  simpl blank. destruct (is_ws c) eqn:E.
  - rewrite words_ws by exact E. simpl. exact IH.
  - simpl. unfold words. simpl. rewrite E.
    destruct (fields_cons r) as [w [ws F]]. rewrite F. simpl.
    split; discriminate.
Qed.

Lemma trimEnd_cons_ws (c : N) (r : jsstring) :
  is_ws c = true ->
  trimEnd (c :: r) = if blank r then [] else c :: trimEnd r.
Proof.
  intros E. simpl. rewrite E.
  destruct (trimEnd r) as [|x t] eqn:R.
  - apply trimEnd_nil_blank in R. rewrite R. reflexivity.
  - destruct (blank r) eqn:B; [|reflexivity].
    apply trimEnd_nil_blank in B. congruence.
Qed.

Lemma trimEnd_cons_other (c : N) (r : jsstring) :
  is_ws c = false -> trimEnd (c :: r) = c :: trimEnd r.
Proof. intros E. simpl. rewrite E. destruct (trimEnd r); reflexivity. Qed.

Lemma replace_ws_runs_ws (b : bool) (c : N) (t : jsstring) :
  is_ws c = true ->
  replace_ws_runs b (c :: t) =
    (if b then [] else [hyphen]) ++ replace_ws_runs true t.
Proof. intros E. simpl. rewrite E. destruct b; reflexivity. Qed.

Lemma replace_ws_runs_other (b : bool) (c : N) (t : jsstring) :
  is_ws c = false ->
  replace_ws_runs b (c :: t) = c :: replace_ws_runs false t.
Proof. intros E. simpl. rewrite E. reflexivity. Qed.

Lemma words_other (c : N) (r : jsstring) :
  is_ws c = false ->
  words (c :: r) = (c :: hd [] (fields r)) :: filter truthy (tl (fields r)).
Proof.
  intros E. unfold words. simpl fields. rewrite E.
  destruct (fields_cons r) as [w [ws F]]. rewrite F. reflexivity.
Qed.

(** The scan of [replace] and the words of the part, side by side: inside a
    run the scan yields the words joined; outside one, the first field and
    then every later word behind a hyphen. *)
Lemma replace_ws_runs_fields (s : jsstring) :
  replace_ws_runs true (trimEnd s) = join [hyphen] (words s) /\
  replace_ws_runs false (trimEnd s) =
    hd [] (fields s) ++ flat_map (fun w => [hyphen] ++ w) (filter truthy (tl (fields s))).
Proof.
  induction s as [|c r [IHt IHf]]; [split; reflexivity|].
  destruct (is_ws c) eqn:E.
  - rewrite trimEnd_cons_ws, words_ws by exact E.
    simpl fields. rewrite E. simpl hd. simpl tl. fold (words r).
    destruct (blank r) eqn:B.
    + apply words_nil_blank in B. rewrite B. split; reflexivity.
    + rewrite !replace_ws_runs_ws by exact E. rewrite IHt.
      split; [reflexivity|].
      destruct (words r) as [|v vs] eqn:W; [|reflexivity].
      apply words_nil_blank in W. congruence.
  - rewrite trimEnd_cons_other, !replace_ws_runs_other, words_other by exact E.
    rewrite IHf.
    destruct (fields_cons r) as [w [ws F]].
    simpl fields. rewrite E, F. split; reflexivity.
Qed.

Lemma words_hd_tl (s : jsstring) :
  words s = filter truthy [hd [] (fields s)] ++ filter truthy (tl (fields s)).
Proof.
  unfold words. destruct (fields_cons s) as [w [ws F]]. rewrite F.
  simpl. destruct (truthy w); reflexivity.
Qed.

Lemma fields_other (c : N) (r : jsstring) :
  is_ws c = false -> fields (c :: r) = (c :: hd [] (fields r)) :: tl (fields r).
Proof.
  intros E. simpl. rewrite E.
  destruct (fields_cons r) as [w [ws F]]. rewrite F. reflexivity.
Qed.

Lemma fields_trimEnd (t : jsstring) :
  hd [] (fields (trimEnd t)) = hd [] (fields t) /\
  filter truthy (tl (fields (trimEnd t))) = filter truthy (tl (fields t)).
Proof.
  induction t as [|c r [IHh IHt]]; [split; reflexivity|].
  destruct (is_ws c) eqn:E.
  - rewrite trimEnd_cons_ws by exact E.
    assert (F : fields (c :: r) = [] :: fields r) by (simpl; rewrite E; reflexivity).
    rewrite F. simpl hd. simpl tl. fold (words r).
    destruct (blank r) eqn:B.
    + apply words_nil_blank in B. rewrite B. split; reflexivity.
    + simpl fields. rewrite E. simpl hd. simpl tl. split; [reflexivity|].
      fold (words (trimEnd r)). rewrite !words_hd_tl. congruence.
  - rewrite trimEnd_cons_other by exact E.
    rewrite !fields_other by exact E. simpl. split; congruence.
Qed.

Lemma words_trimEnd (t : jsstring) : words (trimEnd t) = words t.
Proof.
  rewrite !words_hd_tl.
  destruct (fields_trimEnd t) as [H1 H2]. congruence.
Qed.

Lemma trimStart_head (s : jsstring) (c : N) (r : jsstring) :
  trimStart s = c :: r -> is_ws c = false.
Proof.
  induction s as [|d s IH]; [discriminate|].
  simpl. destruct (is_ws d) eqn:E; [exact IH|]. congruence.
Qed.

Lemma replace_ws_runs_trim (s : jsstring) :
  replace_ws_runs false (trim s) = spec_collapse (trim s).
Proof.
  unfold spec_collapse, trim. rewrite words_trimEnd.
  destruct (trimStart s) as [|c r] eqn:T; [reflexivity|].
  apply trimStart_head in T.
  rewrite (proj2 (replace_ws_runs_fields (c :: r))), words_other by exact T.
  simpl fields. rewrite T.
  destruct (fields_cons r) as [w [ws F]]. rewrite F. reflexivity.
Qed.

Lemma replace_outside_class_filter (s : jsstring) :
  replace_outside_class s = spec_strip s.
Proof.
  unfold replace_outside_class, spec_strip.
  induction s as [|c r IH]; [reflexivity|].
  simpl. destruct (in_class c); simpl; congruence.
Qed.

Lemma kept_parts_present (parts : list (option jsstring)) :
  map non_null (filter part_kept parts) = spec_present parts.
Proof.
  induction parts as [|[s|] r IH]; [reflexivity| |exact IH].
  cbn [filter spec_present]. rewrite part_kept_not_blank.
  destruct (blank s); simpl; congruence.
Qed.

Lemma generateFileName_spec (parts : list (option jsstring)) :
  generateFileName parts = spec_sanitize parts.
Proof.
  unfold generateFileName, spec_sanitize.
  rewrite <- kept_parts_present, map_map. f_equal.
  apply map_ext. intros p.
  rewrite replace_ws_runs_trim. apply replace_outside_class_filter.
Qed.

(** C7.  The file-name builder, in both of its copies, is a total function
    equal to the sanitizer as the specification words it (blank parts
    dropped, each part trimmed, whitespace runs collapsed to one hyphen,
    characters outside [A-Za-z0-9_-] stripped, the results joined with
    hyphens); on ["My App"; "Intro!!"] it gives "My-App-Intro" and on
    [""; "  "] the empty string. *)
Theorem sanitize_refines_spec :
  (forall parts, generateFileName parts = spec_sanitize parts) /\
  (forall parts, formatFileName parts = spec_sanitize parts) /\
  generateFileName [Some (lit "My App"); Some (lit "Intro!!")] = lit "My-App-Intro" /\
  generateFileName [Some (lit ""); Some (lit "  ")] = lit "".
Proof.
  split; [exact generateFileName_spec|].
  split; [exact generateFileName_spec|].
  split; vm_compute; reflexivity.
Qed.

(** ** Staleness and the mode buttons *)

Lemma isStale_true_iff (a : App) :
  isStale a = true <->
  generatedAudio a <> None /\ getContentHash a <> lastGeneratedHash a
  /\ mode a <> TRANSCRIPTION.
Proof.
  unfold isStale.
  destruct (generatedAudio a) as [g|];
    destruct (ContentHash_eq_dec (getContentHash a) (lastGeneratedHash a)) as [E|E];
    destruct (AppMode_eq_dec (mode a) TRANSCRIPTION) as [M|M]; simpl;
    split; try discriminate; try tauto; intros _; repeat split; congruence.
Qed.

Lemma isStale_false_iff (a : App) :
  isStale a = false <->
  generatedAudio a = None \/ getContentHash a = lastGeneratedHash a
  \/ mode a = TRANSCRIPTION.
Proof.
  unfold isStale.
  destruct (generatedAudio a) as [g|];
    destruct (ContentHash_eq_dec (getContentHash a) (lastGeneratedHash a)) as [E|E];
    destruct (AppMode_eq_dec (mode a) TRANSCRIPTION) as [M|M]; simpl;
    split; auto; try discriminate; intros [H|[H|H]]; congruence.
Qed.

(** C10.  Each of the four mode buttons sets the mode and clears the
    document artifact, the error message and the last-generated
    fingerprint; right after the switch the document is not stale. *)
Theorem switchMode_clears_staleness (m : AppMode) (a : App) :
  mode (switchMode m a) = m /\
  generatedAudio (switchMode m a) = None /\
  error (switchMode m a) = None /\
  lastGeneratedHash (switchMode m a) = HashEmpty /\
  isStale (switchMode m a) = false.
Proof. repeat split. Qed.

(** What a run of the document handler leaves, by the way its [try] block
    settled. *)
Lemma handleGenerate_outcome backend codec (a : App) :
  let a' := handleGenerate backend codec a in
  match settled (handleGenerate_try backend codec a) with
  | Fulfilled (AudioResult audio) =>
      generatedAudio a' = Some audio /\ error a' = None /\
      lastGeneratedHash a' = getContentHash a /\ mode a <> TRANSCRIPTION
  | Fulfilled (TranscriptResult text) =>
      generatedAudio a' = None /\ error a' = None /\
      lastGeneratedHash a' = lastGeneratedHash a /\ transcriptionResult a' = text
  | Rejected err =>
      generatedAudio a' = None /\ error a' = Some (message_or_default err) /\
      lastGeneratedHash a' = lastGeneratedHash a
  end.
Proof.
  unfold handleGenerate.
  destruct (settled (handleGenerate_try backend codec a)) as [[audio|text]|err] eqn:S;
    simpl; repeat split.
  intros M. unfold handleGenerate_try in S. rewrite M in S.
  destruct (transcriptionFile a) as [f|]; [|discriminate S].
  unfold bind in S.
  destruct (settled (transcribeAudio backend (file_data f) (file_mimeType f)));
    simpl in S; discriminate S.
Qed.

Lemma handleGenerate_inputs backend codec (a : App) :
  let a' := handleGenerate backend codec a in
  mode a' = mode a /\ getContentHash a' = getContentHash a.
Proof.
  unfold handleGenerate.
  destruct (settled (handleGenerate_try backend codec a)) as [[audio|text]|err];
    split; reflexivity.
Qed.

Lemma handleGenerate_success_fresh backend codec (a : App) :
  generatedAudio (handleGenerate backend codec a) <> None ->
  isStale (handleGenerate backend codec a) = false.
Proof.
  intros H. apply isStale_false_iff. right. left.
  pose proof (handleGenerate_outcome backend codec a) as O.
  pose proof (handleGenerate_inputs backend codec a) as [_ I].
  cbv zeta in O.
  destruct (settled (handleGenerate_try backend codec a)) as [[audio|text]|err].
  - destruct O as (_ & _ & L & _). congruence.
  - destruct O as (G & _). congruence.
  - destruct O as (G & _). congruence.
Qed.

Lemma edit_changes_hash (e : InputEdit) (a : App) :
  changes_tracked_field e a ->
  mode (apply_edit e a) = mode a /\
  generatedAudio (apply_edit e a) = generatedAudio a /\
  lastGeneratedHash (apply_edit e a) = lastGeneratedHash a /\
  getContentHash (apply_edit e a) <> getContentHash a.
Proof.
  unfold changes_tracked_field, getContentHash.
  destruct e; simpl; destruct (mode a); intros H; try contradiction;
    repeat split; congruence.
Qed.

(** C5.  The document is stale exactly when an artifact exists, the
    fingerprint of the current inputs differs from the one recorded at the
    last successful generation, and the mode is not transcription.  After a
    generation that produced an artifact the document is not stale; an edit
    that changes a field the active mode's fingerprint reads makes it stale;
    a further generation that produces an artifact makes it fresh again. *)
Theorem isStale_tracks_edits backend codec backend' codec' (a : App) (e : InputEdit) :
  let generated := handleGenerate backend codec a in
  let edited := apply_edit e generated in
  let regenerated := handleGenerate backend' codec' edited in
  (isStale a = true <->
     generatedAudio a <> None /\ getContentHash a <> lastGeneratedHash a
     /\ mode a <> TRANSCRIPTION) /\
  (generatedAudio generated <> None ->
     isStale generated = false /\
     (changes_tracked_field e generated ->
        isStale edited = true /\
        (generatedAudio regenerated <> None -> isStale regenerated = false))).
Proof.
  cbv zeta. split; [apply isStale_true_iff|].
  intros G. split; [apply handleGenerate_success_fresh; exact G|].
  intros C. split; [|apply handleGenerate_success_fresh].
  destruct (edit_changes_hash e _ C) as (M & A & L & H).
  apply isStale_true_iff. rewrite A, L, M. split; [exact G|].
  pose proof (handleGenerate_outcome backend codec a) as O.
  pose proof (handleGenerate_inputs backend codec a) as [Im Ih].
  cbv zeta in O.
  destruct (settled (handleGenerate_try backend codec a)) as [[audio|text]|err].
  - destruct O as (_ & _ & O & T). split; congruence.
  - destruct O as (O & _). congruence.
  - destruct O as (O & _). congruence.
Qed.

Lemma isStale_tracks_edits_witness :
  isStale (handleGenerate serving_backend serving_codec initial_app) = false /\
  isStale (apply_edit (NarrationTextEdit (lit "Chapter one."))
             (handleGenerate serving_backend serving_codec initial_app)) = true /\
  isStale (handleGenerate serving_backend serving_codec
             (apply_edit (NarrationTextEdit (lit "Chapter one."))
                (handleGenerate serving_backend serving_codec initial_app))) = false.
Proof.
  pose proof (isStale_tracks_edits serving_backend serving_codec
                serving_backend serving_codec initial_app
                (NarrationTextEdit (lit "Chapter one."))) as T.
  cbv zeta in T. destruct T as [_ T].
  assert (G : generatedAudio (handleGenerate serving_backend serving_codec initial_app)
              <> None) by (vm_compute; discriminate).
  destruct (T G) as [F E]. split; [exact F|].
  assert (C : changes_tracked_field (NarrationTextEdit (lit "Chapter one."))
                (handleGenerate serving_backend serving_codec initial_app))
    by (vm_compute; discriminate).
  destruct (E C) as [S R]. split; [exact S|].
  apply R. vm_compute. discriminate.
Defined.

(** ** Document-level generation *)

(** C4, as stated, fails: a document that holds an artifact loses it when
    the synthesis call of a later generation is refused. *)
Lemma handleGenerate_failure_drops_artifact :
  generatedAudio narrated_app = Some sample_audio /\
  settled (handleGenerate_try refusing_backend serving_codec narrated_app)
    = Rejected (mkError (lit "quota exceeded")) /\
  generatedAudio (handleGenerate refusing_backend serving_codec narrated_app) = None.
Proof. vm_compute. repeat split. Qed.

(** C4, amended.  The document handler clears the artifact and the error
    message before it validates or calls anything.  When validation, the
    synthesis call or the decoding fails, the artifact stays cleared, the
    failure's message (a fixed text when it is empty) becomes the error
    message and the last-generated fingerprint keeps its value.  The
    fingerprint changes only when an artifact was produced, and is then the
    fingerprint of the inputs the handler was called on. *)
Theorem handleGenerate_failure_and_baseline backend codec (a : App) :
  let a' := handleGenerate backend codec a in
  (generatedAudio (handleGenerate_begin a) = None /\
   error (handleGenerate_begin a) = None) /\
  (forall err,
     settled (handleGenerate_try backend codec a) = Rejected err ->
     generatedAudio a' = None /\
     error a' = Some (message_or_default err) /\
     lastGeneratedHash a' = lastGeneratedHash a) /\
  (forall audio,
     settled (handleGenerate_try backend codec a) = Fulfilled (AudioResult audio) ->
     generatedAudio a' = Some audio /\ error a' = None /\
     lastGeneratedHash a' = getContentHash a) /\
  (lastGeneratedHash a' <> lastGeneratedHash a ->
   exists audio,
     settled (handleGenerate_try backend codec a) = Fulfilled (AudioResult audio)).
Proof.
  cbv zeta. pose proof (handleGenerate_outcome backend codec a) as O.
  cbv zeta in O. split; [split; reflexivity|].
  destruct (settled (handleGenerate_try backend codec a)) as [[audio|text]|err].
  - destruct O as (G & E & L & _).
    split; [discriminate|]. split; [|eauto].
    intros audio' H. injection H as <-. auto.
  - destruct O as (G & E & L & _).
    split; [discriminate|]. split; [discriminate|]. intros H. congruence.
  - destruct O as (G & E & L).
    split; [intros err' H; injection H as <-; auto|].
    split; [discriminate|]. intros H. congruence.
Qed.

Lemma handleGenerate_failure_and_baseline_witness :
  generatedAudio (handleGenerate refusing_backend serving_codec narrated_app) = None /\
  error (handleGenerate refusing_backend serving_codec narrated_app)
    = Some (lit "quota exceeded") /\
  lastGeneratedHash (handleGenerate refusing_backend serving_codec narrated_app)
    = lastGeneratedHash narrated_app.
Proof.
  apply (proj1 (proj2 (handleGenerate_failure_and_baseline
                         refusing_backend serving_codec narrated_app))
           (mkError (lit "quota exceeded"))).
  vm_compute. reflexivity.
Defined.

(** ** Cloned-voice generation *)

Lemma try_catch_fulfilled {A} (m : Async A) handler (a : A) :
  settled m = Fulfilled a -> try_catch m handler = m.
Proof. intros H. unfold try_catch. rewrite H. reflexivity. Qed.

Lemma try_catch_rejected {A} (m : Async A) handler (e : JsError) :
  settled m = Rejected e ->
  try_catch m handler = mkAsync (calls m ++ calls (handler e)) (settled (handler e)).
Proof. intros H. unfold try_catch. rewrite H. reflexivity. Qed.

(** C8.  Cloned-voice generation sends the native request; when that path
    succeeds nothing else is sent and its audio is returned; when it fails,
    one plain synthesis request with the voice Aoede follows and its audio
    is returned if it succeeds.  An error is raised exactly when both paths
    fail, and its message contains the messages of both failures. *)
Theorem generateClonedSpeech_fallback backend (text referenceAudio mimeType : jsstring) :
  let native := native_cloning backend text referenceAudio mimeType in
  let fallback := generateSingleVoice backend text Aoede in
  let cloned := generateClonedSpeech backend text referenceAudio mimeType in
  calls fallback
    = [mkRequest tts_model [TextPart text] true (Some (PrebuiltVoice Aoede))] /\
  match settled native with
  | Fulfilled audio =>
      settled cloned = Fulfilled audio /\ calls cloned = calls native
  | Rejected nativeError =>
      calls cloned = calls native ++ calls fallback /\
      match settled fallback with
      | Fulfilled audio => settled cloned = Fulfilled audio
      | Rejected fallbackError =>
          settled cloned
            = Rejected (mkError
                (lit "Voice Generation failed. Native error: "
                 ++ message nativeError ++ lit ". Fallback error: "
                 ++ message fallbackError)) /\
          (forall e, settled cloned = Rejected e ->
             occurs (message nativeError) (message e) /\
             occurs (message fallbackError) (message e))
      end
  end /\
  ((exists e, settled cloned = Rejected e) <->
   (exists e1, settled native = Rejected e1) /\
   (exists e2, settled fallback = Rejected e2)).
Proof.
  cbv zeta. split.
  { unfold generateSingleVoice, try_catch, bind, generateContent. simpl.
    destruct (backend _) as [response|e]; simpl; [|reflexivity].
    destruct (falsy _); simpl; reflexivity. }
  unfold generateClonedSpeech.
  set (native := native_cloning backend text referenceAudio mimeType).
  set (fallback := generateSingleVoice backend text Aoede).
  destruct (settled native) as [audio|e1] eqn:N.
  - rewrite (try_catch_fulfilled _ _ _ N).
    split; [split; [exact N|reflexivity]|].
    split; [intros [e H]; congruence|intros [[e1 H] _]; congruence].
  - rewrite (try_catch_rejected _ _ _ N).
    destruct (settled fallback) as [audio|e2] eqn:F.
    + rewrite (try_catch_fulfilled _ _ _ F). cbn. rewrite F.
      split; [split; reflexivity|].
      split; [intros [e H]; congruence|intros [_ [e2 H]]; congruence].
    + rewrite (try_catch_rejected _ _ _ F). cbn. rewrite app_nil_r. split.
      * split; [reflexivity|]. split; [reflexivity|].
        intros e H. injection H as <-. cbn [message]. split.
        -- exists (lit "Voice Generation failed. Native error: "),
             (lit ". Fallback error: " ++ message e2).
           reflexivity.
        -- exists (lit "Voice Generation failed. Native error: "
                   ++ message e1 ++ lit ". Fallback error: "), [].
           rewrite app_nil_r, <- !app_assoc. reflexivity.
      * split; eauto.
Qed.

Lemma generateClonedSpeech_fallback_witness :
  settled (generateClonedSpeech refusing_backend (lit "Hi") (lit "UklGRg==")
             (lit "audio/webm"))
  = Rejected (mkError (lit "Voice Generation failed. Native error: quota exceeded. Fallback error: quota exceeded")).
Proof.
  pose proof (generateClonedSpeech_fallback refusing_backend
                (lit "Hi") (lit "UklGRg==") (lit "audio/webm")) as T.
  cbv zeta in T. destruct T as (_ & T & _).
  change (settled (native_cloning refusing_backend (lit "Hi") (lit "UklGRg==")
                     (lit "audio/webm")))
    with (@Rejected jsstring (mkError (lit "quota exceeded"))) in T.
  destruct T as (_ & T).
  change (settled (generateSingleVoice refusing_backend (lit "Hi") Aoede))
    with (@Rejected jsstring (mkError (lit "quota exceeded"))) in T.
  exact (proj1 T).
Defined.

(** The native model refused and the plain synthesis served: two requests,
    the second to the speech model with the voice Aoede, and audio back. *)
Example generateClonedSpeech_falls_back :
  settled (generateClonedSpeech tts_only_backend (lit "Hi") (lit "UklGRg==")
             (lit "audio/webm")) = Fulfilled (lit "UklGRg==") /\
  map model (calls (generateClonedSpeech tts_only_backend (lit "Hi") (lit "UklGRg==")
                      (lit "audio/webm")))
  = [lit "gemini-2.0-flash-exp"; tts_model].
Proof. split; vm_compute; reflexivity. Qed.

(** ** Extracting a subsection *)

Lemma truthy_trim_blank (s : jsstring) : negb (truthy (trim s)) = blank s.
Proof.
  destruct (blank s) eqn:B.
  - apply trim_nil_blank in B. rewrite B. reflexivity.
  - destruct (truthy (trim s)) eqn:T; [reflexivity|].
    apply truthy_false, trim_nil_blank in T. congruence.
Qed.

(** C3.  Extraction from a section creates no subsection exactly when the
    two offsets are equal or the selected substring trims to the empty
    string.  Otherwise the updated section is the section with one
    subsection appended, named "Part M" for M one more than the number of
    subsections it had, holding the selected substring as text and the
    section's voice, idle and without audio; the section's own fields, its
    text among them, are unchanged. *)
Theorem handleExtractSubsection_spec (section : Snippet.t) (start end_ : nat)
  (uuid : jsstring) :
  let selectedText := substring (Snippet.text section) start end_ in
  (handleExtractSubsection section start end_ uuid = None <->
   start = end_ \/ trim selectedText = []) /\
  (forall updated,
     handleExtractSubsection section start end_ uuid = Some updated ->
     Snippet.subsections updated
       = Snippet.subsections section
         ++ [Subsection.mk uuid
               (lit "Part " ++ decimal (List.length (Snippet.subsections section) + 1))
               selectedText (Snippet.voice section) None Idle None] /\
     List.length (Snippet.subsections updated)
       = List.length (Snippet.subsections section) + 1 /\
     Snippet.text updated = Snippet.text section /\
     Snippet.id updated = Snippet.id section /\
     Snippet.name updated = Snippet.name section /\
     Snippet.voice updated = Snippet.voice section /\
     Snippet.audio updated = Snippet.audio section /\
     Snippet.status updated = Snippet.status section /\
     Snippet.error updated = Snippet.error section).
Proof.
  cbv zeta. unfold handleExtractSubsection.
  rewrite truthy_trim_blank.
  destruct (Nat.eqb_spec start end_) as [E|E].
  - split; [tauto|discriminate].
  - destruct (blank (substring (Snippet.text section) start end_)) eqn:B.
    + split; [|discriminate]. split; [|reflexivity].
      intros _. right. apply trim_nil_blank. exact B.
    + split.
      * split; [discriminate|]. intros [H|H]; [contradiction|].
        apply trim_nil_blank in H. congruence.
      * intros updated H. injection H as <-. cbn.
        rewrite length_app. cbn. repeat split.
Qed.

Lemma handleExtractSubsection_spec_witness :
  Snippet.subsections
    (with_subsections intro_snippet
       [Subsection.mk (lit "u1") (lit "Part 1") (lit "there") Puck None Idle None])
  = [Subsection.mk (lit "u1") (lit "Part 1") (lit "there") Puck None Idle None].
Proof.
  exact (proj1 (proj2 (handleExtractSubsection_spec intro_snippet 6 11 (lit "u1"))
                  (with_subsections intro_snippet
                     [Subsection.mk (lit "u1") (lit "Part 1") (lit "there")
                        Puck None Idle None])
                  eq_refl)).
Defined.

(** ** Generation of a node with blank text *)

(** C1, on the code.  A section whose text the author has replaced by
    whitespace is generated like any other: the call is not refused, the
    snippet is marked as generating with its error cleared, a synthesis
    request carrying the blank text is sent to the backend, and the snippet
    ends in the error state with the backend's message. *)
Theorem generateSnippet_blank_text_reaches_backend :
  map (fun s => (Snippet.id s, Snippet.text s, Snippet.status s))
      (snippets blanked_app) = [(lit "n1", lit "   ", Idle)] /\
  trim (lit "   ") = [] /\
  (exists a', generateSnippet_begin (lit "n1") blanked_app
              = Some (a', (lit "   ", Kore)) /\
              map Snippet.status (snippets a') = [Generating]) /\
  inflight (run initial_world (blanking_run ++ [GenerateSection (lit "n1")]))
    = [mkJob (SectionTarget (lit "n1")) (lit "   ") Kore] /\
  snd (generateSnippet refusing_backend serving_codec (lit "n1") blanked_app)
    = [mkRequest tts_model [TextPart (lit "   ")] true (Some (PrebuiltVoice Kore))] /\
  map (fun s => (Snippet.status s, Snippet.error s))
    (snippets (fst (generateSnippet refusing_backend serving_codec (lit "n1")
                      blanked_app)))
    = [(Error, Some (lit "quota exceeded"))].
Proof.
  split; [vm_compute; reflexivity|]. split; [reflexivity|].
  split; [eexists; split; vm_compute; reflexivity|].
  repeat split; vm_compute; reflexivity.
Qed.

(** ** The export *)

Lemma str_eqb_refl (s : jsstring) : str_eqb s s = true.
Proof.
  induction s as [|c r IH]; [reflexivity|].
  simpl. rewrite N.eqb_refl. exact IH.
Qed.

Lemma str_eqb_eq (a b : jsstring) : str_eqb a b = true <-> a = b.
Proof.
  split; [|intros ->; apply str_eqb_refl].
  revert b. induction a as [|x a IH]; intros [|y b]; simpl; try discriminate;
    [reflexivity|].
  rewrite andb_true_iff, N.eqb_eq. intros [-> H]. f_equal. apply IH, H.
Qed.

Section ExportFacts.

Variables appName_ featureName_ : jsstring.

Lemma subsections_loop_markdown snippet i subs : forall j st,
  fst (subsections_loop appName_ featureName_ snippet i j subs st)
  = fst st ++ subsections_outline i j subs.
Proof.
  induction subs as [|sub rest IH]; intros j st; simpl.
  - rewrite app_nil_r. reflexivity.
  - rewrite IH. simpl. rewrite <- app_assoc. reflexivity.
Qed.

Lemma snippets_loop_markdown l : forall i st,
  fst (snippets_loop appName_ featureName_ i l st)
  = fst st ++ snippets_outline i l.
Proof.
  induction l as [|s rest IH]; intros i st; simpl.
  - rewrite app_nil_r. reflexivity.
  - rewrite IH. simpl. rewrite subsections_loop_markdown. simpl.
    rewrite <- !app_assoc. reflexivity.
Qed.



End ExportFacts.

Lemma subsections_outline_numbered i subs : forall j,
  subsections_outline i j subs
  = flat_map
      (fun q =>
         spec_subsection_line (i + 1) (fst q + 1) (Subsection.name (snd q))
           (voice_string (Subsection.voice (snd q)))
         ++ [newline])
      (combine (seq j (List.length subs)) subs).
Proof.
  induction subs as [|sub rest IH]; intros j; [reflexivity|].
  cbn [subsections_outline List.length seq combine flat_map fst snd].
  rewrite IH. unfold subsection_line, spec_subsection_line.
  rewrite <- !app_assoc. reflexivity.
Qed.

Lemma snippets_outline_numbered l : forall i,
  snippets_outline i l
  = flat_map
      (fun p =>
         spec_section_line (fst p + 1) (Snippet.name (snd p))
           (voice_string (Snippet.voice (snd p)))
         ++ [newline]
         ++ flat_map
              (fun q =>
                 spec_subsection_line (fst p + 1) (fst q + 1)
                   (Subsection.name (snd q))
                   (voice_string (Subsection.voice (snd q)))
                 ++ [newline])
              (numbered (Snippet.subsections (snd p)))
         ++ [newline])
      (combine (seq i (List.length l)) l).
Proof.
  induction l as [|s rest IH]; intros i; [reflexivity|].
  cbn [snippets_outline List.length seq combine flat_map fst snd].
  rewrite IH, subsections_outline_numbered.
  unfold section_line, spec_section_line, numbered.
  rewrite <- !app_assoc. reflexivity.
Qed.

(** The text of the manifest: the header of the source followed by the
    outline. *)
Lemma snippets_loop_manifest (appName_ featureName_ : jsstring) (l : list Snippet.t)
  (header : jsstring) (members : list (jsstring * ZipEntry)) :
  fst (snippets_loop appName_ featureName_ 0 l (header, members))
  = header ++ spec_outline l.
Proof.
  rewrite snippets_loop_markdown, snippets_outline_numbered. reflexivity.
Qed.



(** ** Calls in flight *)

Lemma find_section (id : jsstring) (l : list Snippet.t) :
  (exists s, In s l /\ Snippet.id s = id) ->
  exists s, find (fun s => str_eqb (Snippet.id s) id) l = Some s.
Proof.
  intros [s [H E]].
  destruct (find (fun s => str_eqb (Snippet.id s) id) l) as [s'|] eqn:F; [eauto|].
  apply (find_none _ _ F) in H. rewrite E, str_eqb_refl in H. discriminate.
Qed.

Lemma map_snippet_In (id : jsstring) f (l : list Snippet.t) (s : Snippet.t) :
  In s (map_snippet id f l) ->
  (exists s0, In s0 l /\ Snippet.id s0 = id /\ s = f s0) \/
  (In s l /\ str_eqb (Snippet.id s) id = false).
Proof.
  unfold map_snippet. rewrite in_map_iff. intros [s0 [E H]].
  destruct (str_eqb (Snippet.id s0) id) eqn:B.
  - left. exists s0. apply str_eqb_eq in B. auto.
  - right. subst s. auto.
Qed.

Lemma map_snippet_keeps (id : jsstring) f (l : list Snippet.t) :
  (forall s, Snippet.id (f s) = Snippet.id s) ->
  (exists s, In s l /\ Snippet.id s = id) ->
  exists s, In s (map_snippet id f l) /\ Snippet.id s = id.
Proof.
  intros K [s [H E]]. exists (f s). split; [|rewrite K; exact E].
  unfold map_snippet. apply in_map_iff. exists s.
  rewrite E, str_eqb_refl. auto.
Qed.

Lemma step_generate_section (w : World) (id : jsstring) :
  (exists s, In s (snippets (app w)) /\ Snippet.id s = id) ->
  exists text voice,
    step w (GenerateSection id)
    = mkWorld (setSnippets (map_snippet id snippet_generating (snippets (app w)))
                 (app w))
        (inflight w ++ [mkJob (SectionTarget id) text voice]).
Proof.
  intros H. apply find_section in H. destruct H as [s F].
  exists (Snippet.text s), (Snippet.voice s).
  unfold step, generateSnippet_begin. rewrite F. reflexivity.
Qed.

Lemma nth_error_middle {A} (pre : list A) (x : A) (post : list A) :
  nth_error (pre ++ x :: post) (List.length pre) = Some x.
Proof. induction pre as [|y pre IH]; [reflexivity|exact IH]. Qed.

Lemma remove_nth_middle {A} (pre : list A) (x : A) (post : list A) :
  remove_nth (List.length pre) (pre ++ x :: post) = pre ++ post.
Proof.
  induction pre as [|y pre IH]; [reflexivity|]. simpl. rewrite IH. reflexivity.
Qed.

Lemma step_settle_middle (w : World) pre (j : Job) post r :
  inflight w = pre ++ j :: post ->
  step w (Settle (List.length pre) r)
  = mkWorld (settle_job j r (app w)) (pre ++ post).
Proof.
  intros E. unfold step. rewrite E, nth_error_middle, remove_nth_middle.
  reflexivity.
Qed.

Lemma settle_section_reflects (id : jsstring) r (a : App) (s : Snippet.t) :
  In s (snippets (generateSnippet_settle id r a)) ->
  Snippet.id s = id -> reflects r s.
Proof.
  intros H E. destruct r as [audio|err]; simpl in H;
    apply map_snippet_In in H; destruct H as [[s0 [_ [_ ->]]]|[_ B]];
    try (split; reflexivity);
    rewrite E, str_eqb_refl in B; discriminate.
Qed.

Lemma settle_section_keeps (id : jsstring) r (a : App) :
  (exists s, In s (snippets a) /\ Snippet.id s = id) ->
  exists s, In s (snippets (generateSnippet_settle id r a)) /\ Snippet.id s = id.
Proof.
  intros H. destruct r as [audio|err]; simpl;
    apply map_snippet_keeps; auto.
Qed.

Lemma find_map_snippet (id : jsstring) (f : Snippet.t -> Snippet.t)
  (l : list Snippet.t) (s : Snippet.t) :
  (forall s, Snippet.id (f s) = Snippet.id s) ->
  find (fun s => str_eqb (Snippet.id s) id) l = Some s ->
  find (fun s => str_eqb (Snippet.id s) id) (map_snippet id f l) = Some (f s).
Proof.
  intros K. unfold map_snippet.
  induction l as [|x r IH]; [discriminate|].
  cbn [find map]. destruct (str_eqb (Snippet.id x) id) eqn:E.
  - intros H. injection H as <-. cbn [find]. rewrite K, E. reflexivity.
  - intros H. cbn [find]. rewrite E. apply IH, H.
Qed.

Lemma map_snippet_compose (id : jsstring) (f g : Snippet.t -> Snippet.t)
  (l : list Snippet.t) :
  (forall s, Snippet.id (g s) = Snippet.id s) ->
  map_snippet id f (map_snippet id g l) = map_snippet id (fun s => f (g s)) l.
Proof.
  intros K. unfold map_snippet. rewrite map_map. apply map_ext. intros s.
  destruct (str_eqb (Snippet.id s) id) eqn:E; [rewrite K, E|rewrite E]; reflexivity.
Qed.

Lemma step_generate_section_found (w : World) (id : jsstring) (snippet : Snippet.t) :
  find (fun s => str_eqb (Snippet.id s) id) (snippets (app w)) = Some snippet ->
  step w (GenerateSection id)
  = mkWorld (setSnippets (map_snippet id snippet_generating (snippets (app w)))
               (app w))
      (inflight w
       ++ [mkJob (SectionTarget id) (Snippet.text snippet) (Snippet.voice snippet)]).
Proof.
  intros F. unfold step, generateSnippet_begin. rewrite F. reflexivity.
Qed.

(** C9, as stated, fails: the state a section ends in is not the one the
    call that settled last produces.  Of two overlapping calls the first to
    settle fails and the last succeeds: the section ends successful with
    the failed call's message still on it, where the successful call on its
    own leaves no message.  With the success first and the failure last,
    the section ends failed with the audio of the earlier call, where the
    failing call on its own leaves no audio. *)
Lemma last_settled_call_keeps_earlier_fields :
  map (fun s => (Snippet.status s, Snippet.audio s, Snippet.error s))
    (snippets (app (run (mkWorld (app_with [intro_snippet]) [])
                      [GenerateSection (lit "n1"); GenerateSection (lit "n1");
                       Settle 0 (Rejected (mkError (lit "quota exceeded")));
                       Settle 0 (Fulfilled sample_audio)])))
  = [(Success, Some sample_audio, Some (lit "quota exceeded"))] /\
  map (fun s => (Snippet.status s, Snippet.audio s, Snippet.error s))
    (snippets (app (run (mkWorld (app_with [intro_snippet]) [])
                      [GenerateSection (lit "n1");
                       Settle 0 (Fulfilled sample_audio)])))
  = [(Success, Some sample_audio, None)] /\
  map (fun s => (Snippet.status s, Snippet.audio s, Snippet.error s))
    (snippets (app (run (mkWorld (app_with [intro_snippet]) [])
                      [GenerateSection (lit "n1"); GenerateSection (lit "n1");
                       Settle 0 (Fulfilled sample_audio);
                       Settle 0 (Rejected (mkError (lit "quota exceeded")))])))
  = [(Error, Some sample_audio, Some (lit "quota exceeded"))] /\
  map (fun s => (Snippet.status s, Snippet.audio s, Snippet.error s))
    (snippets (app (run (mkWorld (app_with [intro_snippet]) [])
                      [GenerateSection (lit "n1");
                       Settle 0 (Rejected (mkError (lit "quota exceeded")))])))
  = [(Error, None, Some (lit "quota exceeded"))].
Proof. repeat split; vm_compute; reflexivity. Qed.

(** C9, amended.  Two calls issued on one section while neither has
    settled are both in flight, each with the text and voice of the
    section; each writes its own result when it settles, whichever settles
    first.  After both have settled, in either order, the status of the
    section and the field that goes with it (the audio of a success, the
    message of a failure) are those of the call that settled last; the
    other of the two fields is what the call that settled first left (its
    message under a later success, its audio under a later failure, and
    the audio from before the calls when both failed).  Nothing else in the
    application changes. *)
Theorem last_settled_call_wins (w : World) (id : jsstring)
  (r1 r2 : Settled GeneratedAudio) :
  (exists s, In s (snippets (app w)) /\ Snippet.id s = id) ->
  let n := List.length (inflight w) in
  let issued := run w [GenerateSection id; GenerateSection id] in
  let in_order := run issued [Settle n r1; Settle n r2] in
  let out_of_order := run issued [Settle (S n) r2; Settle n r1] in
  let node (s : Snippet.t) au st er :=
    Snippet.mk (Snippet.id s) (Snippet.name s) (Snippet.text s) (Snippet.voice s)
      au st er (Snippet.subsections s) in
  let one (r : Settled GeneratedAudio) (s : Snippet.t) :=
    match r with
    | Fulfilled audio => node s (Some audio) Success None
    | Rejected err => node s (Snippet.audio s) Error (Some (message err))
    end in
  let both (first last : Settled GeneratedAudio) (s : Snippet.t) :=
    match first, last with
    | Fulfilled _, Fulfilled audio => node s (Some audio) Success None
    | Rejected err, Fulfilled audio =>
        node s (Some audio) Success (Some (message err))
    | Fulfilled audio, Rejected err =>
        node s (Some audio) Error (Some (message err))
    | Rejected _, Rejected err =>
        node s (Snippet.audio s) Error (Some (message err))
    end in
  let tree (f : Snippet.t -> Snippet.t) :=
    setSnippets
      (map (fun s => if str_eqb (Snippet.id s) id then f s else s)
           (snippets (app w)))
      (app w) in
  (exists snippet,
     find (fun s => str_eqb (Snippet.id s) id) (snippets (app w)) = Some snippet /\
     inflight issued
     = inflight w
       ++ [mkJob (SectionTarget id) (Snippet.text snippet) (Snippet.voice snippet);
           mkJob (SectionTarget id) (Snippet.text snippet) (Snippet.voice snippet)]) /\
  app issued = tree (fun s => node s (Snippet.audio s) Generating None) /\
  app (run issued [Settle n r1]) = tree (one r1) /\
  app (run issued [Settle (S n) r2]) = tree (one r2) /\
  app in_order = tree (both r1 r2) /\
  app out_of_order = tree (both r2 r1) /\
  (forall s, In s (snippets (app in_order)) -> Snippet.id s = id -> reflects r2 s) /\
  (forall s, In s (snippets (app out_of_order)) -> Snippet.id s = id ->
             reflects r1 s) /\
  inflight in_order = inflight w /\
  inflight out_of_order = inflight w.
Proof.
  intros H. cbv zeta. unfold run. cbn [fold_left].
  destruct (find_section id _ H) as [snippet F].
  rewrite (step_generate_section_found w id snippet F).
  set (w1 := mkWorld _ _) in *.
  assert (F1 : find (fun s => str_eqb (Snippet.id s) id) (snippets (app w1))
               = Some (snippet_generating snippet)).
  { subst w1. cbn [app snippets setSnippets].
    apply find_map_snippet; [reflexivity|exact F]. }
  rewrite (step_generate_section_found w1 id _ F1).
  cbn [snippet_generating Snippet.text Snippet.voice].
  set (j := mkJob (SectionTarget id) (Snippet.text snippet) (Snippet.voice snippet)).
  set (a2 := setSnippets _ (app w1)).
  cbn [inflight w1].
  set (w2 := mkWorld a2 _).
  assert (E1 : inflight w2 = inflight w ++ j :: [j]).
  { subst w2 w1. cbn. rewrite <- app_assoc. reflexivity. }
  assert (E2 : inflight w2 = (inflight w ++ [j]) ++ j :: []) by reflexivity.
  assert (L : List.length (inflight w ++ [j]) = S (List.length (inflight w))).
  { rewrite length_app. cbn. lia. }
  rewrite (step_settle_middle w2 _ j _ r1 E1).
  rewrite <- L. rewrite (step_settle_middle w2 _ j _ r2 E2).
  rewrite app_nil_r.
  rewrite (step_settle_middle (mkWorld _ (inflight w ++ [j])) (inflight w) j [] r2 eq_refl).
  rewrite (step_settle_middle (mkWorld _ (inflight w ++ [j])) (inflight w) j [] r1 eq_refl).
  subst w2. cbn [app inflight settle_job target j]. rewrite !app_nil_r.
  assert (T : forall f g : Snippet.t -> Snippet.t,
            (forall s, f s = g s) ->
            setSnippets (map_snippet id f (snippets (app w))) (app w)
            = setSnippets
                (map (fun s => if str_eqb (Snippet.id s) id then g s else s)
                     (snippets (app w)))
                (app w)).
  { intros f g X. f_equal. unfold map_snippet. apply map_ext. intros s.
    rewrite X. reflexivity. }
  assert (A2 : a2 = setSnippets
                      (map_snippet id (fun s => snippet_generating (snippet_generating s))
                         (snippets (app w)))
                      (app w)).
  { subst a2 w1. cbn [app snippets setSnippets].
    rewrite map_snippet_compose by reflexivity. reflexivity. }
  assert (One : forall r,
            generateSnippet_settle id r a2
            = setSnippets
                (map_snippet id
                   (fun s => match r with
                             | Fulfilled audio =>
                                 snippet_success audio
                                   (snippet_generating (snippet_generating s))
                             | Rejected err =>
                                 snippet_error err
                                   (snippet_generating (snippet_generating s))
                             end)
                   (snippets (app w)))
                (app w)).
  { intros r. rewrite A2. destruct r; cbn [generateSnippet_settle snippets setSnippets];
      rewrite map_snippet_compose by reflexivity; reflexivity. }
  assert (Two : forall r r',
            generateSnippet_settle id r' (generateSnippet_settle id r a2)
            = setSnippets
                (map_snippet id
                   (fun s =>
                      let s1 := match r with
                                | Fulfilled audio =>
                                    snippet_success audio
                                      (snippet_generating (snippet_generating s))
                                | Rejected err =>
                                    snippet_error err
                                      (snippet_generating (snippet_generating s))
                                end in
                      match r' with
                      | Fulfilled audio => snippet_success audio s1
                      | Rejected err => snippet_error err s1
                      end)
                   (snippets (app w)))
                (app w)).
  { intros r r'. rewrite One.
    destruct r'; cbn [generateSnippet_settle snippets setSnippets];
      (rewrite map_snippet_compose by (intros s; destruct r; reflexivity));
      reflexivity. }
  split; [exists snippet; split; [exact F|]; rewrite <- app_assoc; reflexivity|].
  split; [rewrite A2; apply T; reflexivity|].
  split; [rewrite One; apply T; intros s; destruct r1; reflexivity|].
  split; [rewrite One; apply T; intros s; destruct r2; reflexivity|].
  split; [rewrite Two; apply T; intros s; destruct r1, r2; reflexivity|].
  split; [rewrite Two; apply T; intros s; destruct r1, r2; reflexivity|].
  split; [intros s; apply settle_section_reflects|].
  split; [intros s; apply settle_section_reflects|].
  split; reflexivity.
Qed.

(** ** Edits keep what holds of every node *)

Lemma Forall_filter_keeps {A} (P : A -> Prop) (f : A -> bool) (l : list A) :
  Forall P l -> Forall P (filter f l).
Proof.
  rewrite !Forall_forall. intros H x I. apply filter_In in I. apply H, I.
Qed.

Lemma handleExtractSubsection_some (section : Snippet.t) start end_ uuid updated :
  handleExtractSubsection section start end_ uuid = Some updated ->
  exists name text,
    updated = with_subsections section
                (Snippet.subsections section
                 ++ [Subsection.mk uuid name text (Snippet.voice section)
                       None Idle None]).
Proof.
  unfold handleExtractSubsection.
  destruct (Nat.eqb start end_); [discriminate|].
  destruct (negb _); [discriminate|].
  intros H. injection H as <-. eauto.
Qed.

Section EditsPreserve.

Variable N : Snippet.t -> Prop.
Variable M : jsstring -> Subsection.t -> Prop.

(** [N] and [M] read the identifier, the status, the artifact and the
    error message of a node, and hold of a node just created. *)
Hypothesis N_fields : forall s s',
  Snippet.id s' = Snippet.id s -> Snippet.status s' = Snippet.status s ->
  Snippet.audio s' = Snippet.audio s -> Snippet.error s' = Snippet.error s ->
  N s -> N s'.
Hypothesis M_fields : forall i sub sub',
  Subsection.id sub' = Subsection.id sub ->
  Subsection.status sub' = Subsection.status sub ->
  Subsection.audio sub' = Subsection.audio sub ->
  Subsection.error sub' = Subsection.error sub ->
  M i sub -> M i sub'.
Hypothesis N_new : forall s,
  Snippet.status s = Idle -> Snippet.audio s = None -> Snippet.error s = None ->
  N s.
Hypothesis M_new : forall i sub,
  Subsection.status sub = Idle -> Subsection.audio sub = None ->
  Subsection.error sub = None -> M i sub.

Lemma tree_all_updateSnippet (updated : Snippet.t) (a : App) :
  N updated /\ Forall (M (Snippet.id updated)) (Snippet.subsections updated) ->
  tree_all N M (snippets a) ->
  tree_all N M (snippets (updateSnippet updated a)).
Proof.
  intros U H. unfold tree_all in *. cbn. rewrite Forall_forall in H |- *.
  intros s I. apply in_map_iff in I. destruct I as [s0 [E I]].
  destruct (str_eqb _ _); subst s; auto.
Qed.

Lemma tree_all_editor (section : Snippet.t) (action : EditorAction) (a : App) :
  In section (snippets a) ->
  tree_all N M (snippets a) ->
  tree_all N M (snippets (editor_step section action a)).
Proof.
  intros I H.
  assert (S : N section /\ Forall (M (Snippet.id section)) (Snippet.subsections section)).
  { unfold tree_all in H. rewrite Forall_forall in H. apply H, I. }
  destruct S as [SN SM].
  destruct action as [n|v|t|start end_ uuid|subId updates|subId|]; cbn [editor_step].
  - apply tree_all_updateSnippet; [|exact H]. split; [|exact SM].
    apply (N_fields section); auto.
  - apply tree_all_updateSnippet; [|exact H]. split; [|exact SM].
    apply (N_fields section); auto.
  - apply tree_all_updateSnippet; [|exact H]. split; [|exact SM].
    apply (N_fields section); auto.
  - destruct (handleExtractSubsection section start end_ uuid) as [updated|] eqn:X;
      [|exact H].
    apply handleExtractSubsection_some in X. destruct X as (name & text & ->).
    apply tree_all_updateSnippet; [|exact H]. split.
    + apply (N_fields section); auto.
    + cbn. apply Forall_app. split; [exact SM|].
      constructor; [|constructor]. apply M_new; reflexivity.
  - apply tree_all_updateSnippet; [|exact H]. split.
    + apply (N_fields section); auto.
    + cbn. rewrite Forall_forall in *. intros sub J.
      apply in_map_iff in J. destruct J as [sub0 [E J]].
      destruct (str_eqb _ _); subst sub; [|auto].
      apply (M_fields _ sub0); [destruct updates; reflexivity ..|auto].
  - apply tree_all_updateSnippet; [|exact H]. split.
    + apply (N_fields section); auto.
    + cbn. apply Forall_filter_keeps, SM.
  - unfold tree_all. cbn. apply Forall_filter_keeps, H.
Qed.

Lemma edits_preserve (w : World) (e : Event) :
  is_edit e = true ->
  tree_all N M (snippets (app w)) ->
  tree_all N M (snippets (app (step w e))) /\ inflight (step w e) = inflight w.
Proof.
  intros E H.
  destruct e as [t|v|start end_ uuid| |index action|id|sid subid|k r];
    try discriminate E; cbn [step].
  - split; [exact H|reflexivity].
  - split; [exact H|reflexivity].
  - split; [|reflexivity]. cbn [app]. unfold addSnippetFromSelection.
    destruct (Nat.eqb start end_); [exact H|].
    destruct (negb _); [exact H|].
    unfold tree_all in *. cbn. apply Forall_app. split; [exact H|].
    constructor; [|constructor]. split; [|constructor].
    apply N_new; reflexivity.
  - split; [|reflexivity]. constructor.
  - destruct (nth_error (snippets (app w)) index) as [section|] eqn:X;
      [|split; [exact H|reflexivity]].
    split; [|reflexivity]. cbn [app].
    apply tree_all_editor; [|exact H]. apply (nth_error_In _ _ X).
Qed.

End EditsPreserve.

(** ** Generation keeps the tree consistent *)

Lemma Forall_map_impl {A B} (P : A -> Prop) (Q : B -> Prop) (g : A -> B) (l : list A) :
  (forall x, In x l -> P x -> Q (g x)) -> Forall P l -> Forall Q (map g l).
Proof.
  intros G H. rewrite Forall_forall in *. intros y I.
  apply in_map_iff in I. destruct I as [x [<- I]]. auto.
Qed.

Lemma tree_all_map N M N' M' (f : Snippet.t -> Snippet.t) (l : list Snippet.t) :
  (forall s, In s l -> N s -> Forall (M (Snippet.id s)) (Snippet.subsections s) ->
     N' (f s) /\ Forall (M' (Snippet.id (f s))) (Snippet.subsections (f s))) ->
  tree_all N M l -> tree_all N' M' (map f l).
Proof.
  intros G H. unfold tree_all in *.
  apply (Forall_map_impl _ _ f l (fun s I P => G s I (proj1 P) (proj2 P)) H).
Qed.







(** ** Runs without overlapping calls *)

Lemma map_remove_nth {A B} (f : A -> B) (l : list A) : forall k,
  map f (remove_nth k l) = remove_nth k (map f l).
Proof.
  induction l as [|x r IH]; intros [|k]; simpl; try reflexivity.
  rewrite IH. reflexivity.
Qed.

Lemma In_remove_nth {A} (x : A) (l : list A) : forall k,
  In x (remove_nth k l) -> In x l.
Proof.
  induction l as [|y r IH]; intros [|k]; simpl; auto.
  intros [H|H]; [auto|]. right. apply (IH k H).
Qed.

Lemma NoDup_remove_nth {A} (l : list A) : forall k x,
  NoDup l -> nth_error l k = Some x ->
  NoDup (remove_nth k l) /\ ~ In x (remove_nth k l).
Proof.
  induction l as [|y r IH]; intros [|k] x D E; simpl in E; try discriminate.
  - injection E as ->. inversion D; subst. auto.
  - inversion D as [|? ? Y D']; subst. destruct (IH k x D' E) as [P Q].
    simpl. split.
    + constructor; [|exact P]. intros I. apply Y, (In_remove_nth _ _ _ I).
    + intros [->|I]; [|auto]. apply Y, (nth_error_In _ _ E).
Qed.

Lemma NoDup_snoc {A} (l : list A) (x : A) :
  NoDup l -> ~ In x l -> NoDup (l ++ [x]).
Proof.
  induction l as [|y r IH]; intros D I; simpl.
  - constructor; [intros []|constructor].
  - inversion D; subst. constructor.
    + rewrite in_app_iff. intros [H|[H|[]]]; [auto|]. subst. apply I. left. reflexivity.
    + apply IH; [assumption|]. intros H. apply I. right. exact H.
Qed.

Lemma not_overlapping (t : Target) (jobs : list Job) :
  existsb (fun j => if Target_eq_dec (target j) t then true else false) jobs = false ->
  ~ In t (map target jobs).
Proof.
  intros E I. apply in_map_iff in I. destruct I as [j [T I]].
  assert (X : existsb (fun j => if Target_eq_dec (target j) t then true else false)
                jobs = true).
  { apply existsb_exists. exists j. split; [exact I|].
    destruct (Target_eq_dec (target j) t); [reflexivity|contradiction]. }
  congruence.
Qed.

Lemma section_quiet_weaken ts ts' (s : Snippet.t) :
  (In (SectionTarget (Snippet.id s)) ts' -> In (SectionTarget (Snippet.id s)) ts) ->
  section_quiet ts s -> section_quiet ts' s.
Proof. intros W [A B]. split; auto. Qed.

Lemma subsection_quiet_weaken ts ts' (i : jsstring) (sub : Subsection.t) :
  (In (SubsectionTarget i (Subsection.id sub)) ts' ->
   In (SubsectionTarget i (Subsection.id sub)) ts) ->
  subsection_quiet ts i sub -> subsection_quiet ts' i sub.
Proof. intros W [A B]. split; auto. Qed.

Lemma subsections_quiet_weaken ts ts' (i : jsstring) (subs : list Subsection.t) :
  (forall b, In (SubsectionTarget i b) ts' -> In (SubsectionTarget i b) ts) ->
  Forall (subsection_quiet ts i) subs -> Forall (subsection_quiet ts' i) subs.
Proof.
  intros W. apply Forall_impl. intros sub. apply subsection_quiet_weaken, W.
Qed.

Lemma In_snoc_other {A} (x y : A) (l : list A) :
  In x (l ++ [y]) -> x <> y -> In x l.
Proof. rewrite in_app_iff. intros [H|[H|[]]] N; [exact H|congruence]. Qed.

Lemma str_eqb_neq (a b : jsstring) : str_eqb a b = false -> a <> b.
Proof. intros E ->. rewrite str_eqb_refl in E. discriminate. Qed.

Lemma quiet_issue_section (id : jsstring) ts (l : list Snippet.t) :
  tree_all (section_quiet ts) (subsection_quiet ts) l ->
  tree_all (section_quiet (ts ++ [SectionTarget id]))
    (subsection_quiet (ts ++ [SectionTarget id]))
    (map_snippet id snippet_generating l).
Proof.
  apply tree_all_map. intros s _ A B.
  assert (B' : Forall (subsection_quiet (ts ++ [SectionTarget id]) (Snippet.id s))
                 (Snippet.subsections s)).
  { revert B. apply subsections_quiet_weaken. intros b I.
    apply (In_snoc_other _ _ _ I). discriminate. }
  destruct (str_eqb (Snippet.id s) id) eqn:E.
  - split; [|exact B']. split; [discriminate|reflexivity].
  - split; [|exact B']. revert A. apply section_quiet_weaken. intros I.
    apply (In_snoc_other _ _ _ I). apply str_eqb_neq in E. congruence.
Qed.

Lemma quiet_issue_subsection (sid subid : jsstring) ts (l : list Snippet.t) :
  tree_all (section_quiet ts) (subsection_quiet ts) l ->
  tree_all (section_quiet (ts ++ [SubsectionTarget sid subid]))
    (subsection_quiet (ts ++ [SubsectionTarget sid subid]))
    (map_subsection sid subid subsection_generating l).
Proof.
  apply tree_all_map. intros s _ A B.
  assert (A' : section_quiet (ts ++ [SubsectionTarget sid subid]) s).
  { revert A. apply section_quiet_weaken. intros I.
    apply (In_snoc_other _ _ _ I). discriminate. }
  destruct (str_eqb (Snippet.id s) sid) eqn:E.
  - apply str_eqb_eq in E. split; [exact A'|]. cbn.
    apply (Forall_map_impl (subsection_quiet ts (Snippet.id s))); [|exact B].
    intros sub _ Q. destruct (str_eqb (Subsection.id sub) subid) eqn:F.
    + split; [discriminate|reflexivity].
    + revert Q. apply subsection_quiet_weaken. intros I.
      apply (In_snoc_other _ _ _ I). apply str_eqb_neq in F. congruence.
  - split; [exact A'|]. revert B. apply subsections_quiet_weaken. intros b I.
    apply (In_snoc_other _ _ _ I). apply str_eqb_neq in E. congruence.
Qed.

Lemma quiet_settle_section (id : jsstring) r ts ts' (a : App) :
  (forall t, In t ts' -> In t ts) ->
  In (SectionTarget id) ts -> ~ In (SectionTarget id) ts' ->
  tree_all (section_quiet ts) (subsection_quiet ts) (snippets a) ->
  tree_all (section_quiet ts') (subsection_quiet ts')
    (snippets (generateSnippet_settle id r a)).
Proof.
  intros W I O H.
  assert (G : forall f,
    (forall s, Snippet.id s = id -> section_quiet ts s -> section_quiet ts' (f s)) ->
    (forall s, Snippet.id (f s) = Snippet.id s /\
               Snippet.subsections (f s) = Snippet.subsections s) ->
    tree_all (section_quiet ts') (subsection_quiet ts') (map_snippet id f (snippets a))).
  { intros f F K. revert H. apply tree_all_map. intros s _ A B.
    assert (B' : Forall (subsection_quiet ts' (Snippet.id s)) (Snippet.subsections s)).
    { revert B. apply subsections_quiet_weaken. auto. }
    destruct (str_eqb (Snippet.id s) id) eqn:E.
    - apply str_eqb_eq in E. destruct (K s) as [-> ->]. auto.
    - split; [|exact B']. revert A. apply section_quiet_weaken. auto. }
  destruct r as [audio|err]; cbn; apply G; try (intros s; split; reflexivity).
  - intros s E [A B]. rewrite <- E in I.
    split; cbn; intros _; apply B, I.
  - intros s E _. split; cbn; [discriminate|].
    rewrite E. intros X. contradiction.
Qed.

Lemma quiet_settle_subsection (sid subid : jsstring) r ts ts' (a : App) :
  (forall t, In t ts' -> In t ts) ->
  In (SubsectionTarget sid subid) ts -> ~ In (SubsectionTarget sid subid) ts' ->
  tree_all (section_quiet ts) (subsection_quiet ts) (snippets a) ->
  tree_all (section_quiet ts') (subsection_quiet ts')
    (snippets (generateSubsection_settle sid subid r a)).
Proof.
  intros W I O H.
  assert (G : forall g,
    (forall sub, Subsection.id sub = subid ->
       subsection_quiet ts sid sub -> subsection_quiet ts' sid (g sub)) ->
    tree_all (section_quiet ts') (subsection_quiet ts')
      (map_subsection sid subid g (snippets a))).
  { intros g F. revert H. apply tree_all_map. intros s _ A B.
    assert (A' : section_quiet ts' s).
    { revert A. apply section_quiet_weaken. auto. }
    destruct (str_eqb (Snippet.id s) sid) eqn:E.
    - apply str_eqb_eq in E. split; [exact A'|]. cbn. rewrite E in *.
      apply (Forall_map_impl (subsection_quiet ts sid)); [|exact B].
      intros sub _ Q. destruct (str_eqb (Subsection.id sub) subid) eqn:X.
      + apply str_eqb_eq in X. auto.
      + revert Q. apply subsection_quiet_weaken. auto.
    - split; [exact A'|]. revert B. apply subsections_quiet_weaken. auto. }
  destruct r as [audio|err]; cbn; apply G.
  - intros sub E [A B]. rewrite <- E in I.
    split; cbn; intros _; apply B, I.
  - intros sub E _. split; cbn; [discriminate|].
    rewrite E. intros X. contradiction.
Qed.

Lemma world_quiet_step (w : World) (e : Event) :
  overlaps w e = false -> world_quiet w -> world_quiet (step w e).
Proof.
  intros O [D H]. destruct (is_edit e) eqn:E.
  - destruct (edits_preserve (section_quiet (map target (inflight w)))
                (subsection_quiet (map target (inflight w)))) with (w := w) (e := e)
      as [T I]; auto.
    + intros s s' Ei Es _ Ee [A B]. split; rewrite ?Ei, ?Es, ?Ee; assumption.
    + intros i s s' Ei Es _ Ee [A B]. split; rewrite ?Ei, ?Es, ?Ee; assumption.
    + intros s _ _ R. split; auto.
    + intros i s _ _ R. split; auto.
    + unfold world_quiet. rewrite I. auto.
  - destruct e as [t|v|start end_ uuid| |index action|id|sid subid|k r];
      try discriminate E; cbn [step]; cbn [overlaps] in O.
    + unfold generateSnippet_begin.
      destruct (find _ _); [|split; assumption].
      apply not_overlapping in O. unfold world_quiet. cbn.
      rewrite map_app. cbn. split; [apply NoDup_snoc; assumption|].
      apply quiet_issue_section, H.
    + unfold generateSubsection_begin.
      destruct (find _ _) as [s|]; [|split; assumption].
      destruct (find _ _); [|split; assumption].
      apply not_overlapping in O. unfold world_quiet. cbn.
      rewrite map_app. cbn. split; [apply NoDup_snoc; assumption|].
      apply quiet_issue_subsection, H.
    + destruct (nth_error (inflight w) k) as [j|] eqn:J; [|split; assumption].
      assert (J' : nth_error (map target (inflight w)) k = Some (target j)).
      { rewrite nth_error_map, J. reflexivity. }
      destruct (NoDup_remove_nth _ _ _ D J') as [D' X].
      unfold world_quiet. cbn [app inflight]. rewrite map_remove_nth.
      split; [exact D'|]. unfold settle_job.
      pose proof (nth_error_In _ _ J') as I.
      destruct (target j) as [id|sid subid].
      * apply quiet_settle_section with (ts := map target (inflight w)); auto.
        intros t. apply In_remove_nth.
      * apply quiet_settle_subsection with (ts := map target (inflight w)); auto.
        intros t. apply In_remove_nth.
Qed.

Lemma world_quiet_run (events : list Event) : forall w,
  no_overlap w events = true -> world_quiet w -> world_quiet (run w events).
Proof.
  induction events as [|e rest IH]; intros w O H; [exact H|].
  simpl in O. apply andb_true_iff in O. destruct O as [O R].
  apply negb_true_iff in O. apply (IH _ R), world_quiet_step; assumption.
Qed.

Lemma world_quiet_clean (w : World) :
  world_quiet w -> tree_clean (snippets (app w)).
Proof.
  intros [_ H]. unfold tree_clean, tree_all in *.
  revert H. apply Forall_impl. intros s [[A _] B]. split; [exact A|].
  revert B. apply Forall_impl. intros sub [C _]. exact C.
Qed.

(** ** Reachable trees *)




Lemma last_settled_call_wins_witness :
  (exists s, In s (snippets (app_with [intro_snippet])) /\ Snippet.id s = lit "n1") /\
  snippets (app (run (mkWorld (app_with [intro_snippet]) [])
                   [GenerateSection (lit "n1"); GenerateSection (lit "n1");
                    Settle 1 (Rejected (mkError (lit "quota exceeded")));
                    Settle 0 (Fulfilled sample_audio)]))
  = [Snippet.mk (lit "n1") (lit "Intro") (lit "Hello there, world") Puck
       (Some sample_audio) Success (Some (lit "quota exceeded")) []].
Proof.
  assert (H : exists s, In s (snippets (app_with [intro_snippet]))
                        /\ Snippet.id s = lit "n1").
  { exists intro_snippet. split; [left; reflexivity|reflexivity]. }
  split; [exact H|].
  pose proof (last_settled_call_wins (mkWorld (app_with [intro_snippet]) [])
                (lit "n1") (Fulfilled sample_audio)
                (Rejected (mkError (lit "quota exceeded"))) H) as T.
  cbv zeta in T.
  destruct T as (_ & _ & _ & _ & _ & R & _).
  change (run (mkWorld (app_with [intro_snippet]) [])
            [GenerateSection (lit "n1"); GenerateSection (lit "n1");
             Settle 1 (Rejected (mkError (lit "quota exceeded")));
             Settle 0 (Fulfilled sample_audio)])
    with (run (run (mkWorld (app_with [intro_snippet]) [])
                 [GenerateSection (lit "n1"); GenerateSection (lit "n1")])
            [Settle 1 (Rejected (mkError (lit "quota exceeded")));
             Settle 0 (Fulfilled sample_audio)]).
  cbn [inflight List.length] in R. rewrite R. vm_compute. reflexivity.
Defined.

(* ================================================================== *)
(** * Part III.  Further properties                                    *)
(* ================================================================== *)

(** ** File names are safe and stable *)

Lemma in_class_range (c : N) : in_class c = true -> (45 <= c <= 122)%N.
Proof.
  unfold in_class.
  rewrite !orb_true_iff, !andb_true_iff, !N.leb_le, !N.eqb_eq. lia.
Qed.

Lemma range_not_ws (c : N) : (33 <= c <= 159)%N -> is_ws c = false.
Proof.
  intros H. unfold is_ws.
  replace (c <=? 13)%N with false by (symmetry; apply N.leb_gt; lia).
  replace (c =? 32)%N with false by (symmetry; apply N.eqb_neq; lia).
  replace (c =? 160)%N with false by (symmetry; apply N.eqb_neq; lia).
  replace (c =? 5760)%N with false by (symmetry; apply N.eqb_neq; lia).
  replace (8192 <=? c)%N with false by (symmetry; apply N.leb_gt; lia).
  replace (c =? 8232)%N with false by (symmetry; apply N.eqb_neq; lia).
  replace (c =? 8233)%N with false by (symmetry; apply N.eqb_neq; lia).
  replace (c =? 8239)%N with false by (symmetry; apply N.eqb_neq; lia).
  replace (c =? 8287)%N with false by (symmetry; apply N.eqb_neq; lia).
  replace (c =? 12288)%N with false by (symmetry; apply N.eqb_neq; lia).
  replace (c =? 65279)%N with false by (symmetry; apply N.eqb_neq; lia).
  rewrite andb_false_r. reflexivity.
Qed.

Lemma in_class_not_ws (c : N) : in_class c = true -> is_ws c = false.
Proof. intros H. apply in_class_range in H. apply range_not_ws. lia. Qed.

Lemma Forall_join (P : N -> Prop) (sep : jsstring) (l : list jsstring) :
  Forall P sep -> Forall (Forall P) l -> Forall P (join sep l).
Proof.
  intros S H. destruct H as [|x xs X R]; [constructor|].
  simpl. apply Forall_app. split; [exact X|].
  induction R as [|y ys Y R IH]; [constructor|].
  simpl. rewrite !Forall_app. auto.
Qed.

Lemma replace_outside_class_in_class (s : jsstring) :
  Forall (fun c => in_class c = true) (replace_outside_class s).
Proof.
  rewrite replace_outside_class_filter. unfold spec_strip.
  apply Forall_forall. intros c H. apply filter_In in H. tauto.
Qed.

Lemma generateFileName_in_class (parts : list (option jsstring)) :
  Forall (fun c => in_class c = true) (generateFileName parts).
Proof.
  unfold generateFileName. apply Forall_join.
  - constructor; [reflexivity|constructor].
  - apply Forall_forall. intros x H. apply in_map_iff in H.
    destruct H as [p [<- _]]. apply replace_outside_class_in_class.
Qed.

Lemma trimStart_no_ws (s : jsstring) :
  Forall (fun c => is_ws c = false) s -> trimStart s = s.
Proof. intros [|c r H _]; [reflexivity|]. simpl. rewrite H. reflexivity. Qed.

Lemma trimEnd_no_ws (s : jsstring) :
  Forall (fun c => is_ws c = false) s -> trimEnd s = s.
Proof.
  induction 1 as [|c r H _ IH]; [reflexivity|].
  rewrite trimEnd_cons_other by exact H. rewrite IH. reflexivity.
Qed.

Lemma replace_ws_runs_no_ws (s : jsstring) : forall b,
  Forall (fun c => is_ws c = false) s -> replace_ws_runs b s = s.
Proof.
  induction s as [|c r IH]; intros b H; [reflexivity|].
  inversion H as [|? ? C R]; subst.
  rewrite replace_ws_runs_other by exact C. rewrite IH by exact R. reflexivity.
Qed.

Lemma replace_outside_class_fixed (s : jsstring) :
  Forall (fun c => in_class c = true) s -> replace_outside_class s = s.
Proof.
  induction 1 as [|c r H _ IH]; [reflexivity|].
  unfold replace_outside_class in *. simpl. rewrite H, IH. reflexivity.
Qed.

Lemma sanitized_part_fixed (s : jsstring) :
  Forall (fun c => in_class c = true) s ->
  generateFileName [Some s] = s.
Proof.
  intros H.
  assert (W : Forall (fun c => is_ws c = false) s).
  { revert H. apply Forall_impl. exact in_class_not_ws. }
  unfold generateFileName. cbn [filter part_kept].
  unfold trim. rewrite trimStart_no_ws, trimEnd_no_ws by exact W.
  destruct s as [|c r]; [reflexivity|].
  cbn [truthy andb map non_null].
  unfold trim. rewrite trimStart_no_ws, trimEnd_no_ws by exact W.
  rewrite replace_ws_runs_no_ws, replace_outside_class_fixed by assumption.
  cbn [join flat_map]. apply app_nil_r.
Qed.

(** X1.  Whatever the parts, a file name built by [generateFileName]
    consists of letters, digits, hyphens and underscores only (no
    whitespace, no path separator, no dot), and building a name from a
    built name gives it back. *)
Theorem generateFileName_safe_and_stable (parts : list (option jsstring)) :
  Forall (fun c => in_class c = true) (generateFileName parts) /\
  Forall (fun c => is_ws c = false) (generateFileName parts) /\
  generateFileName [Some (generateFileName parts)] = generateFileName parts /\
  formatFileName [Some (formatFileName parts)] = formatFileName parts.
Proof.
  pose proof (generateFileName_in_class parts) as H.
  split; [exact H|]. split.
  - revert H. apply Forall_impl. exact in_class_not_ws.
  - split; apply (sanitized_part_fixed _ H).
Qed.

(** ** Download names *)

Lemma endsWith_app (x suffix : jsstring) : endsWith (x ++ suffix) suffix = true.
Proof.
  unfold endsWith. rewrite length_app.
  replace (List.length x + List.length suffix - List.length suffix)
    with (List.length x + 0) by lia.
  rewrite skipn_app, Nat.add_0_r, skipn_all, Nat.sub_diag. cbn [app skipn].
  rewrite str_eqb_refl, andb_true_r. apply Nat.leb_le. lia.
Qed.

(** X2.  The name the audio player offers for a download is never empty
    and always ends in ".wav"; passing an offered name in again gives the
    same name; and when the file-name builder yields the empty name the
    player offers a time-stamped name instead. *)
Theorem downloadName_wav (fileName : option jsstring) (now now' : nat)
  (parts : list (option jsstring)) :
  endsWith (downloadName fileName now) (lit ".wav") = true /\
  truthy (downloadName fileName now) = true /\
  downloadName (Some (downloadName fileName now)) now' = downloadName fileName now /\
  (generateFileName parts = [] ->
   downloadName (Some (generateFileName parts)) now
   = lit "gemini-speech-" ++ decimal now ++ lit ".wav").
Proof.
  assert (E : endsWith (downloadName fileName now) (lit ".wav") = true).
  { unfold downloadName. destruct (negb (falsy fileName)).
    - destruct (endsWith (non_null fileName) (lit ".wav")) eqn:W; [exact W|].
      apply endsWith_app.
    - rewrite app_assoc. apply endsWith_app. }
  assert (T : truthy (downloadName fileName now) = true).
  { destruct (downloadName fileName now) as [|c r] eqn:D; [|reflexivity].
    discriminate E. }
  split; [exact E|]. split; [exact T|]. split; [|intros ->; reflexivity].
  unfold downloadName at 1. cbn [falsy non_null]. rewrite T, E. reflexivity.
Qed.

Lemma downloadName_wav_witness :
  downloadName (Some (generateFileName [Some (lit "  "); None])) 17
  = lit "gemini-speech-17.wav".
Proof.
  exact (proj2 (proj2 (proj2 (downloadName_wav None 17 0
                                [Some (lit "  "); None]))) eq_refl).
Defined.

(** ** The recording clock *)

Lemma lit_inj (a b : string) : lit a = lit b -> a = b.
Proof.
  unfold lit. intros H.
  rewrite <- (string_of_list_ascii_of_string a), <- (string_of_list_ascii_of_string b).
  f_equal. revert H. generalize (list_ascii_of_string a) (list_ascii_of_string b).
  induction l as [|x l IH]; intros [|y l']; simpl; try discriminate; [reflexivity|].
  intros H. injection H as X R. f_equal; [|apply IH, R].
  rewrite <- (ascii_N_embedding x), <- (ascii_N_embedding y), X. reflexivity.
Qed.

Lemma decimal_inj (a b : nat) : decimal a = decimal b -> a = b.
Proof.
  unfold decimal. intros H. apply lit_inj in H.
  assert (U : Nat.to_uint a = Nat.to_uint b).
  { pose proof (NilEmpty.usu (Nat.to_uint a)) as A.
    pose proof (NilEmpty.usu (Nat.to_uint b)) as B.
    rewrite H in A. congruence. }
  rewrite <- (DecimalNat.Unsigned.of_to a), <- (DecimalNat.Unsigned.of_to b), U.
  reflexivity.
Qed.

Lemma forallb_below (k : nat) (P : nat -> bool) :
  forallb P (seq 0 k) = true -> forall n, n < k -> P n = true.
Proof.
  intros H n L. rewrite forallb_forall in H. apply H, in_seq. lia.
Qed.

Lemma padded_seconds_length (n : nat) :
  n < 60 -> List.length (padStart 2 48%N (decimal n)) = 2.
Proof.
  intros L.
  apply (forallb_below 60
           (fun n => Nat.eqb (List.length (padStart 2 48%N (decimal n))) 2)) in L;
    [apply Nat.eqb_eq, L|vm_compute; reflexivity].
Qed.

Lemma padded_seconds_inj (n m : nat) :
  n < 60 -> m < 60 ->
  padStart 2 48%N (decimal n) = padStart 2 48%N (decimal m) -> n = m.
Proof.
  intros Ln Lm E.
  assert (C : forallb (fun n => forallb (fun m =>
                implb (str_eqb (padStart 2 48%N (decimal n))
                               (padStart 2 48%N (decimal m)))
                      (Nat.eqb n m)) (seq 0 60)) (seq 0 60) = true)
    by (vm_compute; reflexivity).
  pose proof (forallb_below 60 _ (forallb_below 60 _ C n Ln) m Lm) as H.
  cbv beta in H. rewrite E, str_eqb_refl in H. apply Nat.eqb_eq, H.
Qed.

Lemma app_same_length_inj {A} (x y s t : list A) :
  List.length s = List.length t -> x ++ s = y ++ t -> x = y /\ s = t.
Proof.
  intros L E.
  assert (Lx : List.length x = List.length y).
  { apply (f_equal (@List.length A)) in E. rewrite !length_app in E. lia. }
  clear L. revert y Lx E.
  induction x as [|a x IH]; intros [|b y] Lx E; try discriminate Lx.
  - auto.
  - simpl in E. injection E as -> E. injection Lx as Lx.
    destruct (IH y Lx E) as [-> ->]. auto.
Qed.

Lemma padded_seconds_digits (n : nat) :
  n < 60 ->
  padStart 2 48%N (decimal n) = [N.of_nat (48 + n / 10); N.of_nat (48 + n mod 10)].
Proof.
  intros L.
  apply (forallb_below 60
           (fun n => str_eqb (padStart 2 48%N (decimal n))
                       [N.of_nat (48 + n / 10); N.of_nat (48 + n mod 10)])) in L;
    [apply str_eqb_eq, L|vm_compute; reflexivity].
Qed.

(** X3.  The recording clock shows the whole minutes, a colon and the
    seconds of the minute on exactly two digits, the tens and then the
    units; and two different counts of seconds are never shown alike. *)
Theorem formatTime_unambiguous (a b : nat) :
  formatTime a
  = decimal (a / 60) ++ lit ":"
    ++ [N.of_nat (48 + (a mod 60) / 10); N.of_nat (48 + (a mod 60) mod 10)] /\
  (formatTime a = formatTime b -> a = b).
Proof.
  assert (La : a mod 60 < 60) by (apply Nat.mod_upper_bound; discriminate).
  assert (Lb : b mod 60 < 60) by (apply Nat.mod_upper_bound; discriminate).
  split.
  - unfold formatTime. cbv zeta. rewrite padded_seconds_digits by exact La.
    reflexivity.
  - unfold formatTime. cbv zeta. rewrite !app_assoc. intros E.
    apply app_same_length_inj in E;
      [|rewrite !padded_seconds_length by assumption; reflexivity].
    destruct E as [M S]. apply app_inj_tail in M. destruct M as [M _].
    apply decimal_inj in M. apply padded_seconds_inj in S; [|assumption ..].
    rewrite (Nat.div_mod_eq a 60), (Nat.div_mod_eq b 60). congruence.
Qed.

Lemma formatTime_unambiguous_witness :
  formatTime 75 = lit "1:15" /\ formatTime 3605 = lit "60:05".
Proof.
  split.
  - rewrite (proj1 (formatTime_unambiguous 75 0)). vm_compute. reflexivity.
  - rewrite (proj1 (formatTime_unambiguous 3605 0)). vm_compute. reflexivity.
Defined.

(** ** Operations addressed by identifier *)

Lemma setSnippets_same (a : App) : setSnippets (snippets a) a = a.
Proof. destruct a. reflexivity. Qed.

Lemma map_snippet_absent (id : jsstring) f (l : list Snippet.t) :
  (forall s, In s l -> Snippet.id s <> id) -> map_snippet id f l = l.
Proof.
  intros H. unfold map_snippet. rewrite <- (map_id l) at 2.
  apply map_ext_in. intros s I.
  destruct (str_eqb (Snippet.id s) id) eqn:E; [|reflexivity].
  apply str_eqb_eq in E. destruct (H s I E).
Qed.

Lemma filter_absent {A} (f : A -> bool) (l : list A) :
  (forall x, In x l -> f x = true) -> filter f l = l.
Proof.
  induction l as [|x r IH]; intros H; [reflexivity|].
  simpl. rewrite (H x (or_introl eq_refl)). f_equal.
  apply IH. intros y I. apply H. right. exact I.
Qed.

Lemma find_absent (id : jsstring) (l : list Snippet.t) :
  (forall s, In s l -> Snippet.id s <> id) ->
  find (fun s => str_eqb (Snippet.id s) id) l = None.
Proof.
  intros H. destruct (find _ l) as [s|] eqn:F; [|reflexivity].
  apply find_some in F. destruct F as [I E]. apply str_eqb_eq in E.
  destruct (H s I E).
Qed.

(** X4.  On an identifier that no section carries, deleting and updating
    a section leave the tree as it is; generating sends no request, puts no
    call in flight and leaves the application as it is; and a call that
    settles after its section was deleted changes nothing.  The same holds
    of a subsection call whose section is gone. *)
Theorem absent_section_is_untouched backend codec (id : jsstring) (a : App) :
  (forall s, In s (snippets a) -> Snippet.id s <> id) ->
  removeSnippet id a = a /\
  (forall updated, Snippet.id updated = id -> updateSnippet updated a = a) /\
  generateSnippet backend codec id a = (a, []) /\
  (forall subId, generateSubsection backend codec id subId a = (a, [])) /\
  (forall w, app w = a ->
     step w (GenerateSection id) = w /\
     forall subId, step w (GenerateSubsection id subId) = w) /\
  (forall r, generateSnippet_settle id r a = a) /\
  (forall subId r, generateSubsection_settle id subId r a = a).
Proof.
  intros H.
  assert (F : find (fun s => str_eqb (Snippet.id s) id) (snippets a) = None)
    by (apply find_absent, H).
  assert (M : forall f, setSnippets (map_snippet id f (snippets a)) a = a).
  { intros f. rewrite map_snippet_absent by exact H. apply setSnippets_same. }
  split.
  { unfold removeSnippet. rewrite filter_absent; [apply setSnippets_same|].
    intros s I. apply negb_true_iff.
    destruct (str_eqb (Snippet.id s) id) eqn:E; [|reflexivity].
    apply str_eqb_eq in E. destruct (H s I E). }
  split.
  { intros updated <-. apply (M (fun _ => updated)). }
  split; [unfold generateSnippet, generateSnippet_begin; rewrite F; reflexivity|].
  split.
  { intros subId. unfold generateSubsection, generateSubsection_begin.
    rewrite F. reflexivity. }
  split.
  { intros w <-. split; [|intros subId]; cbn [step];
      unfold generateSnippet_begin, generateSubsection_begin; rewrite F;
      reflexivity. }
  split.
  - intros [audio|err]; apply M.
  - intros subId [audio|err]; apply M.
Qed.

Lemma absent_section_is_untouched_witness :
  generateSnippet serving_backend serving_codec (lit "gone")
    (app_with [intro_snippet]) = (app_with [intro_snippet], []) /\
  generateSnippet_settle (lit "gone") (Fulfilled sample_audio)
    (app_with [intro_snippet]) = app_with [intro_snippet].
Proof.
  assert (H : forall s, In s (snippets (app_with [intro_snippet])) ->
                        Snippet.id s <> lit "gone").
  { intros s [<-|[]]. vm_compute. discriminate. }
  destruct (absent_section_is_untouched serving_backend serving_codec
              (lit "gone") (app_with [intro_snippet]) H)
    as (_ & _ & G & _ & _ & S & _).
  split; [exact G|apply S].
Defined.

Lemma map_snippet_unique (id : jsstring) f (l : list Snippet.t) : forall i s,
  NoDup (map Snippet.id l) -> nth_error l i = Some s -> Snippet.id s = id ->
  map_snippet id f l = firstn i l ++ f s :: skipn (S i) l.
Proof.
  induction l as [|x r IH]; intros [|i] s D N E; simpl in N; try discriminate.
  - injection N as ->. inversion D as [|? ? X D']; subst. cbn.
    rewrite str_eqb_refl. f_equal. apply map_snippet_absent.
    intros y I Y. apply X. rewrite <- Y. apply in_map, I.
  - inversion D as [|? ? X D']; subst. cbn.
    destruct (str_eqb (Snippet.id x) (Snippet.id s)) eqn:B.
    + apply str_eqb_eq in B. destruct X. rewrite B.
      apply in_map, (nth_error_In _ _ N).
    + f_equal. apply (IH i s D' N eq_refl).
Qed.

Lemma filter_unique (id : jsstring) (l : list Snippet.t) : forall i s,
  NoDup (map Snippet.id l) -> nth_error l i = Some s -> Snippet.id s = id ->
  filter (fun s => negb (str_eqb (Snippet.id s) id)) l = firstn i l ++ skipn (S i) l.
Proof.
  induction l as [|x r IH]; intros [|i] s D N E; simpl in N; try discriminate.
  - injection N as ->. inversion D as [|? ? X D']; subst. cbn.
    rewrite str_eqb_refl. cbn. apply filter_absent.
    intros y I. apply negb_true_iff.
    destruct (str_eqb (Snippet.id y) (Snippet.id s)) eqn:B; [|reflexivity].
    apply str_eqb_eq in B. destruct X. rewrite <- B. apply in_map, I.
  - inversion D as [|? ? X D']; subst. cbn.
    destruct (str_eqb (Snippet.id x) (Snippet.id s)) eqn:B.
    + apply str_eqb_eq in B. destruct X. rewrite B.
      apply in_map, (nth_error_In _ _ N).
    + cbn. f_equal. apply (IH i s D' N eq_refl).
Qed.

(** X5.  When the sections carry distinct identifiers, every operation
    addressed to the section at position [i] touches that section alone:
    an update puts the updated snippet in its place, a deletion removes it
    with all its subsections and keeps the others in order, and a settling
    call rewrites its status and artifact or error and nothing else. *)
Theorem section_operations_are_local (a : App) (i : nat) (section : Snippet.t) :
  NoDup (map Snippet.id (snippets a)) ->
  nth_error (snippets a) i = Some section ->
  (forall updated,
     Snippet.id updated = Snippet.id section ->
     snippets (updateSnippet updated a)
     = firstn i (snippets a) ++ updated :: skipn (S i) (snippets a)) /\
  snippets (removeSnippet (Snippet.id section) a)
  = firstn i (snippets a) ++ skipn (S i) (snippets a) /\
  (forall audio,
     snippets (generateSnippet_settle (Snippet.id section) (Fulfilled audio) a)
     = firstn i (snippets a) ++ snippet_success audio section
       :: skipn (S i) (snippets a)) /\
  (forall err,
     snippets (generateSnippet_settle (Snippet.id section) (Rejected err) a)
     = firstn i (snippets a) ++ snippet_error err section
       :: skipn (S i) (snippets a)).
Proof.
  intros D N. split; [|split; [|split]].
  - intros updated E. cbn. rewrite E.
    apply (map_snippet_unique (Snippet.id section) (fun _ => updated) _ i section);
      auto.
  - cbn. apply (filter_unique _ _ i section); auto.
  - intros audio. cbn. apply map_snippet_unique; auto.
  - intros err. cbn. apply map_snippet_unique; auto.
Qed.

Lemma section_operations_are_local_witness :
  snippets (removeSnippet (lit "n1") (app_with [intro_snippet])) = [] /\
  snippets (updateSnippet (with_text intro_snippet (lit "Bye"))
              (app_with [intro_snippet]))
  = [with_text intro_snippet (lit "Bye")].
Proof.
  assert (D : NoDup (map Snippet.id (snippets (app_with [intro_snippet])))).
  { constructor; [intros []|constructor]. }
  destruct (section_operations_are_local (app_with [intro_snippet]) 0
              intro_snippet D eq_refl) as (U & R & _).
  split; [exact R|]. exact (U (with_text intro_snippet (lit "Bye")) eq_refl).
Defined.

(** ** Adding sections *)

Lemma addSnippetFromSelection_valid (start end_ : nat) (uuid : jsstring) (a : App) :
  start <> end_ -> trim (substring (narrationText a) start end_) <> [] ->
  addSnippetFromSelection start end_ uuid a
  = setSnippets
      (snippets a
       ++ [Snippet.mk uuid (lit "Section " ++ decimal (List.length (snippets a) + 1))
             (substring (narrationText a) start end_) (narrationVoice a)
             None Idle None []]) a.
Proof.
  intros S T. unfold addSnippetFromSelection.
  destruct (Nat.eqb_spec start end_) as [E|_]; [contradiction|].
  rewrite truthy_trim_blank.
  destruct (blank (substring (narrationText a) start end_)) eqn:B; [|reflexivity].
  apply trim_nil_blank in B. contradiction.
Qed.

(** X6.  Extracting a section from the master text changes nothing exactly
    when the selection is empty or trims to nothing (the section list
    cannot come out the same otherwise); a valid selection appends one idle
    section named "Section N", N one more than the number of sections, with
    the selected text and the master voice, and leaves the master text and
    the other sections as they were. *)
Theorem addSnippetFromSelection_spec (start end_ : nat) (uuid : jsstring) (a : App) :
  let selectedText := substring (narrationText a) start end_ in
  let a' := addSnippetFromSelection start end_ uuid a in
  (a' = a <-> start = end_ \/ trim selectedText = []) /\
  narrationText a' = narrationText a /\
  (start <> end_ -> trim selectedText <> [] ->
   snippets a'
   = snippets a
     ++ [Snippet.mk uuid (lit "Section " ++ decimal (List.length (snippets a) + 1))
           selectedText (narrationVoice a) None Idle None []]).
Proof.
  cbv zeta. split; [|split].
  - split.
    + intros E.
      destruct (Nat.eq_dec start end_) as [S|S]; [left; exact S|right].
      destruct (list_eq_dec N.eq_dec
                  (trim (substring (narrationText a) start end_)) []) as [T|T];
        [exact T|].
      rewrite (addSnippetFromSelection_valid _ _ uuid a S T) in E.
      apply (f_equal (fun x => List.length (snippets x))) in E.
      cbn in E. rewrite length_app in E. cbn in E. lia.
    + unfold addSnippetFromSelection. intros [->|T].
      * rewrite Nat.eqb_refl. reflexivity.
      * rewrite T. destruct (Nat.eqb start end_); reflexivity.
  - unfold addSnippetFromSelection.
    destruct (Nat.eqb start end_); [reflexivity|].
    destruct (negb _); reflexivity.
  - intros S T. rewrite addSnippetFromSelection_valid by assumption. reflexivity.
Qed.

Lemma addSnippetFromSelection_spec_witness :
  snippets (addSnippetFromSelection 0 5 (lit "n1") initial_app)
  = [Snippet.mk (lit "n1") (lit "Section 1") (lit "Enter") Kore None Idle None []].
Proof.
  apply (proj2 (proj2 (addSnippetFromSelection_spec 0 5 (lit "n1") initial_app)));
    vm_compute; discriminate.
Defined.

(** X7.  Section names are reused: after two sections are extracted, the
    first of them is deleted and a third is extracted, the last two
    sections carry the same name (and so the same export file name),
    because the number in a name is the number of sections at the time. *)
Theorem section_names_are_reused (start end_ : nat) (u1 u2 u3 : jsstring) (a : App) :
  start <> end_ -> trim (substring (narrationText a) start end_) <> [] ->
  (forall s, In s (snippets a) -> Snippet.id s <> u1) -> u2 <> u1 ->
  let a' := addSnippetFromSelection start end_ u3
              (removeSnippet u1
                 (addSnippetFromSelection start end_ u2
                    (addSnippetFromSelection start end_ u1 a))) in
  let name := lit "Section " ++ decimal (List.length (snippets a) + 2) in
  let text := substring (narrationText a) start end_ in
  snippets a'
  = snippets a
    ++ [Snippet.mk u2 name text (narrationVoice a) None Idle None [];
        Snippet.mk u3 name text (narrationVoice a) None Idle None []].
Proof.
  intros S T H U. cbv zeta.
  rewrite (addSnippetFromSelection_valid _ _ u1 a S T).
  rewrite (addSnippetFromSelection_valid _ _ u2 (setSnippets _ a))
    by (cbn [narrationText setSnippets]; assumption).
  cbn [snippets setSnippets narrationText narrationVoice].
  unfold removeSnippet. cbn [snippets setSnippets].
  rewrite !filter_app. cbn [filter Snippet.id].
  rewrite str_eqb_refl.
  destruct (str_eqb u2 u1) eqn:B; [apply str_eqb_eq in B; contradiction|].
  cbn [negb app].
  rewrite filter_absent.
  2:{ intros s I. apply negb_true_iff.
      destruct (str_eqb (Snippet.id s) u1) eqn:E; [|reflexivity].
      apply str_eqb_eq in E. destruct (H s I E). }
  rewrite (addSnippetFromSelection_valid _ _ u3 _)
    by (cbn [narrationText setSnippets]; assumption).
  cbn [snippets setSnippets narrationText narrationVoice].
  rewrite ?app_nil_r, ?length_app. cbn [List.length].
  rewrite <- ?app_assoc. cbn [app].
  replace (List.length (snippets a) + 1 + 1) with (List.length (snippets a) + 2) by lia.
  reflexivity.
Qed.

Lemma section_names_are_reused_witness :
  map Snippet.name
    (snippets (addSnippetFromSelection 0 5 (lit "c")
                 (removeSnippet (lit "a")
                    (addSnippetFromSelection 0 5 (lit "b")
                       (addSnippetFromSelection 0 5 (lit "a") initial_app)))))
  = [lit "Section 2"; lit "Section 2"].
Proof.
  rewrite (section_names_are_reused 0 5 (lit "a") (lit "b") (lit "c") initial_app);
    [reflexivity| | |intros s []|]; vm_compute; discriminate.
Defined.

(** ** What generation writes, and what the tree leaves alone *)

Lemma tree_content_map_snippet (id : jsstring) f (l : list Snippet.t) :
  (forall s, snippet_content (f s) = snippet_content s) ->
  tree_content (map_snippet id f l) = tree_content l.
Proof.
  intros F. unfold tree_content, map_snippet. rewrite map_map.
  apply map_ext. intros s. destruct (str_eqb _ _); auto.
Qed.

Lemma tree_content_map_subsection (sid subid : jsstring) g (l : list Snippet.t) :
  (forall sub, subsection_content (g sub) = subsection_content sub) ->
  tree_content (map_subsection sid subid g l) = tree_content l.
Proof.
  intros G. apply tree_content_map_snippet. intros s.
  unfold snippet_content. cbn. f_equal. rewrite map_map.
  apply map_ext. intros sub. destruct (str_eqb _ _); auto.
Qed.

(** X8.  Issuing a generation call and settling one write statuses,
    artifacts and error messages only: the sections and subsections, their
    order, identifiers, names, texts and voices, and every other part of
    the application state are as before. *)
Theorem generation_writes_results_only (w : World) (e : Event) :
  is_edit e = false ->
  exists l,
    app (step w e) = setSnippets l (app w) /\
    tree_content l = tree_content (snippets (app w)).
Proof.
  intros E.
  assert (Same : exists l, app w = setSnippets l (app w) /\
                           tree_content l = tree_content (snippets (app w))).
  { exists (snippets (app w)). rewrite setSnippets_same. auto. }
  destruct e as [t|v|start end_ uuid| |index action|id|sid subid|k r];
    try discriminate E; cbn [step].
  - unfold generateSnippet_begin. destruct (find _ _); [|exact Same].
    eexists. split; [reflexivity|]. apply tree_content_map_snippet. reflexivity.
  - unfold generateSubsection_begin. destruct (find _ _); [|exact Same].
    destruct (find _ _); [|exact Same].
    eexists. split; [reflexivity|]. apply tree_content_map_subsection. reflexivity.
  - destruct (nth_error (inflight w) k) as [j|]; [|exact Same].
    cbn [app]. unfold settle_job.
    destruct (target j) as [id|sid subid]; destruct r as [audio|err];
      (eexists; split; [reflexivity|]);
      first [apply tree_content_map_subsection; reflexivity
            |apply tree_content_map_snippet; reflexivity].
Qed.

Lemma generation_writes_results_only_witness :
  tree_content (snippets (app (run initial_world retry_run)))
  = [(lit "n1", lit "Section 1", lit "Enter", Kore, [])].
Proof.
  destruct (generation_writes_results_only
              (run initial_world
                 [AddSnippet 0 5 (lit "n1"); GenerateSection (lit "n1");
                  Settle 0 (Rejected (mkError (lit "quota exceeded")));
                  GenerateSection (lit "n1")])
              (Settle 0 (Fulfilled sample_audio)) eq_refl) as (l & A & C).
  change (app (run initial_world retry_run))
    with (app (step (run initial_world
                 [AddSnippet 0 5 (lit "n1"); GenerateSection (lit "n1");
                  Settle 0 (Rejected (mkError (lit "quota exceeded")));
                  GenerateSection (lit "n1")])
              (Settle 0 (Fulfilled sample_audio)))).
  rewrite A. cbn [snippets setSnippets]. rewrite C. vm_compute. reflexivity.
Defined.

Lemma step_app_shape (w : World) (e : Event) :
  exists l,
    app (step w e)
    = setSnippets l
        match e with
        | TypeNarrationText t => setNarrationText t (app w)
        | SelectNarrationVoice v => setNarrationVoice v (app w)
        | _ => app w
        end.
Proof.
  assert (Same : forall a : App, exists l, a = setSnippets l a).
  { intros a. exists (snippets a). rewrite setSnippets_same. reflexivity. }
  destruct e as [t|v|start end_ uuid| |index action|id|sid subid|k r]; cbn [step app].
  - apply Same.
  - apply Same.
  - unfold addSnippetFromSelection. destruct (Nat.eqb start end_); [apply Same|].
    destruct (negb _); [apply Same|]. eexists. reflexivity.
  - eexists. reflexivity.
  - destruct (nth_error _ index) as [section|]; [|apply Same]. cbn [app].
    destruct action; cbn [editor_step];
      try (eexists; reflexivity).
    destruct (handleExtractSubsection _ _ _ _); [eexists; reflexivity|apply Same].
  - unfold generateSnippet_begin. destruct (find _ _); [|apply Same].
    eexists. reflexivity.
  - unfold generateSubsection_begin. destruct (find _ _); [|apply Same].
    destruct (find _ _); [|apply Same]. eexists. reflexivity.
  - destruct (nth_error (inflight w) k) as [j|]; [|apply Same].
    cbn [app]. unfold settle_job.
    destruct (target j); destruct r; eexists; reflexivity.
Qed.

(** X9.  The section tree and the document do not reach into each other:
    no event of the tree (adding, editing, deleting, generating, settling)
    changes the document's artifact, error message, baseline, mode or
    staleness, and a run of the document handler leaves every section as
    it was. *)
Theorem tree_and_document_are_independent backend codec (w : World) (e : Event) :
  is_master_edit e = false ->
  (generatedAudio (app (step w e)) = generatedAudio (app w) /\
   error (app (step w e)) = error (app w) /\
   lastGeneratedHash (app (step w e)) = lastGeneratedHash (app w) /\
   mode (app (step w e)) = mode (app w) /\
   getContentHash (app (step w e)) = getContentHash (app w) /\
   isStale (app (step w e)) = isStale (app w)) /\
  snippets (handleGenerate backend codec (app w)) = snippets (app w).
Proof.
  intros E. split.
  - destruct (step_app_shape w e) as [l A]. rewrite A.
    destruct e; try discriminate E; repeat split; reflexivity.
  - unfold handleGenerate.
    destruct (settled (handleGenerate_try backend codec (app w))) as [[audio|text]|err];
      reflexivity.
Qed.

Lemma tree_and_document_are_independent_witness :
  isStale (app (step (mkWorld narrated_app []) (AddSnippet 0 5 (lit "n1"))))
  = isStale narrated_app.
Proof.
  exact (proj2 (proj2 (proj2 (proj2 (proj2 (proj1
    (tree_and_document_are_independent serving_backend serving_codec
       (mkWorld narrated_app []) (AddSnippet 0 5 (lit "n1")) eq_refl))))))).
Defined.

(** ** The backend functions *)

Lemma bind_calls_fulfilled {A B} (m : Async A) (k : A -> Async B) (a : A) :
  settled m = Fulfilled a -> bind m k = mkAsync (calls m ++ calls (k a)) (settled (k a)).
Proof. intros H. unfold bind. rewrite H. reflexivity. Qed.

Lemma bind_rejected {A B} (m : Async A) (k : A -> Async B) (e : JsError) :
  settled m = Rejected e -> bind m k = mkAsync (calls m) (Rejected e).
Proof. intros H. unfold bind. rewrite H. reflexivity. Qed.

Lemma rethrow_same {A} (m : Async A) : try_catch m (fun error => throw error) = m.
Proof.
  unfold try_catch. destruct m as [c [a|e]]; cbn; [reflexivity|].
  rewrite app_nil_r. reflexivity.
Qed.

Lemma generateSingleVoice_shape backend (text : jsstring) (voice : VoiceName) :
  let request := mkRequest tts_model [TextPart text] true (Some (PrebuiltVoice voice)) in
  calls (generateSingleVoice backend text voice) = [request] /\
  (forall e, backend request = Rejected e ->
             settled (generateSingleVoice backend text voice) = Rejected e) /\
  (forall d, settled (generateSingleVoice backend text voice) = Fulfilled d ->
             d <> [] /\
             exists response rest,
               backend request = Fulfilled response /\
               parts response = Some (Some d :: rest)).
Proof.
  cbv zeta. unfold generateSingleVoice. rewrite rethrow_same.
  unfold bind, generateContent. cbn [settled calls].
  destruct (backend _) as [response|e].
  - destruct (parts response) as [[|[[|c d]|] rest]|] eqn:P; cbn;
      (split; [reflexivity|]); (split; [intros; discriminate|]);
      try (intros; discriminate).
    intros d' H. injection H as <-. split; [discriminate|]. eauto.
  - cbn. split; [reflexivity|]. split; [|intros; discriminate].
    intros e0 H. injection H as <-. reflexivity.
Qed.

Lemma generateDialogue_shape backend script characters :
  List.length (calls (generateDialogue backend script characters)) = 1 /\
  (forall d, settled (generateDialogue backend script characters) = Fulfilled d ->
             d <> []).
Proof.
  unfold generateDialogue. rewrite rethrow_same.
  unfold bind, generateContent. cbn [settled calls].
  destruct (backend _) as [response|e]; [|cbn; split; [reflexivity|discriminate]].
  destruct (parts response) as [[|[d|] rest]|]; cbn;
    try (split; [reflexivity|discriminate]).
  destruct d as [|c d]; cbn; (split; [reflexivity|]); [discriminate|].
  intros d' H. injection H as <-. discriminate.
Qed.

Lemma transcribeAudio_shape backend (base64Audio mimeType : jsstring) :
  List.length (calls (transcribeAudio backend base64Audio mimeType)) = 1 /\
  (forall t, settled (transcribeAudio backend base64Audio mimeType) = Fulfilled t ->
             t <> []).
Proof.
  unfold transcribeAudio. rewrite rethrow_same.
  unfold bind, generateContent. cbn [settled calls].
  destruct (backend _) as [response|e]; [|cbn; split; [reflexivity|discriminate]].
  destruct (response_text response) as [[|c t]|]; cbn;
    (split; [reflexivity|]); try discriminate.
  intros t' H. injection H as <-. discriminate.
Qed.

Lemma native_cloning_shape backend (text referenceAudio mimeType : jsstring) :
  List.length (calls (native_cloning backend text referenceAudio mimeType)) = 1 /\
  (forall d, settled (native_cloning backend text referenceAudio mimeType)
             = Fulfilled d -> d <> []).
Proof.
  unfold native_cloning, bind, generateContent. cbn [settled calls].
  destruct (backend _) as [response|e]; [|cbn; split; [reflexivity|discriminate]].
  destruct (truthy _) eqn:T; cbn; (split; [reflexivity|]); [|discriminate].
  intros d H. injection H as <-. intros E. rewrite E in T. discriminate.
Qed.

Lemma generateClonedSpeech_shape backend (text referenceAudio mimeType : jsstring) :
  1 <= List.length (calls (generateClonedSpeech backend text referenceAudio mimeType))
    <= 2 /\
  (forall d, settled (generateClonedSpeech backend text referenceAudio mimeType)
             = Fulfilled d -> d <> []).
Proof.
  destruct (native_cloning_shape backend text referenceAudio mimeType) as [C F].
  destruct (generateSingleVoice_shape backend text Aoede) as (C' & _ & F').
  unfold generateClonedSpeech.
  destruct (settled (native_cloning backend text referenceAudio mimeType))
    as [d|e] eqn:N.
  - rewrite (try_catch_fulfilled _ _ _ N). split; [lia|].
    intros d' H. apply F. congruence.
  - rewrite (try_catch_rejected _ _ _ N). cbn [calls settled].
    destruct (settled (generateSingleVoice backend text Aoede)) as [d|e'] eqn:S.
    + rewrite (try_catch_fulfilled _ _ _ S). rewrite length_app, C, C'.
      split; [cbn; lia|]. intros d' H. apply F'. congruence.
    + rewrite (try_catch_rejected _ _ _ S). cbn [calls settled throw].
      rewrite app_nil_r, length_app, C, C'. split; [cbn; lia|]. discriminate.
Qed.

(** X10.  Each backend function sends at least one request and at most
    two (only cloned speech sends a second), hands a rejection of plain
    synthesis on unchanged, and never fulfils with an empty string: a
    response without data, or with empty data or text, is turned into an
    error. *)
Theorem backend_functions_never_return_empty backend
  (text referenceAudio mimeType : jsstring) (voice : VoiceName)
  (script : list ScriptLine) (characters : list Character) :
  (List.length (calls (generateSingleVoice backend text voice)) = 1 /\
   List.length (calls (generateDialogue backend script characters)) = 1 /\
   List.length (calls (transcribeAudio backend referenceAudio mimeType)) = 1 /\
   1 <= List.length (calls (generateClonedSpeech backend text referenceAudio mimeType))
     <= 2) /\
  (forall e,
     backend (mkRequest tts_model [TextPart text] true (Some (PrebuiltVoice voice)))
     = Rejected e ->
     settled (generateSingleVoice backend text voice) = Rejected e) /\
  (forall d,
     settled (generateSingleVoice backend text voice) = Fulfilled d \/
     settled (generateDialogue backend script characters) = Fulfilled d \/
     settled (transcribeAudio backend referenceAudio mimeType) = Fulfilled d \/
     settled (generateClonedSpeech backend text referenceAudio mimeType) = Fulfilled d ->
     d <> []).
Proof.
  destruct (generateSingleVoice_shape backend text voice) as (C1 & R1 & F1).
  destruct (generateDialogue_shape backend script characters) as (C2 & F2).
  destruct (transcribeAudio_shape backend referenceAudio mimeType) as (C3 & F3).
  destruct (generateClonedSpeech_shape backend text referenceAudio mimeType) as (C4 & F4).
  split; [rewrite C1; auto|]. split; [exact R1|].
  intros d [H|[H|[H|H]]]; [apply (F1 d H)|auto ..].
Qed.

Lemma backend_functions_never_return_empty_witness :
  settled (generateSingleVoice
             (fun _ => Fulfilled (mkResponse (Some [Some (lit "")]) None))
             (lit "Hi") Kore)
  = Rejected (mkError (lit "No audio data returned from Gemini API")) /\
  lit "UklGRg==" <> [].
Proof.
  split; [vm_compute; reflexivity|].
  apply (proj2 (proj2 (backend_functions_never_return_empty serving_backend
                         (lit "Hi") (lit "UklGRg==") (lit "audio/webm") Kore [] []))).
  left. vm_compute. reflexivity.
Defined.

(** ** Validation before a document generation *)

Lemma bind_silent_calls {A B} (m : Async A) (k : A -> Async B) :
  (forall a, calls (k a) = []) -> calls (bind m k) = calls m.
Proof.
  intros K. unfold bind. destruct (settled m) as [a|e]; cbn; [|reflexivity].
  rewrite K. apply app_nil_r.
Qed.

Lemma decode_then_ret_calls codec (m : Async jsstring) :
  calls (base64Audio <- m ;; audio <- decode codec base64Audio ;; ret (AudioResult audio))
  = calls m.
Proof.
  apply bind_silent_calls. intros b. unfold bind, decode. cbn.
  destruct (codec b); reflexivity.
Qed.

Lemma handleGenerate_try_calls backend codec (a : App) :
  if inputs_missing a
  then exists err,
         handleGenerate_try backend codec a = throw err /\ message err <> []
  else 1 <= List.length (calls (handleGenerate_try backend codec a)) <= 2.
Proof.
  unfold inputs_missing, handleGenerate_try.
  destruct (mode a).
  - rewrite truthy_trim_blank. destruct (blank (narrationText a)).
    + eexists. split; [reflexivity|]. vm_compute. discriminate.
    + rewrite decode_then_ret_calls.
      rewrite (proj1 (generateSingleVoice_shape backend _ _)). cbn. lia.
  - destruct (script a) as [|l r].
    + eexists. split; [reflexivity|]. vm_compute. discriminate.
    + cbn [List.length Nat.eqb]. rewrite decode_then_ret_calls.
      rewrite (proj1 (generateDialogue_shape backend _ _)). lia.
  - rewrite truthy_trim_blank. destruct (blank (cloningText a)).
    + eexists. split; [reflexivity|]. vm_compute. discriminate.
    + cbn [orb]. destruct (cloningReference a) as [reference|].
      * rewrite decode_then_ret_calls.
        apply (proj1 (generateClonedSpeech_shape backend _ _ _)).
      * eexists. split; [reflexivity|]. vm_compute. discriminate.
  - destruct (transcriptionFile a) as [file|].
    + rewrite bind_silent_calls by reflexivity.
      rewrite (proj1 (transcribeAudio_shape backend _ _)). lia.
    + eexists. split; [reflexivity|]. vm_compute. discriminate.
Qed.

(** X11.  The document handler sends no request exactly when the active
    mode lacks its inputs (blank narration text, empty script, blank text
    to clone or no reference, no file to transcribe); it then ends with a
    non-empty error message and no artifact.  Otherwise it sends one
    request, or two when cloned speech falls back. *)
Theorem handleGenerate_validates_first backend codec (a : App) :
  (calls (handleGenerate_try backend codec a) = [] <-> inputs_missing a = true) /\
  List.length (calls (handleGenerate_try backend codec a)) <= 2 /\
  (inputs_missing a = true ->
   exists message,
     message <> [] /\
     error (handleGenerate backend codec a) = Some message /\
     generatedAudio (handleGenerate backend codec a) = None /\
     lastGeneratedHash (handleGenerate backend codec a) = lastGeneratedHash a /\
     loading (handleGenerate backend codec a) = false).
Proof.
  pose proof (handleGenerate_try_calls backend codec a) as H.
  destruct (inputs_missing a).
  - destruct H as (err & T & M). split; [|split].
    + rewrite T. split; reflexivity.
    + rewrite T. cbn. lia.
    + intros _. exists (message err). split; [exact M|].
      unfold handleGenerate. rewrite T. cbn.
      unfold message_or_default. destruct (message err); [contradiction|].
      repeat split.
  - split; [|split; [lia|discriminate]].
    split; [|discriminate]. intros C. rewrite C in H. cbn in H. lia.
Qed.

Lemma handleGenerate_validates_first_witness :
  calls (handleGenerate_try serving_backend serving_codec
           (setNarrationText (lit "  ") initial_app)) = [] /\
  error (handleGenerate serving_backend serving_codec
           (setNarrationText (lit "  ") initial_app))
  = Some (lit "Please enter some text.").
Proof.
  split.
  - apply (proj1 (handleGenerate_validates_first serving_backend serving_codec
                    (setNarrationText (lit "  ") initial_app))).
    vm_compute. reflexivity.
  - vm_compute. reflexivity.
Defined.

(** ** A generation that settles after a mode switch *)

(** X12.  When the mode is switched while a document generation is in
    flight and the generation then succeeds, its audio is attached in the
    new mode with the fingerprint of the old mode's inputs as baseline: in
    a new mode other than transcription the document is stale at once. *)
Theorem late_audio_is_stale (a : App) (m : AppMode) (audio : GeneratedAudio) :
  mode a <> TRANSCRIPTION -> m <> TRANSCRIPTION -> m <> mode a ->
  let a' := handleGenerate_settle (getContentHash a) (Fulfilled (AudioResult audio))
              (switchMode m (handleGenerate_begin a)) in
  mode a' = m /\
  generatedAudio a' = Some audio /\
  lastGeneratedHash a' = getContentHash a /\
  isStale a' = true.
Proof.
  intros T M D. cbv zeta. split; [reflexivity|]. split; [reflexivity|].
  split; [reflexivity|]. apply isStale_true_iff. cbn.
  split; [discriminate|]. split; [|exact M].
  unfold getContentHash. cbn.
  destruct m, (mode a); try contradiction; discriminate.
Qed.

Lemma late_audio_is_stale_witness :
  isStale (handleGenerate_settle (getContentHash initial_app)
             (Fulfilled (AudioResult sample_audio))
             (switchMode DIALOGUE (handleGenerate_begin initial_app))) = true.
Proof.
  apply (late_audio_is_stale initial_app DIALOGUE sample_audio); discriminate.
Defined.

(** ** The archive of a tree that holds audio *)

Lemma wav_member_add (name : jsstring) (b : list N) :
  wav_member (name ++ lit ".wav", AudioEntry b).
Proof. split; [apply endsWith_app|exists b; reflexivity]. Qed.

Lemma zip_file_Forall (P : jsstring * ZipEntry -> Prop) name data ms :
  P (name, data) -> Forall P ms -> Forall P (zip_file name data ms).
Proof.
  intros N H. induction H as [|[n d] r X R IH]; cbn; [auto|].
  destruct (str_eqb n name) eqn:E.
  - apply str_eqb_eq in E. subst n. auto.
  - auto.
Qed.

Lemma zip_file_In name data ms : In (name, data) (zip_file name data ms).
Proof.
  induction ms as [|[n d] r IH]; cbn; [auto|].
  destruct (str_eqb n name) eqn:E.
  - apply str_eqb_eq in E. subst n. left. reflexivity.
  - right. exact IH.
Qed.

Lemma zip_file_keeps name data ms n :
  (exists d, In (n, d) ms) -> exists d, In (n, d) (zip_file name data ms).
Proof.
  intros [d I]. induction ms as [|[n' d'] r IH]; [destruct I|].
  cbn. destruct (str_eqb n' name) eqn:E.
  - destruct I as [I|I]; [injection I as -> ->; eexists; left; reflexivity|].
    exists d. right. exact I.
  - destruct I as [I|I]; [exists d; left; exact I|].
    destruct (IH I) as [d0 I0]. exists d0. right. exact I0.
Qed.

Lemma zip_file_length name data ms :
  List.length (zip_file name data ms) <= S (List.length ms).
Proof.
  induction ms as [|[n d] r IH]; cbn; [lia|].
  destruct (str_eqb n name); cbn; lia.
Qed.

Lemma zip_file_fresh name data ms :
  Forall (fun m => str_eqb (fst m) name = false) ms ->
  zip_file name data ms = ms ++ [(name, data)].
Proof.
  induction 1 as [|[n d] r X R IH]; [reflexivity|].
  cbn in *. rewrite X, IH. reflexivity.
Qed.

Lemma wav_member_not_manifest (m : jsstring * ZipEntry) :
  wav_member m -> str_eqb (fst m) (lit "structure.md") = false.
Proof.
  intros [E _]. destruct (str_eqb (fst m) (lit "structure.md")) eqn:B; [|reflexivity].
  apply str_eqb_eq in B. rewrite B in E. discriminate E.
Qed.

Section ArchiveFacts.

Variables appName_ featureName_ : jsstring.

Lemma subsections_loop_archive snippet i subs : forall j st,
  Forall wav_member (snd st) ->
  let st' := subsections_loop appName_ featureName_ snippet i j subs st in
  Forall wav_member (snd st') /\
  List.length (snd st') <= List.length (snd st) + subsections_with_audio subs /\
  (forall n, (exists d, In (n, d) (snd st)) -> exists d, In (n, d) (snd st')) /\
  (forall sub, In sub subs -> Subsection.audio sub <> None ->
     exists d, In (subsection_file appName_ featureName_ snippet sub, d) (snd st')).
Proof.
  induction subs as [|sub rest IH]; intros j st W; cbv zeta.
  - cbn. repeat split; [exact W|lia|auto|intros sub []].
  - cbn [subsections_loop]. unfold subsections_with_audio. cbn [filter].
    destruct (Subsection.audio sub) as [audio|] eqn:A.
    + set (name := generateFileName _ ++ lit ".wav").
      set (ms := zip_file name (AudioEntry (blob audio)) (snd st)).
      assert (W' : Forall wav_member ms).
      { apply zip_file_Forall; [apply wav_member_add|exact W]. }
      destruct (IH (S j) (fst st ++ subsection_line i j sub, ms) W')
        as (F & L & K & S).
      cbn [snd fst] in *. repeat split.
      * exact F.
      * pose proof (zip_file_length name (AudioEntry (blob audio)) (snd st)).
        fold ms in H. cbn [List.length].
        unfold subsections_with_audio in L. lia.
      * intros n H. apply K, zip_file_keeps, H.
      * intros sub' [<-|I] N.
        -- apply K. eexists. apply zip_file_In.
        -- apply S; assumption.
    + destruct (IH (S j) (fst st ++ subsection_line i j sub, snd st) W)
        as (F & L & K & S).
      cbn [snd fst] in *. repeat split; [exact F|exact L|exact K|].
      intros sub' [<-|I] N; [congruence|apply S; assumption].
Qed.

Lemma snippets_loop_archive l : forall i st,
  Forall wav_member (snd st) ->
  let st' := snippets_loop appName_ featureName_ i l st in
  Forall wav_member (snd st') /\
  List.length (snd st') <= List.length (snd st) + nodes_with_audio l /\
  (forall n, (exists d, In (n, d) (snd st)) -> exists d, In (n, d) (snd st')) /\
  (forall s, In s l ->
     (Snippet.audio s <> None ->
      exists d, In (section_file appName_ featureName_ s, d) (snd st')) /\
     (forall sub, In sub (Snippet.subsections s) -> Subsection.audio sub <> None ->
        exists d, In (subsection_file appName_ featureName_ s sub, d) (snd st'))).
Proof.
  induction l as [|s rest IH]; intros i st W; cbv zeta.
  - cbn. repeat split; [exact W|lia|auto|destruct H|destruct H].
  - cbn [snippets_loop nodes_with_audio].
    set (ms := match Snippet.audio s with
               | Some audio => zip_file _ (AudioEntry (blob audio)) (snd st)
               | None => snd st
               end).
    assert (W1 : Forall wav_member ms).
    { subst ms. destruct (Snippet.audio s);
        [apply zip_file_Forall; [apply wav_member_add|exact W]|exact W]. }
    assert (L1 : List.length ms
                 <= List.length (snd st)
                    + match Snippet.audio s with Some _ => 1 | None => 0 end).
    { subst ms. destruct (Snippet.audio s); [|lia].
      pose proof (zip_file_length
                    (generateFileName [Some appName_; Some featureName_;
                                       Some (Snippet.name s)] ++ lit ".wav")
                    (AudioEntry (blob g)) (snd st)). lia. }
    assert (K1 : forall n, (exists d, In (n, d) (snd st)) -> exists d, In (n, d) ms).
    { subst ms. destruct (Snippet.audio s); [|auto].
      intros n H. apply zip_file_keeps, H. }
    assert (S1 : Snippet.audio s <> None ->
                 exists d, In (section_file appName_ featureName_ s, d) ms).
    { subst ms. destruct (Snippet.audio s); [|congruence].
      intros _. eexists. apply zip_file_In. }
    destruct (subsections_loop_archive s i (Snippet.subsections s) 0
                (fst st ++ section_line i s, ms) W1) as (F2 & L2 & K2 & S2).
    cbn [snd fst] in *.
    set (st2 := subsections_loop appName_ featureName_ s i 0
                  (Snippet.subsections s) (fst st ++ section_line i s, ms)) in *.
    destruct (IH (S i) (fst st2 ++ [newline], snd st2) F2) as (F3 & L3 & K3 & S3).
    cbn [snd fst] in *. repeat split.
    + exact F3.
    + lia.
    + auto.
    + destruct H as [<-|I]; [|apply (S3 s0 I)]. auto.
    + destruct H as [<-|I]; [|apply (S3 s0 I)]. intros sub J N. auto.
Qed.

End ArchiveFacts.

Lemma find_after_misses {A} (f : A -> bool) (ms : list A) (x : A) :
  Forall (fun m => f m = false) ms ->
  find f (ms ++ [x]) = if f x then Some x else None.
Proof.
  induction 1 as [|m r X R IH]; [reflexivity|]. cbn. rewrite X. exact IH.
Qed.

Lemma filter_audio_members ms md :
  Forall wav_member ms ->
  filter (fun m => match snd m with AudioEntry _ => true | TextEntry _ => false end)
         (ms ++ [(lit "structure.md", TextEntry md)]) = ms.
Proof.
  intros W. rewrite filter_app. cbn. rewrite app_nil_r.
  apply filter_absent. intros m I. rewrite Forall_forall in W.
  destruct (W m I) as [_ [b ->]]. reflexivity.
Qed.

(** X13.  Whatever the tree holds, the archive consists of audio members,
    each under a name ending in ".wav", followed by the one manifest
    [structure.md], whose text is the title, the time of generation and
    the heading followed by one outline line for every section and one
    indented line for every subsection, in order.  Every node
    that holds audio finds a member under its file name, and there are
    never more audio members than nodes with audio (nodes that share a
    file name share a member). *)
Theorem build_zip_members (appName_ featureName_ now : jsstring) (l : list Snippet.t) :
  let zip := build_zip appName_ featureName_ now l in
  exists md,
    files zip = audio_members zip ++ [(lit "structure.md", TextEntry md)] /\
    manifest zip = Some md /\
    md = lit "# " ++ appName_ ++ lit " - " ++ featureName_ ++ [newline; newline]
         ++ lit "Generated: " ++ now ++ [newline; newline]
         ++ lit "## Structure" ++ [newline; newline]
         ++ spec_outline l /\
    Forall wav_member (audio_members zip) /\
    List.length (audio_members zip) <= nodes_with_audio l /\
    (forall i s,
       nth_error l i = Some s ->
       (Snippet.audio s <> None ->
        exists b, In (section_file appName_ featureName_ s, AudioEntry b)
                     (audio_members zip)) /\
       forall j sub,
         nth_error (Snippet.subsections s) j = Some sub ->
         Subsection.audio sub <> None ->
         exists b, In (subsection_file appName_ featureName_ s sub, AudioEntry b)
                      (audio_members zip)).
Proof.
  cbv zeta. unfold build_zip.
  set (header := lit "# " ++ _).
  destruct (snippets_loop_archive appName_ featureName_ l 0 (header, [])
              (Forall_nil _)) as (W & L & _ & S).
  cbv zeta in W, L, S.
  set (st := snippets_loop appName_ featureName_ 0 l (header, [])) in *.
  assert (M : fst st = header ++ spec_outline l).
  { subst st. apply snippets_loop_manifest. }
  assert (Fr : zip_file (lit "structure.md") (TextEntry (fst st)) (snd st)
               = snd st ++ [(lit "structure.md", TextEntry (fst st))]).
  { apply zip_file_fresh. revert W. apply Forall_impl.
    exact wav_member_not_manifest. }
  assert (Am : audio_members
                 {| folder := generateFileName [Some appName_; Some featureName_];
                    files := zip_file (lit "structure.md") (TextEntry (fst st)) (snd st) |}
               = snd st).
  { unfold audio_members. cbn [files]. rewrite Fr. apply filter_audio_members, W. }
  exists (fst st). rewrite Am. cbn [files]. split; [exact Fr|]. split.
  { unfold manifest. cbn [files]. rewrite Fr, find_after_misses.
    - cbn [fst]. rewrite str_eqb_refl. reflexivity.
    - revert W. apply Forall_impl. exact wav_member_not_manifest. }
  split; [rewrite M; subst header; rewrite <- !app_assoc; reflexivity|].
  split; [exact W|]. split; [cbn in L; exact L|].
  assert (Audio : forall n d, In (n, d) (snd st) -> exists b, In (n, AudioEntry b) (snd st)).
  { intros n d I. rewrite Forall_forall in W. destruct (W _ I) as [_ [b E]].
    cbn in E. subst d. eauto. }
  intros i s N. destruct (S s (nth_error_In _ _ N)) as [S1 S2]. split.
  - intros A. destruct (S1 A) as [d I]. apply (Audio _ _ I).
  - intros j sub J A.
    destruct (S2 sub (nth_error_In _ _ J) A) as [d I]. apply (Audio _ _ I).
Qed.

Lemma build_zip_members_witness :
  (exists b,
     In (section_file (lit "My App") (lit "Guide")
           (snippet_success sample_audio intro_snippet), AudioEntry b)
        (audio_members (build_zip (lit "My App") (lit "Guide") (lit "1/1/2026")
                          [snippet_success sample_audio intro_snippet]))) /\
  manifest (build_zip (lit "My App") (lit "Guide") (lit "1/1/2026")
              [snippet_success sample_audio intro_snippet])
  = Some (lit "# My App - Guide" ++ [newline; newline]
          ++ lit "Generated: 1/1/2026" ++ [newline; newline]
          ++ lit "## Structure" ++ [newline; newline]
          ++ lit "1. Intro (Puck)" ++ [newline; newline]).
Proof.
  destruct (build_zip_members (lit "My App") (lit "Guide") (lit "1/1/2026")
              [snippet_success sample_audio intro_snippet])
    as (md & _ & F & T & _ & _ & H).
  split.
  - destruct (H 0 (snippet_success sample_audio intro_snippet) eq_refl) as (A & _).
    apply A. discriminate.
  - rewrite F, T. vm_compute. reflexivity.
Defined.

(** X14.  Two sections whose names give the same file name share one
    member of the archive: with audio on both (and no subsections) the
    archive holds a single audio member, under that name, with the audio
    of the later section; the audio of the earlier one is not exported. *)
Theorem colliding_sections_share_a_member (appName_ featureName_ now : jsstring)
  (s1 s2 : Snippet.t) (a1 a2 : GeneratedAudio) :
  section_file appName_ featureName_ s1 = section_file appName_ featureName_ s2 ->
  Snippet.audio s1 = Some a1 -> Snippet.audio s2 = Some a2 ->
  Snippet.subsections s1 = [] -> Snippet.subsections s2 = [] ->
  audio_members (build_zip appName_ featureName_ now [s1; s2])
  = [(section_file appName_ featureName_ s2, AudioEntry (blob a2))].
Proof.
  intros E A1 A2 S1 S2. unfold build_zip, audio_members.
  cbn [files snippets_loop]. rewrite A1, A2, S1, S2.
  cbn [subsections_loop fst snd].
  fold (section_file appName_ featureName_ s1).
  fold (section_file appName_ featureName_ s2).
  rewrite E. cbn [zip_file]. rewrite str_eqb_refl.
  rewrite zip_file_fresh.
  - cbn. reflexivity.
  - constructor; [|constructor]. cbn [fst].
    apply (wav_member_not_manifest (_, AudioEntry (blob a2))).
    apply wav_member_add.
Qed.

Lemma colliding_sections_share_a_member_witness :
  List.length
    (audio_members
       (build_zip (lit "My App") (lit "Guide") (lit "1/1/2026")
          [snippet_success sample_audio intro_snippet;
           snippet_success other_audio (with_name intro_snippet (lit "Intro!"))]))
  = 1.
Proof.
  rewrite (colliding_sections_share_a_member (lit "My App") (lit "Guide")
             (lit "1/1/2026") (snippet_success sample_audio intro_snippet)
             (snippet_success other_audio (with_name intro_snippet (lit "Intro!")))
             sample_audio other_audio);
    reflexivity.
Defined.

(** ** The dialogue editors *)

Lemma findIndex_unique {A} (key : A -> jsstring) (l : list A) : forall i x,
  NoDup (map key l) -> nth_error l i = Some x ->
  findIndex (fun c => str_eqb (key c) (key x)) l = Some i.
Proof.
  induction l as [|y r IH]; intros [|i] x D N; simpl in N; try discriminate.
  - injection N as ->. cbn. rewrite str_eqb_refl. reflexivity.
  - inversion D as [|? ? Y D']; subst. cbn.
    destruct (str_eqb (key y) (key x)) eqn:E.
    + apply str_eqb_eq in E. destruct Y. rewrite E.
      apply in_map, (nth_error_In _ _ N).
    + rewrite (IH i x D' N). reflexivity.
Qed.

Lemma nth_error_length_minus_one {A} (l : list A) :
  l <> [] -> exists x, nth_error l (List.length l - 1) = Some x.
Proof.
  intros H. destruct (nth_error l (List.length l - 1)) as [x|] eqn:E; [eauto|].
  apply nth_error_None in E. destruct l; [contradiction|]. cbn in E. lia.
Qed.

(** X15.  With at least one cast member [addScriptLine] never throws: it
    appends exactly one line, with empty text, and touches nothing else.
    With two or more members of distinct identifiers the new line goes to
    the member after the one who spoke last, in cast order and wrapping
    around, so it never has the last speaker; with a single member it
    repeats the identifier of the last line, whoever that was. *)
Theorem addScriptLine_rotates (uuid : jsstring) (a : App) :
  characters a <> [] ->
  exists next,
    addScriptLine uuid a
    = Some (setScript (script a ++ [mkScriptLine uuid next []]) a) /\
    (forall i c last,
       2 <= List.length (characters a) ->
       NoDup (map character_id (characters a)) ->
       nth_error (script a) (List.length (script a) - 1) = Some last ->
       nth_error (characters a) i = Some c ->
       characterId last = character_id c ->
       option_map character_id
         (nth_error (characters a) ((i + 1) mod List.length (characters a)))
       = Some next /\
       next <> characterId last) /\
    (forall last,
       List.length (characters a) = 1 ->
       nth_error (script a) (List.length (script a) - 1) = Some last ->
       next = characterId last).
Proof.
  intros C. unfold addScriptLine.
  destruct (characters a) as [|c0 cs] eqn:Ch; [contradiction|].
  set (n := List.length (c0 :: cs)).
  assert (Last : exists lastId,
            (if Nat.ltb 0 (List.length (script a))
             then option_map characterId
                    (nth_error (script a) (List.length (script a) - 1))
             else option_map character_id (nth_error (c0 :: cs) 0)) = Some lastId /\
            forall last, nth_error (script a) (List.length (script a) - 1) = Some last ->
                         lastId = characterId last).
  { destruct (script a) as [|l ls] eqn:Sc.
    - cbn. eexists. split; [reflexivity|]. discriminate.
    - destruct (nth_error_length_minus_one (l :: ls)) as [x X]; [discriminate|].
      rewrite X. change (Nat.ltb 0 (List.length (l :: ls))) with true.
      cbn [option_map].
      eexists. split; [reflexivity|]. intros last H. congruence. }
  destruct Last as (lastId & -> & LastP).
  destruct (Nat.ltb 1 n) eqn:Big.
  - apply Nat.ltb_lt in Big.
    set (nextIndex := match findIndex _ (c0 :: cs) with
                      | Some i => (i + 1) mod n | None => 0 end).
    assert (B : nextIndex < n).
    { subst nextIndex. destruct (findIndex _ _); [|lia].
      apply Nat.mod_upper_bound. lia. }
    destruct (nth_error (c0 :: cs) nextIndex) as [c'|] eqn:N;
      [|apply nth_error_None in N; fold n in N; lia].
    cbn [option_map]. exists (character_id c'). split; [reflexivity|]. split.
    + intros i c last _ D L I E. rewrite E.
      assert (F : nextIndex = (i + 1) mod n).
      { subst nextIndex. rewrite (LastP last L), E.
        rewrite (findIndex_unique character_id (c0 :: cs) i c D I). reflexivity. }
      rewrite <- F, N. split; [reflexivity|]. intros Same.
      assert (Li : i < n) by (apply nth_error_Some; rewrite I; discriminate).
      assert (Ne : nextIndex <> i).
      { rewrite F. destruct (Nat.eq_dec (i + 1) n) as [W|W].
        - rewrite W, Nat.Div0.mod_same. lia.
        - rewrite Nat.mod_small by lia. lia. }
      apply Ne. apply (proj1 (NoDup_nth_error (map character_id (c0 :: cs))) D).
      * rewrite length_map. exact B.
      * rewrite !nth_error_map, N, I. cbn. congruence.
    + intros last One. fold n in One. lia.
  - exists lastId. split; [reflexivity|]. split.
    + intros i c last Two. apply Nat.ltb_ge in Big. fold n in Two. lia.
    + intros last _ L. apply LastP, L.
Qed.

Lemma addScriptLine_rotates_witness :
  option_map (fun a => map characterId (script a))
    (addScriptLine (lit "s3") initial_app)
  = Some [lit "1"; lit "2"; lit "1"].
Proof.
  destruct (addScriptLine_rotates (lit "s3") initial_app) as (next & E & R & _);
    [discriminate|].
  rewrite E. cbn [option_map script setScript]. rewrite map_app. cbn [map].
  assert (Two : 2 <= List.length (characters initial_app)) by (vm_compute; lia).
  assert (D : NoDup (map character_id (characters initial_app))).
  { repeat constructor; cbn; intuition discriminate. }
  destruct (R 1 (mkCharacter (lit "2") (lit "Speaker 2") Puck)
              (mkScriptLine (lit "s2") (lit "2")
                 (lit "And I am the second speaker, using Puck. We can talk to each other!"))
              Two D eq_refl eq_refl eq_refl) as [N _].
  injection N as <-. reflexivity.
Defined.





(** X17.  Removing a cast member leaves that member's lines in the
    script; in the prompt sent for the dialogue, which has one line per
    script line, they are attributed to "Unknown". *)
Theorem removed_speaker_becomes_unknown backend (id : jsstring) (a : App)
  (line : ScriptLine) :
  2 <= List.length (characters a) ->
  In line (script a) -> characterId line = id ->
  let a' := removeSpeaker id a in
  In line (script a') /\
  prompt_line (characters a') line = lit "Unknown: " ++ line_text line /\
  promptText (script a') (characters a')
  = join [newline] (map (prompt_line (characters a')) (script a')) /\
  map contents (calls (generateDialogue backend (script a') (characters a')))
  = [[TextPart (promptText (script a') (characters a'))]].
Proof.
  intros L I E. cbv zeta. unfold removeSpeaker.
  destruct (Nat.ltb_spec 1 (List.length (characters a))) as [_|B]; [|lia].
  cbn [script characters setCharacters]. split; [exact I|]. split; [|split].
  - unfold prompt_line. rewrite E.
    destruct (find _ _) as [c|] eqn:F; [|reflexivity].
    apply find_some in F. destruct F as [F Eq].
    apply filter_In in F. destruct F as [_ F]. rewrite Eq in F. discriminate.
  - reflexivity.
  - unfold generateDialogue. rewrite rethrow_same.
    unfold bind, generateContent. cbn [settled calls].
    destruct (backend _) as [response|e]; [|reflexivity].
    destruct (falsy _); reflexivity.
Qed.

Lemma removed_speaker_becomes_unknown_witness :
  promptText (script (removeSpeaker (lit "2") initial_app))
    (characters (removeSpeaker (lit "2") initial_app))
  = lit "Speaker 1: Hello! I am the first speaker using the Kore voice."
    ++ [newline]
    ++ lit "Unknown: And I am the second speaker, using Puck. We can talk to each other!".
Proof.
  assert (L : 2 <= List.length (characters initial_app)) by (vm_compute; lia).
  destruct (removed_speaker_becomes_unknown serving_backend (lit "2") initial_app
              (mkScriptLine (lit "s2") (lit "2")
                 (lit "And I am the second speaker, using Puck. We can talk to each other!"))
              L (or_intror (or_introl eq_refl)) eq_refl) as (_ & _ & P & _).
  rewrite P. vm_compute. reflexivity.
Defined.

(** ** Edits and results *)

Lemma nth_error_split_at {A} (l : list A) : forall i x,
  nth_error l i = Some x -> l = firstn i l ++ x :: skipn (S i) l.
Proof.
  induction l as [|y r IH]; intros [|i] x N; simpl in N; try discriminate.
  - injection N as ->. reflexivity.
  - cbn. f_equal. apply IH, N.
Qed.

(** X18.  Rewriting the name, the voice or the text of a section or of
    one of its subsections changes no status, artifact or error message
    anywhere in the tree: a node that holds audio keeps it, and stays
    successful, when its text is rewritten.  (The sections carry distinct
    identifiers.) *)
Theorem field_edits_keep_results (a : App) (i : nat) (section : Snippet.t)
  (action : EditorAction) :
  NoDup (map Snippet.id (snippets a)) ->
  nth_error (snippets a) i = Some section ->
  is_field_edit action = true ->
  tree_results (snippets (editor_step section action a)) = tree_results (snippets a) /\
  List.length (snippets (editor_step section action a)) = List.length (snippets a) /\
  (forall t, action = EditText t ->
     nth_error (snippets (editor_step section action a)) i
     = Some (with_text section t)).
Proof.
  intros D N F.
  assert (U : forall updated,
            Snippet.id updated = Snippet.id section ->
            snippet_result updated = snippet_result section ->
            snippets (updateSnippet updated a)
            = firstn i (snippets a) ++ updated :: skipn (S i) (snippets a) /\
            tree_results (snippets (updateSnippet updated a))
            = tree_results (snippets a)).
  { intros updated Ei Er.
    assert (X : snippets (updateSnippet updated a)
                = firstn i (snippets a) ++ updated :: skipn (S i) (snippets a)).
    { cbn. rewrite Ei.
      apply (map_snippet_unique (Snippet.id section) (fun _ => updated) _ i section);
        auto. }
    split; [exact X|]. rewrite X.
    rewrite (nth_error_split_at _ _ _ N) at 3.
    unfold tree_results. rewrite !map_app. cbn [map]. rewrite Er. reflexivity. }
  assert (Len : forall updated : Snippet.t,
            List.length (firstn i (snippets a) ++ updated :: skipn (S i) (snippets a))
            = List.length (snippets a)).
  { intros updated. rewrite (nth_error_split_at _ _ _ N) at 3.
    rewrite !length_app. reflexivity. }
  assert (Nth : forall updated : Snippet.t,
            nth_error (firstn i (snippets a) ++ updated :: skipn (S i) (snippets a)) i
            = Some updated).
  { intros updated.
    assert (Li : i < List.length (snippets a))
      by (apply nth_error_Some; rewrite N; discriminate).
    rewrite nth_error_app2; rewrite length_firstn, Nat.min_l by lia; [|lia].
    rewrite Nat.sub_diag. reflexivity. }
  destruct action as [n|v|t|start end_ uuid|subId updates|subId|];
    try discriminate F; cbn [editor_step].
  - destruct (U (with_name section n) eq_refl eq_refl) as [X R].
    rewrite X. split; [rewrite <- X; exact R|]. split; [apply Len|discriminate].
  - destruct (U (with_voice section v) eq_refl eq_refl) as [X R].
    rewrite X. split; [rewrite <- X; exact R|]. split; [apply Len|discriminate].
  - destruct (U (with_text section t) eq_refl eq_refl) as [X R].
    rewrite X. split; [rewrite <- X; exact R|]. split; [apply Len|].
    intros t' E. injection E as <-. apply Nth.
  - assert (Er : snippet_result (updateSubsection section subId updates)
                 = snippet_result section).
    { unfold snippet_result. cbn. f_equal. rewrite map_map. apply map_ext.
      intros sub. destruct (str_eqb _ _); [|reflexivity].
      destruct updates; reflexivity. }
    destruct (U (updateSubsection section subId updates) eq_refl Er) as [X R].
    rewrite X. split; [rewrite <- X; exact R|]. split; [apply Len|discriminate].
Qed.

Lemma field_edits_keep_results_witness :
  map (fun s => (Snippet.text s, Snippet.status s, Snippet.audio s))
    (snippets (editor_step (snippet_success sample_audio intro_snippet)
                 (EditText (lit "Rewritten"))
                 (app_with [snippet_success sample_audio intro_snippet])))
  = [(lit "Rewritten", Success, Some sample_audio)].
Proof.
  assert (D : NoDup (map Snippet.id
                       (snippets (app_with [snippet_success sample_audio intro_snippet])))).
  { constructor; [intros []|constructor]. }
  destruct (field_edits_keep_results
              (app_with [snippet_success sample_audio intro_snippet]) 0
              (snippet_success sample_audio intro_snippet)
              (EditText (lit "Rewritten")) D eq_refl eq_refl) as (_ & _ & T).
  specialize (T (lit "Rewritten") eq_refl).
  destruct (snippets (editor_step _ _ _)) as [|s [|s' r]] eqn:E;
    try (vm_compute in E; discriminate E).
  cbn in T. injection T as ->. reflexivity.
Defined.

(** ** Subsections addressed by identifier *)

(** X19.  Updating or deleting a subsection never changes the section's
    own identifier, name, text, voice, artifact, status or error message;
    on an identifier that no subsection of the section carries both leave
    the section as it is; an update keeps the number, the order and the
    identifiers of the subsections, and a deletion leaves no subsection
    with that identifier and keeps the others, in order. *)
Theorem subsection_operations_by_id (section : Snippet.t) (subId : jsstring)
  (updates : SubsectionUpdate) :
  let updated := updateSubsection section subId updates in
  let deleted := deleteSubsection section subId in
  (with_subsections updated (Snippet.subsections section) = section /\
   with_subsections deleted (Snippet.subsections section) = section) /\
  map Subsection.id (Snippet.subsections updated)
  = map Subsection.id (Snippet.subsections section) /\
  (forall sub, In sub (Snippet.subsections deleted) <->
               In sub (Snippet.subsections section) /\ Subsection.id sub <> subId) /\
  ((forall sub, In sub (Snippet.subsections section) -> Subsection.id sub <> subId) ->
   updated = section /\ deleted = section).
Proof.
  cbv zeta. split; [destruct section; split; reflexivity|]. split; [|split].
  - cbn. rewrite map_map. apply map_ext. intros sub.
    destruct (str_eqb _ _); [destruct updates|]; reflexivity.
  - intros sub. cbn. rewrite filter_In, negb_true_iff. split.
    + intros [I E]. split; [exact I|]. apply str_eqb_neq, E.
    + intros [I E]. split; [exact I|].
      destruct (str_eqb (Subsection.id sub) subId) eqn:B; [|reflexivity].
      apply str_eqb_eq in B. contradiction.
  - intros H. unfold updateSubsection, deleteSubsection. split.
    + replace (map _ (Snippet.subsections section)) with (Snippet.subsections section);
        [destruct section; reflexivity|].
      rewrite <- (map_id (Snippet.subsections section)) at 1.
      apply map_ext_in. intros sub I.
      destruct (str_eqb (Subsection.id sub) subId) eqn:B; [|reflexivity].
      apply str_eqb_eq in B. destruct (H sub I B).
    + rewrite filter_absent; [destruct section; reflexivity|].
      intros sub I. apply negb_true_iff.
      destruct (str_eqb (Subsection.id sub) subId) eqn:B; [|reflexivity].
      apply str_eqb_eq in B. destruct (H sub I B).
Qed.

Lemma subsection_operations_by_id_witness :
  updateSubsection intro_snippet (lit "gone") (UpdateText (lit "x")) = intro_snippet /\
  deleteSubsection intro_snippet (lit "gone") = intro_snippet.
Proof.
  apply (proj2 (proj2 (proj2 (subsection_operations_by_id intro_snippet (lit "gone")
                                (UpdateText (lit "x")))))).
  intros sub [].
Defined.

(** ** Runs through the rendered buttons *)

Lemma not_in_flight (t : Target) (jobs : list Job) :
  ~ In t (map target jobs) ->
  existsb (fun j => if Target_eq_dec (target j) t then true else false) jobs = false.
Proof.
  intros H. destruct (existsb _ jobs) eqn:E; [|reflexivity].
  apply existsb_exists in E. destruct E as [j [I T]].
  destruct (Target_eq_dec (target j) t) as [<-|]; [|discriminate].
  destruct H. apply in_map, I.
Qed.

Section FreshEdits.

Variable N : Snippet.t -> Prop.
Variable M : jsstring -> Subsection.t -> Prop.
Variable w : World.
Variable e : Event.

Hypothesis N_fields : forall s s',
  Snippet.id s' = Snippet.id s -> Snippet.status s' = Snippet.status s ->
  N s -> N s'.
Hypothesis M_fields : forall i sub sub',
  Subsection.id sub' = Subsection.id sub ->
  Subsection.status sub' = Subsection.status sub ->
  M i sub -> M i sub'.
Hypothesis N_new : forall start end_ uuid s,
  e = AddSnippet start end_ uuid ->
  Snippet.id s = uuid -> Snippet.status s = Idle -> N s.
Hypothesis M_new : forall index section start end_ uuid sub,
  e = Editor index (ExtractSubsection start end_ uuid) ->
  nth_error (snippets (app w)) index = Some section ->
  Subsection.id sub = uuid -> Subsection.status sub = Idle ->
  M (Snippet.id section) sub.

Lemma fresh_edits_preserve :
  is_edit e = true ->
  tree_all N M (snippets (app w)) ->
  tree_all N M (snippets (app (step w e))) /\ inflight (step w e) = inflight w.
Proof.
  intros E H.
  destruct e as [t|v|start end_ uuid| |index action|id|sid subid|k r] eqn:Ev;
    try discriminate E; cbn [step].
  - split; [exact H|reflexivity].
  - split; [exact H|reflexivity].
  - split; [|reflexivity]. cbn [app]. unfold addSnippetFromSelection.
    destruct (Nat.eqb start end_); [exact H|].
    destruct (negb _); [exact H|].
    unfold tree_all in *. cbn. apply Forall_app. split; [exact H|].
    constructor; [|constructor]. split; [|constructor].
    apply (N_new start end_ uuid); reflexivity.
  - split; [|reflexivity]. constructor.
  - destruct (nth_error (snippets (app w)) index) as [section|] eqn:X;
      [|split; [exact H|reflexivity]].
    split; [|reflexivity]. cbn [app].
    assert (S : N section /\ Forall (M (Snippet.id section)) (Snippet.subsections section)).
    { unfold tree_all in H. rewrite Forall_forall in H.
      apply H, (nth_error_In _ _ X). }
    destruct S as [SN SM].
    assert (U : forall updated,
              N updated /\ Forall (M (Snippet.id updated)) (Snippet.subsections updated) ->
              tree_all N M (snippets (updateSnippet updated (app w)))).
    { intros updated P. unfold tree_all in *. cbn.
      rewrite Forall_forall in H |- *. intros s I.
      apply in_map_iff in I. destruct I as [s0 [Es I]].
      destruct (str_eqb _ _); subst s; auto. }
    destruct action as [n|v|t|start end_ uuid|subId updates|subId|]; cbn [editor_step].
    + apply U. split; [|exact SM]. apply (N_fields section); auto.
    + apply U. split; [|exact SM]. apply (N_fields section); auto.
    + apply U. split; [|exact SM]. apply (N_fields section); auto.
    + destruct (handleExtractSubsection section start end_ uuid) as [updated|] eqn:Y;
        [|exact H].
      apply handleExtractSubsection_some in Y. destruct Y as (name & text & ->).
      apply U. split; [apply (N_fields section); auto|].
      cbn. apply Forall_app. split; [exact SM|].
      constructor; [|constructor].
      apply (M_new index section start end_ uuid); auto.
    + apply U. split; [apply (N_fields section); auto|].
      cbn. rewrite Forall_forall in *. intros sub J.
      apply in_map_iff in J. destruct J as [sub0 [Es J]].
      destruct (str_eqb _ _); subst sub; [|auto].
      apply (M_fields _ sub0); [destruct updates; reflexivity ..|auto].
    + apply U. split; [apply (N_fields section); auto|].
      cbn. apply Forall_filter_keeps, SM.
    + unfold tree_all. cbn. apply Forall_filter_keeps, H.
Qed.

End FreshEdits.

Lemma busy_weaken ts ts' (l : list Snippet.t) :
  (forall t, In t ts' -> In t ts) ->
  tree_all (section_busy ts) (subsection_busy ts) l ->
  tree_all (section_busy ts') (subsection_busy ts') l.
Proof.
  intros W H. unfold tree_all in *. revert H. apply Forall_impl.
  intros s [A B]. split; [intros I; apply A, W, I|].
  revert B. apply Forall_impl. intros sub C I. apply C, W, I.
Qed.

Lemma clickable_section_idle (w : World) (id : jsstring) :
  world_busy w -> clickable w (GenerateSection id) = true ->
  ~ In (SectionTarget id) (map target (inflight w)).
Proof.
  intros [_ H] C I. cbn in C. apply existsb_exists in C.
  destruct C as [s [Is C]]. apply andb_true_iff in C. destruct C as [E G].
  apply str_eqb_eq in E. unfold tree_all in H. rewrite Forall_forall in H.
  destruct (H s Is) as [B _]. rewrite <- E in I. rewrite (B I) in G. discriminate.
Qed.

Lemma clickable_subsection_idle (w : World) (sid subid : jsstring) :
  world_busy w -> clickable w (GenerateSubsection sid subid) = true ->
  ~ In (SubsectionTarget sid subid) (map target (inflight w)).
Proof.
  intros [_ H] C I. cbn in C. apply existsb_exists in C.
  destruct C as [s [Is C]]. apply andb_true_iff in C. destruct C as [E C].
  apply str_eqb_eq in E. apply existsb_exists in C.
  destruct C as [sub [Isub C]]. apply andb_true_iff in C. destruct C as [E' G].
  apply str_eqb_eq in E'. unfold tree_all in H. rewrite Forall_forall in H.
  destruct (H s Is) as [_ B]. rewrite Forall_forall in B.
  rewrite <- E, <- E' in I. rewrite (B sub Isub I) in G. discriminate.
Qed.

Lemma world_busy_step (w : World) (e : Event) :
  world_busy w -> clickable w e = true -> fresh_uuid w e = true ->
  overlaps w e = false /\ world_busy (step w e).
Proof.
  intros B C F. pose proof B as [D H]. destruct (is_edit e) eqn:E.
  - split; [destruct e; try discriminate E; reflexivity|].
    destruct (fresh_edits_preserve (section_busy (map target (inflight w)))
                (subsection_busy (map target (inflight w))) w e) as [T I]; auto.
    + intros s s' Ei Es P Q. rewrite Es. apply P. rewrite <- Ei. exact Q.
    + intros i s s' Ei Es P Q. rewrite Es. apply P. rewrite <- Ei. exact Q.
    + intros start end_ uuid s -> Ei _ Q. exfalso. cbn in F.
      apply negb_true_iff, not_overlapping in F. apply F. rewrite <- Ei. exact Q.
    + intros index section start end_ uuid sub -> X Ei _ Q. exfalso.
      cbn in F. rewrite X in F.
      apply negb_true_iff, not_overlapping in F. apply F. rewrite <- Ei. exact Q.
    + unfold world_busy. rewrite I. auto.
  - destruct e as [t|v|start end_ uuid| |index action|id|sid subid|k r];
      try discriminate E.
    + pose proof (clickable_section_idle w id B C) as O.
      split; [cbn; apply not_in_flight, O|]. cbn [step].
      unfold generateSnippet_begin. destruct (find _ _); [|exact B].
      unfold world_busy. cbn. rewrite map_app. cbn.
      split; [apply NoDup_snoc; assumption|].
      revert H. apply tree_all_map. intros s _ P Q.
      assert (Q' : Forall (subsection_busy (map target (inflight w) ++ [SectionTarget id])
                             (Snippet.id s)) (Snippet.subsections s)).
      { revert Q. apply Forall_impl. intros sub R I. apply R.
        apply (In_snoc_other _ _ _ I). discriminate. }
      destruct (str_eqb (Snippet.id s) id) eqn:X.
      * split; [intros _; reflexivity|exact Q'].
      * split; [|exact Q']. intros I. apply P.
        apply (In_snoc_other _ _ _ I). apply str_eqb_neq in X. congruence.
    + pose proof (clickable_subsection_idle w sid subid B C) as O.
      split; [cbn; apply not_in_flight, O|]. cbn [step].
      unfold generateSubsection_begin. destruct (find _ _) as [s0|]; [|exact B].
      destruct (find _ _); [|exact B].
      unfold world_busy. cbn. rewrite map_app. cbn.
      split; [apply NoDup_snoc; assumption|].
      revert H. apply tree_all_map. intros s _ P Q.
      assert (P' : section_busy (map target (inflight w) ++ [SubsectionTarget sid subid]) s).
      { intros I. apply P. apply (In_snoc_other _ _ _ I). discriminate. }
      destruct (str_eqb (Snippet.id s) sid) eqn:X.
      * apply str_eqb_eq in X. split; [exact P'|]. cbn.
        apply (Forall_map_impl (subsection_busy (map target (inflight w)) (Snippet.id s)));
          [|exact Q].
        intros sub _ R. destruct (str_eqb (Subsection.id sub) subid) eqn:Y.
        -- intros _. reflexivity.
        -- intros I. apply R. apply (In_snoc_other _ _ _ I).
           apply str_eqb_neq in Y. congruence.
      * split; [exact P'|]. revert Q. apply Forall_impl. intros sub R I. apply R.
        apply (In_snoc_other _ _ _ I). apply str_eqb_neq in X. congruence.
    + split; [reflexivity|]. cbn [step].
      destruct (nth_error (inflight w) k) as [j|] eqn:J; [|exact B].
      assert (J' : nth_error (map target (inflight w)) k = Some (target j)).
      { rewrite nth_error_map, J. reflexivity. }
      destruct (NoDup_remove_nth _ _ _ D J') as [D' X].
      unfold world_busy. cbn [app inflight]. rewrite map_remove_nth.
      split; [exact D'|]. unfold settle_job.
      assert (H' : tree_all (section_busy (remove_nth k (map target (inflight w))))
                     (subsection_busy (remove_nth k (map target (inflight w))))
                     (snippets (app w))).
      { revert H. apply busy_weaken. intros t. apply In_remove_nth. }
      destruct (target j) as [id|sid subid];
        [assert (G : forall f, (forall s, Snippet.id (f s) = Snippet.id s /\
                                  Snippet.subsections (f s) = Snippet.subsections s) ->
                     tree_all (section_busy (remove_nth k (map target (inflight w))))
                       (subsection_busy (remove_nth k (map target (inflight w))))
                       (map_snippet id f (snippets (app w))))
        |assert (G : forall g, (forall sub, Subsection.id (g sub) = Subsection.id sub) ->
                     tree_all (section_busy (remove_nth k (map target (inflight w))))
                       (subsection_busy (remove_nth k (map target (inflight w))))
                       (map_subsection sid subid g (snippets (app w))))].
      * intros f K. revert H'. apply tree_all_map. intros s _ P Q.
        destruct (str_eqb (Snippet.id s) id) eqn:Y; [|auto].
        apply str_eqb_eq in Y. destruct (K s) as [Ki Ks]. rewrite Ks, Ki.
        split; [|exact Q]. intros I. unfold section_busy in I.
        rewrite Ki, Y in I. contradiction.
      * destruct r as [audio|err]; cbn; apply G; intros s; split; reflexivity.
      * intros g K. revert H'. apply tree_all_map. intros s _ P Q.
        destruct (str_eqb (Snippet.id s) sid) eqn:Y; [|auto].
        apply str_eqb_eq in Y. split; [exact P|]. cbn.
        apply (Forall_map_impl
                 (subsection_busy (remove_nth k (map target (inflight w))) (Snippet.id s)));
          [|exact Q].
        intros sub _ R. destruct (str_eqb (Subsection.id sub) subid) eqn:Z; [|exact R].
        apply str_eqb_eq in Z. intros I. rewrite K, Y, Z in I. contradiction.
      * destruct r as [audio|err]; cbn; apply G; intros sub; reflexivity.
Qed.

Lemma world_busy_run (events : list Event) : forall w,
  world_busy w -> ui_run w events = true ->
  no_overlap w events = true /\ world_busy (run w events).
Proof.
  induction events as [|e rest IH]; intros w B U; [split; [reflexivity|exact B]|].
  cbn in U. apply andb_true_iff in U. destruct U as [U R].
  apply andb_true_iff in U. destruct U as [C F].
  destruct (world_busy_step w e B C F) as [O B'].
  destruct (IH _ B' R) as [O' B'']. split; [|exact B''].
  cbn. rewrite O. exact O'.
Qed.

(** X20.  In a run made of clicks on rendered buttons, with a new
    identifier for every new node, no generation call is ever issued on a
    node that has one in flight (a node with a call in flight shows as
    generating, and its buttons are then disabled); so in every state of
    such a run a successful node carries no error message. *)
Theorem ui_runs_do_not_overlap (events : list Event) :
  ui_run initial_world events = true ->
  no_overlap initial_world events = true /\
  world_busy (run initial_world events) /\
  tree_clean (snippets (app (run initial_world events))).
Proof.
  intros U.
  assert (B : world_busy initial_world) by (split; constructor).
  destruct (world_busy_run events initial_world B U) as [O B'].
  split; [exact O|]. split; [exact B'|].
  apply world_quiet_clean, world_quiet_run; [exact O|]. split; constructor.
Qed.

Lemma ui_runs_do_not_overlap_witness :
  ui_run initial_world retry_run = true /\
  ui_run initial_world overlapping_run = false /\
  tree_clean (snippets (app (run initial_world retry_run))).
Proof.
  assert (U : ui_run initial_world retry_run = true) by (vm_compute; reflexivity).
  split; [exact U|]. split; [vm_compute; reflexivity|].
  exact (proj2 (proj2 (ui_runs_do_not_overlap retry_run U))).
Defined.

(** ** The bundle of a project without names *)

Lemma generateFileName_blank_parts (pre : list jsstring) (rest : list (option jsstring)) :
  Forall (fun s => blank s = true) pre ->
  generateFileName (map Some pre ++ rest) = generateFileName rest.
Proof.
  intros H. unfold generateFileName. rewrite filter_app.
  replace (filter part_kept (map Some pre)) with (@nil (option jsstring));
    [reflexivity|].
  induction H as [|s r B _ IH]; [reflexivity|].
  cbn [map filter]. rewrite part_kept_not_blank, B. exact IH.
Qed.

(** X21.  When the app name and the feature name are both blank the
    bundle's folder name is empty and the download is called ".zip"; the
    audio of a section is then filed under the section's own sanitized
    name. *)
Theorem nameless_project_bundle (appName_ featureName_ now : jsstring)
  (generateAsync : Zip -> Settled (list N)) (l : list Snippet.t) (content : list N)
  (s : Snippet.t) :
  blank appName_ = true -> blank featureName_ = true -> l <> [] ->
  generateAsync (build_zip appName_ featureName_ now l) = Fulfilled content ->
  folder (build_zip appName_ featureName_ now l) = [] /\
  handleDownloadAll appName_ featureName_ generateAsync now l
  = Downloaded (lit ".zip") content /\
  section_file appName_ featureName_ s
  = generateFileName [Some (Snippet.name s)] ++ lit ".wav".
Proof.
  intros A F NE G.
  assert (B : Forall (fun s => blank s = true) [appName_; featureName_])
    by (repeat constructor; assumption).
  assert (Fo : folder (build_zip appName_ featureName_ now l) = []).
  { unfold build_zip. cbn [folder].
    apply (generateFileName_blank_parts [appName_; featureName_] [] B). }
  split; [exact Fo|]. split.
  - unfold handleDownloadAll. destruct l as [|x r]; [contradiction|].
    cbn [List.length Nat.eqb]. rewrite G, Fo. reflexivity.
  - unfold section_file. f_equal.
    apply (generateFileName_blank_parts [appName_; featureName_]
             [Some (Snippet.name s)] B).
Qed.

Lemma nameless_project_bundle_witness :
  handleDownloadAll (lit "") (lit "  ") (fun _ => Fulfilled [80; 75]%N)
    (lit "1/1/2026") [intro_snippet]
  = Downloaded (lit ".zip") [80; 75]%N.
Proof.
  apply (nameless_project_bundle (lit "") (lit "  ") (lit "1/1/2026")
           (fun _ => Fulfilled [80; 75]%N) [intro_snippet] [80; 75]%N intro_snippet);
    [reflexivity|reflexivity|discriminate|reflexivity].
Defined.

(** ** One generation of a section, from click to result *)

(** X22.  Generating an existing section sends exactly one synthesis
    request, with the text and voice of the (first) section of that
    identifier as they were at the click, and no section of that
    identifier is left generating: each ends successful with the decoded
    audio, or failed with the message of the step that failed. *)
Theorem generateSnippet_runs_to_a_result backend codec (id : jsstring) (a : App) :
  (exists s, In s (snippets a) /\ Snippet.id s = id) ->
  exists snippet,
    find (fun s => str_eqb (Snippet.id s) id) (snippets a) = Some snippet /\
    snd (generateSnippet backend codec id a)
    = [mkRequest tts_model [TextPart (Snippet.text snippet)] true
         (Some (PrebuiltVoice (Snippet.voice snippet)))] /\
    (exists s, In s (snippets (fst (generateSnippet backend codec id a)))
               /\ Snippet.id s = id) /\
    forall s,
      In s (snippets (fst (generateSnippet backend codec id a))) ->
      Snippet.id s = id ->
      reflects (settled (processGeneration backend codec (Snippet.text snippet)
                           (Snippet.voice snippet))) s /\
      Snippet.status s <> Generating.
Proof.
  intros H. destruct (find_section id (snippets a) H) as [snippet F].
  exists snippet. split; [exact F|].
  unfold generateSnippet, generateSnippet_begin. rewrite F. cbn [fst snd].
  split; [|split].
  - unfold processGeneration. rewrite bind_silent_calls by reflexivity.
    apply (proj1 (generateSingleVoice_shape backend _ _)).
  - apply settle_section_keeps. cbn. apply map_snippet_keeps; auto.
  - intros s I E.
    pose proof (settle_section_reflects id _ _ s I E) as R.
    split; [exact R|].
    destruct (settled (processGeneration backend codec (Snippet.text snippet)
                         (Snippet.voice snippet))) as [audio|err];
      destruct R as [St _]; rewrite St; discriminate.
Qed.

Lemma generateSnippet_runs_to_a_result_witness :
  map (fun s => (Snippet.status s, Snippet.audio s))
    (snippets (fst (generateSnippet serving_backend serving_codec (lit "n1")
                      (app_with [intro_snippet]))))
  = [(Success, Some sample_audio)] /\
  List.length (snd (generateSnippet serving_backend serving_codec (lit "n1")
                      (app_with [intro_snippet]))) = 1.
Proof.
  split; [vm_compute; reflexivity|].
  destruct (generateSnippet_runs_to_a_result serving_backend serving_codec (lit "n1")
              (app_with [intro_snippet])) as (snippet & _ & C & _).
  - exists intro_snippet. split; [left; reflexivity|reflexivity].
  - rewrite C. reflexivity.
Defined.

(** ** Renaming, revoicing and rewriting in the dialogue *)

Lemma find_renamed (id name : jsstring) (l : list Character) :
  In id (map character_id l) ->
  exists c,
    find (fun c => str_eqb (character_id c) id)
         (map (fun c => if str_eqb (character_id c) id
                        then mkCharacter (character_id c) name (character_voice c)
                        else c) l)
    = Some c /\ character_name c = name.
Proof.
  induction l as [|x r IH]; intros I; [destruct I|].
  cbn [map find]. destruct (str_eqb (character_id x) id) eqn:E.
  - cbn. rewrite E. eexists. split; reflexivity.
  - rewrite E. apply IH. destruct I as [I|I]; [|exact I].
    cbn in I. rewrite I, str_eqb_refl in E. discriminate.
Qed.

(** X23.  Renaming or revoicing a cast member keeps the cast's
    identifiers and order and touches no other field; a new name is the
    one the prompt then gives to that member's lines.  Rewriting a field of
    a script line keeps the identifiers and order of the lines and the
    other field; removing a line leaves no line of that identifier and
    keeps the cast. *)
Theorem dialogue_edits_by_id (id value : jsstring) (voice : VoiceName) (a : App) :
  (map character_id (characters (updateCharacterName id value a))
   = map character_id (characters a) /\
   map character_voice (characters (updateCharacterName id value a))
   = map character_voice (characters a) /\
   script (updateCharacterName id value a) = script a) /\
  (map character_id (characters (updateCharacterVoice id voice a))
   = map character_id (characters a) /\
   map character_name (characters (updateCharacterVoice id voice a))
   = map character_name (characters a) /\
   script (updateCharacterVoice id voice a) = script a) /\
  (forall line,
     characterId line = id -> In id (map character_id (characters a)) ->
     prompt_line (characters (updateCharacterName id value a)) line
     = value ++ lit ": " ++ line_text line) /\
  (map line_id (script (updateScriptLine id TextField value a))
   = map line_id (script a) /\
   map characterId (script (updateScriptLine id TextField value a))
   = map characterId (script a) /\
   map line_id (script (updateScriptLine id CharacterIdField value a))
   = map line_id (script a) /\
   map line_text (script (updateScriptLine id CharacterIdField value a))
   = map line_text (script a)) /\
  (forall line, In line (script (removeScriptLine id a)) <->
                In line (script a) /\ line_id line <> id) /\
  characters (removeScriptLine id a) = characters a.
Proof.
  assert (K : forall (f : Character -> Character) (g : Character -> jsstring),
            (forall c, g (f c) = g c) ->
            map g (map (fun c => if str_eqb (character_id c) id then f c else c)
                       (characters a))
            = map g (characters a)).
  { intros f g P. rewrite map_map. apply map_ext. intros c.
    destruct (str_eqb _ _); auto. }
  assert (V : forall (f : Character -> Character),
            (forall c, character_voice (f c) = character_voice c) ->
            map character_voice
                (map (fun c => if str_eqb (character_id c) id then f c else c)
                     (characters a))
            = map character_voice (characters a)).
  { intros f P. rewrite map_map. apply map_ext. intros c.
    destruct (str_eqb _ _); auto. }
  assert (L : forall (f : ScriptLine -> ScriptLine) (g : ScriptLine -> jsstring),
            (forall l, g (f l) = g l) ->
            map g (map (fun l => if str_eqb (line_id l) id then f l else l) (script a))
            = map g (script a)).
  { intros f g P. rewrite map_map. apply map_ext. intros l.
    destruct (str_eqb _ _); auto. }
  split; [|split; [|split; [|split; [|split]]]].
  - cbn. split; [apply K; reflexivity|]. split; [apply V; reflexivity|reflexivity].
  - cbn. split; [apply K; reflexivity|]. split; [apply K; reflexivity|reflexivity].
  - intros line E I. unfold prompt_line. rewrite E. cbn.
    destruct (find_renamed id value (characters a) I) as (c & -> & ->). reflexivity.
  - cbn. repeat split; apply L; reflexivity.
  - intros line. cbn. rewrite filter_In, negb_true_iff. split.
    + intros [I E]. split; [exact I|apply str_eqb_neq, E].
    + intros [I E]. split; [exact I|].
      destruct (str_eqb (line_id line) id) eqn:B; [|reflexivity].
      apply str_eqb_eq in B. contradiction.
  - reflexivity.
Qed.

Lemma dialogue_edits_by_id_witness :
  prompt_line (characters (updateCharacterName (lit "1") (lit "Ann") initial_app))
    (mkScriptLine (lit "s1") (lit "1") (lit "Hi"))
  = lit "Ann: Hi".
Proof.
  apply (proj1 (proj2 (proj2 (dialogue_edits_by_id (lit "1") (lit "Ann") Kore
                                initial_app)))
           (mkScriptLine (lit "s1") (lit "1") (lit "Hi")) eq_refl).
  left. reflexivity.
Defined.
